(** * Fold-and-cut playground: geometry kernel and crease engine

    A shallow embedding of [utils.js] (geometry primitives), [models.js],
    [tools.js], [history.js], [exporter.js] and [engine.js] (ring
    builder, crease extractor, cut line) of the origami playground,
    followed by the properties proved about them.

    Numbers.  A JavaScript number is an IEEE 754 binary64 value.  The
    file reads the arithmetic of the source in two ways; a property is
    about the reading whose definitions it names.

    - The exact reading ([Utils], [Models], [Engine]) takes a number as
      a rational [Q] and the arithmetic without rounding, NaN or signed
      zero.  It is used for the properties that follow the control flow
      of the code: which branch is taken, which error is thrown, what a
      loop keeps or drops, how lists are built.  These compare values
      the code has computed and do not depend on what the arithmetic
      rounds to.  [Math.sqrt] is a parameter [sqrt : Q -> Q] of the
      functions that call it; [Infinity], the sentinel of
      [bboxOfPoints] and [farthestPair], has its own extended type
      [Ext].  The tolerances are written out in decimal: [1e-9] is
      [0.000000001].
    - The binary64 reading ([Binary64]) takes a number as a primitive
      [float], whose operations are the IEEE 754 operations of the
      JavaScript engine, rounding to nearest, ties to even, with NaN,
      the infinities and the two zeros.  It is used where a property
      depends on the value the arithmetic returns: the sign of an area,
      the solution of a linear system.  What holds in the exact reading
      only (that reversing a polygon negates its area, that the
      parameters of an intersection solve the system) is stated as such
      and is refuted for the code by evaluation in this reading.

    Exceptions.  [throw new Error(msg)] is modelled by the [Throw msg]
    constructor of [Result], threaded by [bind]. *)

From Stdlib Require Import QArith Qround Qabs Qminmax Lqa Lia ZArith.
From Stdlib Require Import List String Ascii Bool.
From Stdlib Require Import DecimalString DecimalNat Znumtheory.
From Stdlib Require Qcanon.
From Stdlib Require Floats.
Import ListNotations.

Open Scope Q_scope.

(** ** Comparisons of numbers, as booleans *)

Definition Qltb (a b : Q) : bool := negb (Qle_bool b a).
Definition Qgtb (a b : Q) : bool := Qltb b a.
Definition Qgeb (a b : Q) : bool := Qle_bool b a.

Infix "<?" := Qltb (at level 70, no associativity) : Q_scope.
Infix "<=?" := Qle_bool (at level 70, no associativity) : Q_scope.
Infix ">?" := Qgtb (at level 70, no associativity) : Q_scope.
Infix ">=?" := Qgeb (at level 70, no associativity) : Q_scope.

(** ** Exceptions *)

Inductive Result (A : Type) : Type :=
| Ok (a : A)
| Throw (msg : string).

Arguments Ok {A} a.
Arguments Throw {A} msg.

Definition bind {A B : Type} (r : Result A) (k : A -> Result B) : Result B :=
  match r with
  | Ok a => k a
  | Throw msg => Throw msg
  end.

Notation "'let*' x ':=' r 'in' k" := (bind r (fun x => k))
  (at level 10, x pattern, r at level 100, k at level 200).

(** [arr.map(f)] where [f] may throw: the first exception aborts the map. *)
Fixpoint mapM {A B : Type} (f : A -> Result B) (l : list A) : Result (list B) :=
  match l with
  | [] => Ok []
  | a :: l' =>
      let* b := f a in
      let* bs := mapM f l' in
      Ok (b :: bs)
  end.

(** A [for (const a of l)] loop whose body may throw, over a loop state. *)
Fixpoint foldM {A S : Type} (body : S -> A -> Result S) (l : list A) (s : S)
  : Result S :=
  match l with
  | [] => Ok s
  | a :: l' => let* s' := body s a in foldM body l' s'
  end.

(** ** Text of numbers

    A template literal [`${n}`] prints a number in decimal.  Array
    lengths and vertex indices are naturals.  A rational prints as its
    sign, integer part and, when it is not an integer, a point and its
    fractional digits (at most [fracDigits] of them: an exact rational
    has no shortest round-trip form). *)

Definition natToString (n : nat) : string :=
  NilEmpty.string_of_uint (Nat.to_uint n).

(** [Number(s)] on the text of a natural; [None] stands for [NaN]. *)
Definition Number (s : string) : option nat :=
  option_map Nat.of_uint (NilEmpty.uint_of_string s).

Definition fracDigits : nat := 20.

Definition digitChar (d : Z) : ascii := ascii_of_nat (48 + Z.to_nat d).

(** Digits of [n / d] for [0 <= n < d], most significant first. *)
Fixpoint fracToString (fuel : nat) (n d : Z) : string :=
  match fuel with
  | O => EmptyString
  | S fuel' =>
      if (n =? 0)%Z then EmptyString
      else String (digitChar ((10 * n) / d)%Z)
                  (fracToString fuel' ((10 * n) mod d)%Z d)
  end.

Definition numToString (v : Q) : string :=
  let r := Qred v in
  let n := Z.abs (Qnum r) in
  let d := Zpos (Qden r) in
  let sign := if (Qnum r <? 0)%Z then "-"%string else EmptyString in
  let int := NilEmpty.string_of_uint (N.to_uint (Z.to_N (n / d))) in
  let frac := fracToString fracDigits (n mod d)%Z d in
  (sign ++ int ++ (if (n mod d =? 0)%Z then EmptyString else "." ++ frac))%string.

(** * utils.js *)

Module Utils.

Record Point : Type := pt { x : Q; y : Q }.

Definition clamp (v a b : Q) : Q := Qmax a (Qmin b v).

Definition nearlyEqual (a b eps : Q) : bool := Qabs (a - b) <=? eps.

Definition add (a b : Point) : Point := pt (x a + x b) (y a + y b).
Definition sub (a b : Point) : Point := pt (x a - x b) (y a - y b).
Definition mul (a : Point) (s : Q) : Point := pt (x a * s) (y a * s).
Definition dot (a b : Point) : Q := x a * x b + y a * y b.
Definition cross (a b : Point) : Q := x a * y b - y a * x b.
Definition len2 (a : Point) : Q := x a * x a + y a * y a.

Definition dist2 (a b : Point) : Q :=
  (x a - x b) * (x a - x b) + (y a - y b) * (y a - y b).

Section WithSqrt.
(** [Math.sqrt] *)
Variable sqrt : Q -> Q.

Definition len (a : Point) : Q := sqrt (len2 a).
Definition dist (a b : Point) : Q := sqrt (dist2 a b).

Definition normalize (v : Point) : Point :=
  let l := len v in
  if l <? 0.000000000001 then pt 0 0
  else pt (x v / l) (y v / l).
End WithSqrt.

(** [Math.round]: the nearest integer, a half rounding up. *)
Definition round (v : Q) : Q := inject_Z (Qfloor (v + 0.5)).

(** [points[i]]; every index the modelled loops use is below the length. *)
Definition at_ (points : list Point) (i : nat) : Point := nth i points (pt 0 0).

(** The number line extended with the two infinities of [bboxOfPoints]. *)
Inductive Ext : Type :=
| Fin (v : Q)
| PosInf
| NegInf.

Definition minExt (m : Ext) (v : Q) : Ext :=
  match m with
  | Fin a => Fin (Qmin a v)
  | PosInf => Fin v
  | NegInf => NegInf
  end.

Definition maxExt (m : Ext) (v : Q) : Ext :=
  match m with
  | Fin a => Fin (Qmax a v)
  | PosInf => PosInf
  | NegInf => Fin v
  end.

Definition isFinite (m : Ext) : bool :=
  match m with
  | Fin _ => true
  | _ => false
  end.

(** The number held by a finite [Ext]. *)
Definition valueOf (m : Ext) : Q :=
  match m with
  | Fin v => v
  | _ => 0
  end.

Record BBox : Type := mkBBox { minX : Q; minY : Q; maxX : Q; maxY : Q }.

(** The four running extremes of the loop of [bboxOfPoints]. *)
Definition bboxStep (acc : Ext * Ext * Ext * Ext) (p : Point)
  : Ext * Ext * Ext * Ext :=
  let '(mnX, mnY, mxX, mxY) := acc in
  (minExt mnX (x p), minExt mnY (y p), maxExt mxX (x p), maxExt mxY (y p)).

Definition bboxOfPoints (points : list Point) : BBox :=
  let '(mnX, mnY, mxX, mxY) :=
    fold_left bboxStep points (PosInf, PosInf, NegInf, NegInf) in
  if negb (isFinite mnX) then mkBBox 0 0 0 0
  else mkBBox (valueOf mnX) (valueOf mnY) (valueOf mxX) (valueOf mxY).

(** Signed area; [points] does not repeat its first point at the end. *)
Definition polygonArea (points : list Point) : Q :=
  let n := List.length points in
  fold_left
    (fun a i =>
       let p := at_ points i in
       let q := at_ points ((i + 1) mod n) in
       a + (x p * y q - x q * y p))
    (seq 0 n) 0
  / 2.

Definition polygonCentroid (points : list Point) : Point :=
  let A := polygonArea points in
  if Qabs A <? 0.000000000001 then
    let b := bboxOfPoints points in
    pt ((minX b + maxX b) / 2) ((minY b + maxY b) / 2)
  else
    let n := List.length points in
    let '(cx, cy) :=
      fold_left
        (fun (c : Q * Q) i =>
           let p := at_ points i in
           let q := at_ points ((i + 1) mod n) in
           let k := x p * y q - x q * y p in
           (fst c + (x p + x q) * k, snd c + (y p + y q) * k))
        (seq 0 n) (0, 0) in
    pt (cx / (6 * A)) (cy / (6 * A)).

(** [[...points].reverse()] is [rev points]; [[...points]] is [points]. *)
Definition ensureCCW (points : list Point) : list Point :=
  if polygonArea points <? 0 then rev points else points.

Definition ensureCW (points : list Point) : list Point :=
  if polygonArea points >? 0 then rev points else points.

(** Ray casting; the loop state is [inside] and the previous index [j]. *)
Definition pointInPolygon (p : Point) (poly : list Point) : bool :=
  fst
    (fold_left
       (fun (st : bool * nat) i =>
          let '(inside, j) := st in
          let a := at_ poly i in
          let b := at_ poly j in
          let intersect :=
            negb (Bool.eqb (y a >? y p) (y b >? y p)) &&
            (x p <? (x b - x a) * (y p - y a) / (y b - y a + 0) + x a) in
          ((if intersect then negb inside else inside), i))
       (seq 0 (List.length poly)) (false, (List.length poly - 1)%nat)).

Definition orient (a b c : Point) : Q := cross (sub b a) (sub c a).

Definition onSegment (a b p : Point) (eps : Q) : bool :=
  (Qmin (x a) (x b) - eps <=? x p) && (x p <=? Qmax (x a) (x b) + eps) &&
  (Qmin (y a) (y b) - eps <=? y p) && (y p <=? Qmax (y a) (y b) + eps) &&
  (Qabs (orient a b p) <=? eps).

Definition segmentsIntersect (a b c d : Point) (eps : Q) : bool :=
  let o1 := orient a b c in
  let o2 := orient a b d in
  let o3 := orient c d a in
  let o4 := orient c d b in
  if (((o1 >? eps) && (o2 <? - eps)) || ((o1 <? - eps) && (o2 >? eps))) &&
     (((o3 >? eps) && (o4 <? - eps)) || ((o3 <? - eps) && (o4 >? eps)))
  then true
  else if (Qabs o1 <=? eps) && onSegment a b c eps then true
  else if (Qabs o2 <=? eps) && onSegment a b d eps then true
  else if (Qabs o3 <=? eps) && onSegment c d a eps then true
  else if (Qabs o4 <=? eps) && onSegment c d b eps then true
  else false.

(** The two nested loops return [false] at the first intersecting pair of
    edges that are neither equal nor adjacent. *)
Definition isSimplePolygon (points : list Point) (eps : Q) : bool :=
  let n := List.length points in
  if (n <? 3)%nat then false
  else
    forallb
      (fun i =>
         let a1 := at_ points i in
         let a2 := at_ points ((i + 1) mod n) in
         forallb
           (fun j =>
              let b1 := at_ points j in
              let b2 := at_ points ((j + 1) mod n) in
              if (i =? j)%nat then true
              else if ((i + 1) mod n =? j)%nat then true
              else if (i =? (j + 1) mod n)%nat then true
              else negb (segmentsIntersect a1 a2 b1 b2 eps))
           (seq (i + 1) (n - (i + 1))))
      (seq 0 n).

Record Nearest : Type := mkNearest { nq : Point; nt : Q }.

Definition nearestPointOnSegment (p a b : Point) : Nearest :=
  let ab := sub b a in
  let t := clamp (dot (sub p a) ab / (len2 ab + 0.000000000001)) 0 1 in
  let q := add a (mul ab t) in
  mkNearest q t.

Record Hit : Type := mkHit { ht : Q; hu : Q; hp : Point }.

(** [null] is [None]. *)
Definition lineRaySegmentIntersection (rayP rayDir a b : Point) (eps : Q)
  : option Hit :=
  let v := rayDir in
  let w := sub b a in
  let denom := cross v w in
  if Qabs denom <=? eps then None
  else
    let ap := sub a rayP in
    let t := cross ap w / denom in
    let u := cross ap v / denom in
    if (t >=? - eps) && (u >=? - eps) && (u <=? 1 + eps)
    then Some (mkHit t u (add rayP (mul v t)))
    else None.

Definition quantizePoint (p : Point) (q : Q) : Point :=
  pt (round (x p / q) * q) (round (y p / q) * q).

Definition keyForUndirectedEdge (a b : Point) (q : Q) : string :=
  let A := quantizePoint a q in
  let B := quantizePoint b q in
  let k1 := (numToString (x A) ++ "," ++ numToString (y A))%string in
  let k2 := (numToString (x B) ++ "," ++ numToString (y B))%string in
  if String.ltb k1 k2 then (k1 ++ "|" ++ k2)%string
  else (k2 ++ "|" ++ k1)%string.

Definition isClosedPolyline (points : list Point) (eps : Q) : bool :=
  if (List.length points <? 3)%nat then false
  else dist2 (at_ points 0) (at_ points (List.length points - 1)) <=? eps * eps.

End Utils.

(** * utils.js in binary64

    The functions of [utils.js] whose properties below depend on the
    rounding of the arithmetic, over primitive floats.  Each body is the
    body of the source, operation for operation and in the order of the
    source; [a > b] is [b < a] and [a >= b] is [b <= a], as in IEEE 754. *)

Module Binary64.
Import PrimFloat.
#[local] Open Scope float_scope.

Notation "x >? y" := (ltb y x) (at level 70, no associativity) : float_scope.
Notation "x >=? y" := (leb y x) (at level 70, no associativity) : float_scope.

Record Point : Type := pt { x : float; y : float }.

Definition add (a b : Point) : Point := pt (x a + x b) (y a + y b).
Definition sub (a b : Point) : Point := pt (x a - x b) (y a - y b).
Definition mul (a : Point) (s : float) : Point := pt (x a * s) (y a * s).
Definition cross (a b : Point) : float := x a * y b - y a * x b.

(** [Math.min] and [Math.max] of two numbers: NaN when either is NaN,
    and [-0] below [+0]. *)
Definition Math_min (a b : float) : float :=
  if is_nan a || is_nan b then nan
  else if a <? b then a
  else if b <? a then b
  else if is_zero a && get_sign b then b
  else a.

Definition Math_max (a b : float) : float :=
  if is_nan a || is_nan b then nan
  else if a <? b then b
  else if b <? a then a
  else if is_zero a && get_sign a then b
  else a.

(** [points[i]]; every index the modelled loops use is below the length. *)
Definition at_ (points : list Point) (i : nat) : Point := nth i points (pt 0 0).

(** Signed area: the sum is accumulated from [0] in the order of the
    indices, then halved. *)
Definition polygonArea (points : list Point) : float :=
  let n := List.length points in
  fold_left
    (fun a i =>
       let p := at_ points i in
       let q := at_ points ((i + 1) mod n) in
       a + (x p * y q - x q * y p))
    (seq 0 n) 0
  / 2.

(** [[...points].reverse()] is [rev points]; [[...points]] is [points]. *)
Definition ensureCCW (points : list Point) : list Point :=
  if polygonArea points <? 0 then rev points else points.

Definition ensureCW (points : list Point) : list Point :=
  if polygonArea points >? 0 then rev points else points.

Definition orient (a b c : Point) : float := cross (sub b a) (sub c a).

Definition onSegment (a b p : Point) (eps : float) : bool :=
  (Math_min (x a) (x b) - eps <=? x p) && (x p <=? Math_max (x a) (x b) + eps) &&
  (Math_min (y a) (y b) - eps <=? y p) && (y p <=? Math_max (y a) (y b) + eps) &&
  (abs (orient a b p) <=? eps).

Definition segmentsIntersect (a b c d : Point) (eps : float) : bool :=
  let o1 := orient a b c in
  let o2 := orient a b d in
  let o3 := orient c d a in
  let o4 := orient c d b in
  if (((o1 >? eps) && (o2 <? - eps)) || ((o1 <? - eps) && (o2 >? eps))) &&
     (((o3 >? eps) && (o4 <? - eps)) || ((o3 <? - eps) && (o4 >? eps)))
  then true
  else if (abs o1 <=? eps) && onSegment a b c eps then true
  else if (abs o2 <=? eps) && onSegment a b d eps then true
  else if (abs o3 <=? eps) && onSegment c d a eps then true
  else if (abs o4 <=? eps) && onSegment c d b eps then true
  else false.

Definition isSimplePolygon (points : list Point) (eps : float) : bool :=
  let n := List.length points in
  if (n <? 3)%nat then false
  else
    forallb
      (fun i =>
         let a1 := at_ points i in
         let a2 := at_ points ((i + 1) mod n) in
         forallb
           (fun j =>
              let b1 := at_ points j in
              let b2 := at_ points ((j + 1) mod n) in
              if (i =? j)%nat then true
              else if ((i + 1) mod n =? j)%nat then true
              else if (i =? (j + 1) mod n)%nat then true
              else negb (segmentsIntersect a1 a2 b1 b2 eps))
           (seq (i + 1) (n - (i + 1))))
      (seq 0 n).

Record Hit : Type := mkHit { ht : float; hu : float; hp : Point }.

(** [null] is [None]. *)
Definition lineRaySegmentIntersection (rayP rayDir a b : Point) (eps : float)
  : option Hit :=
  let v := rayDir in
  let w := sub b a in
  let denom := cross v w in
  if abs denom <=? eps then None
  else
    let ap := sub a rayP in
    let t := cross ap w / denom in
    let u := cross ap v / denom in
    if (t >=? - eps) && (u >=? - eps) && (u <=? 1 + eps)
    then Some (mkHit t u (add rayP (mul v t)))
    else None.

End Binary64.

(** * models.js *)

Module Models.
Import Utils.

(** A shape of the document.  [points] is [None] for a shape without a
    point array (the base class [Shape]); [type] is ['polygon'] or
    ['polyline']. *)
Record Shape : Type := mkShape {
  id : string;
  type : string;
  closed : bool;
  points : option (list Point)
}.

Record Project : Type := mkProject { shapes : list Shape }.

(** [this.shapes.find(s => s.id === id) ?? null] *)
Definition getShapeById (project : Project) (i : string) : option Shape :=
  find (fun s => String.eqb (id s) i) (shapes project).

(** [new PolylineShape(points, closed)]; [uid] is the identifier that
    [uid('shape')] draws for the new shape. *)
Definition PolylineShape (uid : string) (pts : list Point) (isClosed : bool) : Shape :=
  mkShape uid (if isClosed then "polygon" else "polyline") isClosed
          (Some (map (fun p => pt (x p) (y p)) pts)).

Definition addShape (project : Project) (shape : Shape) : Project :=
  mkProject (shapes project ++ [shape]).

(** [l.findIndex(p)]; [None] is [-1]. *)
Fixpoint findIndex {A : Type} (p : A -> bool) (l : list A) : option nat :=
  match l with
  | [] => None
  | a :: l' => if p a then Some 0%nat else option_map S (findIndex p l')
  end.

(** [l.splice(idx, 1)] *)
Definition splice1 {A : Type} (idx : nat) (l : list A) : list A :=
  firstn idx l ++ skipn (S idx) l.

Definition removeShapeById (project : Project) (i : string) : Project :=
  match findIndex (fun s => String.eqb (id s) i) (shapes project) with
  | Some idx => mkProject (splice1 idx (shapes project))
  | None => project
  end.

(** [bbox()]: of the points, and all zero for a shape without points. *)
Definition bbox (s : Shape) : BBox :=
  match points s with
  | Some ps => bboxOfPoints ps
  | None => mkBBox 0 0 0 0
  end.

(** [translate(dx, dy)]: every point moves; the shape after the call. *)
Definition translate (s : Shape) (dx dy : Q) : Shape :=
  match points s with
  | Some ps =>
      mkShape (id s) (type s) (closed s)
              (Some (map (fun p => pt (x p + dx) (y p + dy)) ps))
  | None => s
  end.

Definition hitTest (s : Shape) (p : Point) (eps : Q) : bool :=
  match points s with
  | None => false
  | Some ps =>
      if closed s then pointInPolygon p ps
      else
        let e2 := eps * eps in
        existsb
          (fun i =>
             let a := at_ ps i in
             let b := at_ ps (i + 1) in
             let t :=
               ((x p - x a) * (x b - x a) + (y p - y a) * (y b - y a))
               / (((x b - x a) * (x b - x a) + (y b - y a) * (y b - y a))
                  + 0.000000000001) in
             let tt := Qmax 0 (Qmin 1 t) in
             let qx := x a + (x b - x a) * tt in
             let qy := y a + (y b - y a) * tt in
             (x p - qx) * (x p - qx) + (y p - qy) * (y p - qy) <=? e2)
          (seq 0 (List.length ps - 1))
  end.

(** [d2 < bestD2], where [bestD2] starts at [Infinity]. *)
Definition ltExt (v : Q) (m : Ext) : bool :=
  match m with
  | Fin a => v <? a
  | PosInf => true
  | NegInf => false
  end.

(** [nearestVertex(p, eps)]: an index, or -1. *)
Definition nearestVertex (ps : list Point) (p : Point) (eps : Q) : Z :=
  let e2 := eps * eps in
  fst
    (fold_left
       (fun (st : Z * Ext) i =>
          let d2 := dist2 p (at_ ps i) in
          if (d2 <=? e2) && ltExt d2 (snd st) then (Z.of_nat i, Fin d2) else st)
       (seq 0 (List.length ps)) ((-1)%Z, PosInf)).

(** The plain object that [toJSON] returns and [fromJSON] reads; a field
    that is absent (or not of the type read) is [None]. *)
Record ShapeJSON : Type := mkShapeJSON {
  j_id : option string;
  j_type : option string;
  j_closed : option bool;
  j_points : option (list Point)
}.

(** [toJSON()]: [{ id, type }] for a shape without points, and
    [{ id, type, closed, points }] for a polyline shape. *)
Definition toJSON (s : Shape) : ShapeJSON :=
  match points s with
  | None => mkShapeJSON (Some (id s)) (Some (type s)) None None
  | Some ps =>
      mkShapeJSON (Some (id s)) (Some (type s)) (Some (closed s))
                  (Some (map (fun p => pt (x p) (y p)) ps))
  end.

(** Truth value of an optional string: absent and empty are falsy. *)
Definition truthyString (o : option string) : bool :=
  match o with
  | Some v => negb (String.eqb v EmptyString)
  | None => false
  end.

(** [PolylineShape.fromJSON(obj)]; [uid] is the identifier the
    constructor draws, kept when [obj.id] is falsy. *)
Definition PolylineShape_fromJSON (uid : string) (obj : ShapeJSON) : Shape :=
  let pts :=
    match j_points obj with
    | Some ps => map (fun p => pt (x p) (y p)) ps
    | None => []
    end in
  let isClosed :=
    match j_closed obj with Some c => c | None => false end
    || match j_type obj with Some t => String.eqb t "polygon" | None => false end in
  let s := PolylineShape uid pts isClosed in
  match j_id obj with
  | Some i => if truthyString (j_id obj) then mkShape i (type s) (closed s) (points s) else s
  | None => s
  end.

(** [ShapeFactory.fromJSON(obj)] *)
Definition ShapeFactory_fromJSON (uid : string) (obj : ShapeJSON) : Shape :=
  if negb (truthyString (j_type obj)) then PolylineShape uid [] false
  else PolylineShape_fromJSON uid obj.

End Models.

(** * tools.js *)

Module Tools.
Import Utils.

Definition rectToPoints (a b : Point) : list Point :=
  let x1 := Qmin (x a) (x b) in
  let y1 := Qmin (y a) (y b) in
  let x2 := Qmax (x a) (x b) in
  let y2 := Qmax (y a) (y b) in
  [pt x1 y1; pt x2 y1; pt x2 y2; pt x1 y2].

(** The test of [RectTool.onPointerUp] that refuses a rectangle. *)
Definition rectTooSmall (pts : list Point) : bool :=
  (Qabs (x (at_ pts 2) - x (at_ pts 0)) <? 5)
  || (Qabs (y (at_ pts 2) - y (at_ pts 0)) <? 5).

End Tools.

(** * history.js *)

Module History.
Import Utils.
Import Models.

(** The commands on shapes.  ([SetProjectCommand] also rewrites the
    settings of the project, which this development does not model.) *)
Inductive Command : Type :=
| AddShapeCommand (shapeJSON : ShapeJSON)
| RemoveShapeCommand (shapeJSON : ShapeJSON)
| UpdateShapeCommand (shapeId : string) (beforeJSON afterJSON : ShapeJSON).

(** [project.removeShapeById(this.shapeJSON.id)]: no shape has the
    identifier [undefined]. *)
Definition removeByJSONId (project : Project) (obj : ShapeJSON) : Project :=
  match j_id obj with
  | Some i => removeShapeById project i
  | None => project
  end.

(** [l[idx] = v] for an index in range. *)
Fixpoint setAt {A : Type} (idx : nat) (v : A) (l : list A) : list A :=
  match l, idx with
  | [], _ => []
  | _ :: l', O => v :: l'
  | a :: l', S idx' => a :: setAt idx' v l'
  end.

(** [UpdateShapeCommand._apply]. *)
Definition applyUpdate (uid : string) (shapeId : string) (project : Project)
  (json : ShapeJSON) : Project :=
  match findIndex (fun s => String.eqb (id s) shapeId) (shapes project) with
  | None => project
  | Some idx =>
      let newShape := ShapeFactory_fromJSON uid json in
      let newShape := mkShape shapeId (type newShape) (closed newShape) (points newShape) in
      mkProject (setAt idx newShape (shapes project))
  end.

(** [cmd.do(project)] and [cmd.undo(project)]; [uid] is the identifier a
    shape built by the call would draw. *)
Definition cmdDo (uid : string) (cmd : Command) (project : Project) : Project :=
  match cmd with
  | AddShapeCommand obj => mkProject (shapes project ++ [ShapeFactory_fromJSON uid obj])
  | RemoveShapeCommand obj => removeByJSONId project obj
  | UpdateShapeCommand shapeId _ afterJSON => applyUpdate uid shapeId project afterJSON
  end.

Definition cmdUndo (uid : string) (cmd : Command) (project : Project) : Project :=
  match cmd with
  | AddShapeCommand obj => removeByJSONId project obj
  | RemoveShapeCommand obj => mkProject (shapes project ++ [ShapeFactory_fromJSON uid obj])
  | UpdateShapeCommand shapeId beforeJSON _ => applyUpdate uid shapeId project beforeJSON
  end.

Section UndoManager.
(** Any class of commands with its [do] and [undo]. *)
Variable Cmd : Type.
Variable run_do : Cmd -> Project -> Project.
Variable run_undo : Cmd -> Project -> Project.

(** The two stacks; the top of a stack is the end of the list. *)
Record UndoManager : Type := mkUndoManager {
  undoStack : list Cmd;
  redoStack : list Cmd
}.

Definition newUndoManager : UndoManager := mkUndoManager [] [].

(** [stack.pop()]: the last element, if any, and the rest. *)
Definition pop (stack : list Cmd) : option (Cmd * list Cmd) :=
  match rev stack with
  | [] => None
  | top :: rest => Some (top, rev rest)
  end.

Definition exec (cmd : Cmd) (st : UndoManager * Project) : UndoManager * Project :=
  let '(m, project) := st in
  (mkUndoManager (undoStack m ++ [cmd]) [], run_do cmd project).

Definition canUndo (m : UndoManager) : bool := (0 <? List.length (undoStack m))%nat.
Definition canRedo (m : UndoManager) : bool := (0 <? List.length (redoStack m))%nat.

Definition undo (st : UndoManager * Project) : UndoManager * Project :=
  let '(m, project) := st in
  match pop (undoStack m) with
  | None => st
  | Some (cmd, rest) =>
      (mkUndoManager rest (redoStack m ++ [cmd]), run_undo cmd project)
  end.

Definition redo (st : UndoManager * Project) : UndoManager * Project :=
  let '(m, project) := st in
  match pop (redoStack m) with
  | None => st
  | Some (cmd, rest) =>
      (mkUndoManager (undoStack m ++ [cmd]) rest, run_do cmd project)
  end.
End UndoManager.

End History.

(** * exporter.js *)

Module Exporter.

(** [s.replaceAll(c, r)] for a one-character pattern. *)
Fixpoint replaceAll (c : ascii) (r : string) (s : string) : string :=
  match s with
  | EmptyString => EmptyString
  | String d s' =>
      if Ascii.eqb d c then (r ++ replaceAll c r s')%string
      else String d (replaceAll c r s')
  end.

Definition ampersand : ascii := ascii_of_nat 38.
Definition lessThan : ascii := ascii_of_nat 60.
Definition greaterThan : ascii := ascii_of_nat 62.
Definition doubleQuote : ascii := ascii_of_nat 34.
Definition singleQuote : ascii := ascii_of_nat 39.

Definition esc (s : string) : string :=
  replaceAll singleQuote "&#39;"
    (replaceAll doubleQuote "&quot;"
       (replaceAll greaterThan "&gt;"
          (replaceAll lessThan "&lt;"
             (replaceAll ampersand "&amp;" s)))).

End Exporter.

(** * engine.js *)

Module Engine.
Import Utils.
Import Models.

Definition EPS_TIME : Q := 0.0000001.

(** ** Messages of the errors thrown *)

Definition dquote : string := String (ascii_of_nat 34) EmptyString.
Definition newline : string := String (ascii_of_nat 10) EmptyString.

(** The spec's [NoClosedPolygon]. *)
Definition msgNoClosedPolygon : string :=
  "No closed polygon found. Create one using Pen/Rectangle/Regular Polygon.".

Definition msgSelectedNotClosed : string :=
  "The selected shape is not closed. Please select a closed polygon.".

(** The spec's [DegenerateRing]. *)
Definition msgDegenerateRing : string :=
  "A closed shape needs at least 3 points.".

(** The spec's [SelfIntersectingRing]. *)
Definition msgSelfIntersectingRing : string :=
  "This shape is self-intersecting. Please use a simple polygon.".

(** The spec's [MultipleDisjointOuterRings], up to the count that ends it. *)
Definition msgMultipleOuterPrefix : string :=
  ("Multiple outer candidates (disjoint closed polygons) were detected."
   ++ newline ++
   "This demo supports only: " ++ dquote ++
   "one outer boundary + holes (inner closed polygons)" ++ dquote ++ "."
   ++ newline ++
   "Number of polygons outside the outer boundary: ")%string.

Definition msgMultipleOuter (count : nat) : string :=
  (msgMultipleOuterPrefix ++ natToString count)%string.

(** The spec's [SkeletonComputationFailed]. *)
Definition msgSkeletonFailed : string :=
  "Failed to generate a straight skeleton (the input may not be weakly simple, etc.).".

(** Reading a property of [undefined]. *)
Definition msgTypeError : string := "TypeError".

(** ** Ring builder *)

(** [clean[clean.length - 1]]; [None] is [undefined]. *)
Definition lastOf {A : Type} (l : list A) : option A :=
  match rev l with
  | [] => None
  | a :: _ => Some a
  end.

(** The loop of [ringFromShape] that drops a point equal, within 1e-9 in
    both coordinates, to the point kept before it. *)
Definition cleanStep (clean : list Point) (p : Point) : list Point :=
  match lastOf clean with
  | None => clean ++ [p]
  | Some prev =>
      if (Qabs (x prev - x p) >? 0.000000001) || (Qabs (y prev - y p) >? 0.000000001)
      then clean ++ [p]
      else clean
  end.

Definition ringFromShape (shape : Shape) : Result (list Point) :=
  match points shape with
  | None => Throw msgTypeError
  | Some ps =>
      let pts := map (fun p => pt (x p) (y p)) ps in
      if (List.length pts <? 3)%nat then Throw msgDegenerateRing
      else
        let clean := fold_left cleanStep pts [] in
        if (List.length clean <? 3)%nat then Throw msgDegenerateRing
        else if negb (isSimplePolygon clean 0.000000001) then Throw msgSelfIntersectingRing
        else Ok clean
  end.

(** [d2 > bestD2], where [bestD2] starts at [-Infinity]. *)
Definition gtExt (v : Q) (m : Ext) : bool :=
  match m with
  | Fin a => v >? a
  | PosInf => false
  | NegInf => true
  end.

Definition farthestPair (pts : list Point) : Point * Point :=
  let n := List.length pts in
  let '(bestI, bestJ, _) :=
    fold_left
      (fun st i =>
         fold_left
           (fun (st : nat * nat * Ext) j =>
              let '(bI, bJ, bestD2) := st in
              let dx := x (at_ pts i) - x (at_ pts j) in
              let dy := y (at_ pts i) - y (at_ pts j) in
              let d2 := dx * dx + dy * dy in
              if gtExt d2 bestD2 then (i, j, Fin d2) else st)
           (seq (i + 1) (n - (i + 1))) st)
      (seq 0 n) (0%nat, 1%nat, NegInf) in
  (at_ pts bestI, at_ pts bestJ).

(** A ring info [{ id, ring, area, absArea, centroid }]; its [id] is
    [info_id] here. *)
Record RingInfo : Type := mkRingInfo {
  info_id : string;
  ring : list Point;
  area : Q;
  absArea : Q;
  centroid : Point
}.

(** The output: [rings] in explicit-closure form, each point an [[x, y]]
    pair, and the outer ring as points. *)
Record Rings : Type := mkRings {
  rings : list (list (Q * Q));
  outerRing : list Point
}.

Definition isArray (ps : option (list Point)) : bool :=
  match ps with
  | Some _ => true
  | None => false
  end.

Definition isClosedPolygon (s : Shape) : bool :=
  String.eqb (type s) "polygon" && closed s.

(** Truth value of [selectedId]: [null] and the empty string are falsy. *)
Definition truthy (selectedId : option string) : bool :=
  match selectedId with
  | Some s => negb (String.eqb s EmptyString)
  | None => false
  end.

(** [project.shapes.filter(...)]: the closed polygons with a point array. *)
Definition closedShapes (project : Project) : list Shape :=
  filter (fun s => String.eqb (type s) "polygon" && closed s && isArray (points s))
         (shapes project).

(** [selectedId ? project.getShapeById(selectedId) : null] *)
Definition selectedShape (project : Project) (selectedId : option string)
  : option Shape :=
  match selectedId with
  | Some i => if truthy selectedId then getShapeById project i else None
  | None => None
  end.

Definition ringInfoOf (s : Shape) : Result RingInfo :=
  let* r := ringFromShape s in
  let a := polygonArea r in
  Ok (mkRingInfo (id s) r a (Qabs a) (polygonCentroid r)).

(** The two steps that choose [outer]: the selected closed polygon's
    info when there is one, else the info of largest [absArea].
    [ringInfos[0]] of an empty array is [undefined], whose [id] cannot
    be read. *)
Definition chooseOuter (selected : option Shape) (ringInfos : list RingInfo)
  : Result RingInfo :=
  let outer :=
    match selected with
    | Some sel =>
        if isClosedPolygon sel
        then find (fun r => String.eqb (info_id r) (id sel)) ringInfos
        else None
    | None => None
    end in
  match outer with
  | Some o => Ok o
  | None =>
      match ringInfos with
      | [] => Throw msgTypeError
      | first :: _ =>
          Ok (fold_left (fun a b => if absArea b >? absArea a then b else a)
                        ringInfos first)
      end
  end.

(** The loop that sorts the other rings into [holes] and [outsiders]. *)
Definition classifyStep (outer : RingInfo)
  (st : list RingInfo * list RingInfo) (info : RingInfo)
  : list RingInfo * list RingInfo :=
  let '(holes, outsiders) := st in
  if String.eqb (info_id info) (info_id outer) then st
  else if pointInPolygon (centroid info) (ring outer)
       then (holes ++ [info], outsiders)
       else (holes, outsiders ++ [info]).

Definition classify (outer : RingInfo) (ringInfos : list RingInfo)
  : list RingInfo * list RingInfo :=
  fold_left (classifyStep outer) ringInfos ([], []).

(** A ring as [[x, y]] pairs with its first vertex pushed again at the
    end; [r[0]] of an empty ring is [undefined]. *)
Definition closeRing (r : list Point) : Result (list (Q * Q)) :=
  let arr := map (fun p => (x p, y p)) r in
  match r with
  | [] => Throw msgTypeError
  | r0 :: _ => Ok (arr ++ [(x r0, y r0)])
  end.

Definition buildRingsFromProject (project : Project) (selectedId : option string)
  : Result Rings :=
  let closedL := closedShapes project in
  if (List.length closedL =? 0)%nat then Throw msgNoClosedPolygon
  else
    let selected := selectedShape project selectedId in
    if truthy selectedId &&
       match selected with
       | Some sel => negb (isClosedPolygon sel)
       | None => false
       end
    then Throw msgSelectedNotClosed
    else
      let* ringInfos := mapM ringInfoOf closedL in
      let* outer := chooseOuter selected ringInfos in
      let '(holes, outsiders) := classify outer ringInfos in
      if (0 <? List.length outsiders)%nat
      then Throw (msgMultipleOuter (List.length outsiders))
      else
        let outerCCW := ensureCCW (ring outer) in
        let holeRings := map (fun h => ensureCW (ring h)) holes in
        let* rs := mapM closeRing (outerCCW :: holeRings) in
        Ok (mkRings rs outerCCW).

(** ** Skeleton *)

(** A skeleton vertex [[x, y, t]]. *)
Definition Vertex : Type := (Q * Q * Q)%type.

Definition c0 (v : Vertex) : Q := fst (fst v).
Definition c1 (v : Vertex) : Q := snd (fst v).
Definition c2 (v : Vertex) : Q := snd v.

Record Skeleton : Type := mkSkeleton {
  vertices : list Vertex;
  polygons : list (list nat)
}.

(** ** Mountain creases: interior edges *)

(** A [Map] from string keys to counts, in insertion order. *)
Definition EdgeMap : Type := list (string * nat).

Fixpoint mapGet (key : string) (m : EdgeMap) : option nat :=
  match m with
  | [] => None
  | (k, c) :: m' => if String.eqb k key then Some c else mapGet key m'
  end.

(** [m.set(key, c)]: an existing key keeps its place, a new one goes last. *)
Fixpoint mapSet (key : string) (c : nat) (m : EdgeMap) : EdgeMap :=
  match m with
  | [] => [(key, c)]
  | (k, c') :: m' =>
      if String.eqb k key then (k, c) :: m' else (k, c') :: mapSet key c m'
  end.

(** [s.split(sep)] for a one-character separator. *)
Fixpoint split (sep : ascii) (s : string) : list string :=
  match s with
  | EmptyString => [EmptyString]
  | String c s' =>
      if Ascii.eqb c sep then EmptyString :: split sep s'
      else
        match split sep s' with
        | [] => [String c EmptyString]
        | h :: t => String c h :: t
        end
  end.

Definition edgeKey (i0 i1 : nat) : string :=
  (natToString i0 ++ "|" ++ natToString i1)%string.

(** [poly[i]] *)
Definition idx (poly : list nat) (i : nat) : nat := nth i poly 0%nat.

Definition countStep (poly : list nat) (edgeCount : EdgeMap) (i : nat) : EdgeMap :=
  let a := idx poly i in
  let b := idx poly ((i + 1) mod List.length poly) in
  if (a =? b)%nat then edgeCount
  else
    let i0 := Nat.min a b in
    let i1 := Nat.max a b in
    let key := edgeKey i0 i1 in
    mapSet key
      (match mapGet key edgeCount with Some c => c | None => 0 end + 1)%nat
      edgeCount.

Definition countEdges (polys : list (list nat)) : EdgeMap :=
  fold_left
    (fun edgeCount poly =>
       fold_left (countStep poly) (seq 0 (List.length poly)) edgeCount)
    polys [].

Record Edge : Type := mkEdge { i0 : nat; i1 : nat }.

(** [Number] of a destructured part that may be [undefined]. *)
Definition numberOf (part : option string) : option nat :=
  match part with
  | Some s => Number s
  | None => None
  end.

(** [skeleton.vertices[i]], where [i] may be [NaN]. *)
Definition vertexAt (vs : list Vertex) (i : option nat) : option Vertex :=
  match i with
  | Some n => nth_error vs n
  | None => None
  end.

(** The body of the second loop: the edge pushed for an entry, if any. *)
Definition edgeOfEntry (vs : list Vertex) (entry : string * nat) : option Edge :=
  let '(key, count) := entry in
  if (count <? 2)%nat then None
  else
    let parts := split "|" key in
    let n0 := numberOf (nth_error parts 0) in
    let n1 := numberOf (nth_error parts 1) in
    match vertexAt vs n0, vertexAt vs n1, n0, n1 with
    | Some v0, Some v1, Some k0, Some k1 =>
        let dx := c0 v0 - c0 v1 in
        let dy := c1 v0 - c1 v1 in
        if dx * dx + dy * dy <? 0.0000000001 then None
        else Some (mkEdge k0 k1)
    | _, _, _, _ => None
    end.

Definition extractInteriorEdgesFromSkeleton (skeleton : Skeleton) : list Edge :=
  let edgeCount := countEdges (polygons skeleton) in
  fold_left
    (fun edges entry =>
       match edgeOfEntry (vertices skeleton) entry with
       | Some e => edges ++ [e]
       | None => edges
       end)
    edgeCount [].

(** ** Valley creases: perpendiculars of the faces *)

Inductive Kind : Type := M | V.

Record Crease : Type := mkCrease {
  seg_a : Point;
  seg_b : Point;
  kind : Kind;
  source : string
}.

(** A face vertex [{ i, x, y, t }]. *)
Record FaceVertex : Type := mkFaceVertex { fi : nat; fx : Q; fy : Q; ft : Q }.

(** [verts[i]] is [undefined] out of range, and reading [verts[i][0]]
    throws. *)
Definition faceVertex (verts : list Vertex) (i : nat) : Result FaceVertex :=
  match nth_error verts i with
  | Some v => Ok (mkFaceVertex i (c0 v) (c1 v) (c2 v))
  | None => Throw msgTypeError
  end.

Record Viewport : Type := mkViewport { w : Q; h : Q }.

Record Line : Type := mkLine { line_a : Point; line_b : Point }.

Record ResultBundle : Type := mkResultBundle {
  res_rings : list (list (Q * Q));
  res_skeleton : Skeleton;
  creases : list Crease;
  cutLine : Line
}.

Section WithSqrt.
(** [Math.sqrt] *)
Variable sqrt : Q -> Q.

(** The search of the nearest hit of the ray on the face boundary. *)
Definition bestStep (p dir : Point) (face2D : list Point)
  (best : option Hit) (i : nat) : option Hit :=
  let a := at_ face2D i in
  let b := at_ face2D ((i + 1) mod List.length face2D) in
  match lineRaySegmentIntersection p dir a b 0.000000001 with
  | None => best
  | Some hit =>
      if ht hit <=? 0.000001 then best
      else
        match best with
        | None => Some hit
        | Some bst => if ht hit <? ht bst then Some hit else best
        end
  end.

(** The segment derived from the face vertex [v], from the test on its
    time down to [const q = best.p]; [None] where the loop continues. *)
Definition perpendicularOf (face2D : list Point) (e0 d : Point) (v : FaceVertex)
  : option (Point * Point) :=
  if ft v <=? EPS_TIME then None
  else
    let p := pt (fx v) (fy v) in
    let foot := add e0 (mul d (dot (sub p e0) d)) in
    let dir := normalize sqrt (sub foot p) in
    if Qeq_bool (x dir) 0 && Qeq_bool (y dir) 0 then None
    else
      match fold_left (bestStep p dir face2D) (seq 0 (List.length face2D)) None with
      | None => None
      | Some best => Some (p, hp best)
      end.

(** The rest of the inner loop: the key, the [seen] set, the push. *)
Definition perpStep (face2D : list Point) (e0 d : Point)
  (st : list Crease * list string) (v : FaceVertex)
  : list Crease * list string :=
  let '(creases, seen) := st in
  match perpendicularOf face2D e0 d v with
  | None => st
  | Some (p, q) =>
      let key := keyForUndirectedEdge p q 0.01 in
      if existsb (String.eqb key) seen then st
      else (creases ++ [mkCrease p q V "perp"], key :: seen)
  end.

(** The body of the loop over the faces. *)
Definition faceStep (verts : list Vertex) (st : list Crease * list string)
  (poly : list nat) : Result (list Crease * list string) :=
  let* face := mapM (faceVertex verts) poly in
  let boundaryPts :=
    map (fun v => pt (fx v) (fy v))
        (filter (fun v => Qabs (ft v) <=? EPS_TIME) face) in
  if (List.length boundaryPts <? 2)%nat then Ok st
  else
    let '(e0, e1) := farthestPair boundaryPts in
    let d := normalize sqrt (sub e1 e0) in
    if Qeq_bool (x d) 0 && Qeq_bool (y d) 0 then Ok st
    else
      let face2D := map (fun v => pt (fx v) (fy v)) face in
      Ok (fold_left (perpStep face2D e0 d) face st).

Definition buildPerpendicularsFromFaces (skeleton : Skeleton)
  : Result (list Crease) :=
  let* st := foldM (faceStep (vertices skeleton)) (polygons skeleton) ([], []) in
  Ok (fst st).

(** ** The engine *)

(** The external solver [SkeletonBuilder.buildFromPolygon]; [None] is a
    falsy result. *)
Variable buildFromPolygon : list (list (Q * Q)) -> option Skeleton.

(** The Mountain crease of an interior edge. *)
Definition mountainOf (skeleton : Skeleton) (e : Edge) : Result Crease :=
  match nth_error (vertices skeleton) (i0 e), nth_error (vertices skeleton) (i1 e) with
  | Some v0, Some v1 =>
      Ok (mkCrease (pt (c0 v0) (c1 v0)) (pt (c0 v1) (c1 v1)) M "skeleton")
  | _, _ => Throw msgTypeError
  end.

Definition cutLineOf (skeleton : Skeleton) (viewport : Viewport) : Line :=
  let allPts := map (fun v => pt (c0 v) (c1 v)) (vertices skeleton) in
  let bb := bboxOfPoints allPts in
  let cy := (minY bb + maxY bb) / 2 in
  mkLine (pt 0 cy) (pt (w viewport) cy).

Definition run (project : Project) (selectedId : option string)
  (viewport : Viewport) : Result ResultBundle :=
  let* built := buildRingsFromProject project selectedId in
  match buildFromPolygon (rings built) with
  | None => Throw msgSkeletonFailed
  | Some skeleton =>
      let interiorEdges := extractInteriorEdgesFromSkeleton skeleton in
      let* mountains := mapM (mountainOf skeleton) interiorEdges in
      let* perps := buildPerpendicularsFromFaces skeleton in
      let creases := (mountains ++ perps)%list in
      Ok (mkResultBundle (rings built) skeleton creases
                         (cutLineOf skeleton viewport))
  end.
End WithSqrt.

(** [FoldAndCutEngine.run] from its first statement on.  [load] is the
    outcome of [await StraightSkeletonService.load()]: the error the
    loader rejects with (a failed import, or a module without
    [SkeletonBuilder]), or the [buildFromPolygon] of the library it
    resolves to, a foreign function whose call may itself throw.  [run]
    above is the run of a loader that resolves to a builder that does
    not throw. *)
Definition runLoaded (sqrt : Q -> Q)
  (load : Result (list (list (Q * Q)) -> Result (option Skeleton)))
  (project : Project) (selectedId : option string) (viewport : Viewport)
  : Result ResultBundle :=
  let* buildFromPolygon := load in
  let* built := buildRingsFromProject project selectedId in
  let* found := buildFromPolygon (rings built) in
  match found with
  | None => Throw msgSkeletonFailed
  | Some skeleton =>
      let interiorEdges := extractInteriorEdgesFromSkeleton skeleton in
      let* mountains := mapM (mountainOf skeleton) interiorEdges in
      let* perps := buildPerpendicularsFromFaces sqrt skeleton in
      let creases := (mountains ++ perps)%list in
      Ok (mkResultBundle (rings built) skeleton creases
                         (cutLineOf skeleton viewport))
  end.

End Engine.

(** * Auxiliary definitions

    Definitions the statements and proofs below use; none of them is
    code of the repository. *)

Import Utils Models Engine.

(** Sum of a list of numbers. *)
Definition Qsum (l : list Q) : Q := fold_right Qplus 0 l.

(** The term an edge from [p] to [q] adds to twice the signed area. *)
Definition shoelace (p q : Point) : Q := x p * y q - x q * y p.

(** Sum of the shoelace terms along an open path. *)
Fixpoint pathsum (l : list Point) : Q :=
  match l with
  | p :: ((q :: _) as t) => shoelace p q + pathsum t
  | _ => 0
  end.

(** A square root of the rationals that is exact on the squares of
    rationals: the value of [Math.sqrt] at every argument the worked
    examples below reach. *)
Definition Qsqrt (v : Q) : Q :=
  let r := Qred v in
  Qmake (Z.sqrt (Qnum r)) (Pos.sqrt (Qden r)).

(** The 100 x 100 square as the only shape, and its straight skeleton:
    the four corners at time 0, the centre at time 50, one triangular
    face per side. *)
Definition squareShape : Shape :=
  mkShape "shape_sq" "polygon" true
          (Some [pt 0 0; pt 100 0; pt 100 100; pt 0 100]).

Definition squareProject : Project := mkProject [squareShape].

Definition squareSkeleton : Skeleton :=
  mkSkeleton [(0, 0, 0); (100, 0, 0); (100, 100, 0); (0, 100, 0); (50, 50, 50)]
             [[0; 1; 4]; [1; 2; 4]; [2; 3; 4]; [3; 0; 4]]%nat.

Definition squareSolver (_ : list (list (Q * Q))) : option Skeleton :=
  Some squareSkeleton.

Definition squareViewport : Viewport := mkViewport 1000 700.

(** The bundle that run returns. *)
Definition squareBundle : ResultBundle :=
  Eval vm_compute in
    match run Qsqrt squareSolver squareProject None squareViewport with
    | Ok b => b
    | Throw _ => mkResultBundle [] (mkSkeleton [] []) [] (mkLine (pt 0 0) (pt 0 0))
    end.

(** Two points within 1e-9 of each other in both coordinates. *)
Definition nearPoint (prev p : Point) : bool :=
  (Qabs (x prev - x p) <=? 0.000000001) && (Qabs (y prev - y p) <=? 0.000000001).

(** The collapse of consecutive near-duplicates as the spec words it:
    a point is dropped when it is near the point kept before it. *)
Fixpoint collapseFrom (prev : Point) (l : list Point) : list Point :=
  match l with
  | [] => []
  | p :: l' =>
      if nearPoint prev p then collapseFrom prev l'
      else p :: collapseFrom p l'
  end.

Definition collapse (l : list Point) : list Point :=
  match l with
  | [] => []
  | p :: l' => p :: collapseFrom p l'
  end.

(** Two closed shapes, of different names, that collapse to two points. *)
Definition flatShapeA : Shape :=
  mkShape "shape_a" "polygon" true (Some [pt 0 0; pt 0 0; pt 10 0; pt 10 0]).

Definition flatShapeB : Shape :=
  mkShape "shape_b" "polygon" true (Some [pt 0 0; pt 0 0; pt 10 0; pt 10 0]).

(** A triangle, used where a ring conversion has to succeed. *)
Definition triangleShape : Shape :=
  mkShape "shape_t" "polygon" true (Some [pt 0 0; pt 0 0; pt 10 0; pt 0 10]).

(** A ring info of largest absolute area among [infos]. *)
Definition maxAbsArea (info : RingInfo) (infos : list RingInfo) : Prop :=
  In info infos /\ forall r, In r infos -> absArea r <= absArea info.

(** A scene with a closed square and an open polyline. *)
Definition openShape : Shape :=
  mkShape "shape_open" "polyline" false (Some [pt 0 0; pt 5 5; pt 9 0]).

Definition mixedProject : Project := mkProject [squareShape; openShape].

(** A scene with the square and a triangle inside it. *)
Definition innerTriangle : Shape :=
  mkShape "shape_in" "polygon" true (Some [pt 20 20; pt 40 20; pt 30 40]).

Definition nestedProject : Project := mkProject [squareShape; innerTriangle].

Definition nestedInfos : list RingInfo :=
  Eval vm_compute in
    match mapM ringInfoOf (closedShapes nestedProject) with
    | Ok infos => infos
    | Throw _ => []
    end.

(** A scene with two disjoint closed squares. *)
Definition farSquare : Shape :=
  mkShape "shape_far" "polygon" true
          (Some [pt 200 0; pt 250 0; pt 250 50; pt 200 50]).




(** A ring info "other than the outer": the loop tells them apart by name. *)
Definition otherThan (outer info : RingInfo) : bool :=
  negb (String.eqb (info_id info) (info_id outer)).

(** The centroid of [info] lies inside the ring of [outer]. *)
Definition centroidInside (outer info : RingInfo) : bool :=
  pointInPolygon (centroid info) (ring outer).

(** A point as the [[x, y]] pair of the output, and back. *)
Definition toPair (p : Point) : Q * Q := (x p, y p).


(** Equality of undirected pairs and of edges is decidable. *)
Definition pair_eq_dec (e1 e2 : nat * nat) : {e1 = e2} + {e1 <> e2}.
Proof. decide equality; apply Nat.eq_dec. Defined.

Definition Edge_eq_dec (e1 e2 : Edge) : {e1 = e2} + {e1 <> e2}.
Proof. decide equality; apply Nat.eq_dec. Defined.

(** The undirected pairs, as (smaller, larger) index, that the cycle of a
    face traverses, one per step of the cycle; a step from a vertex to
    itself is no edge. *)
Definition cycleEdges (poly : list nat) : list (nat * nat) :=
  flat_map
    (fun i =>
       let a := idx poly i in
       let b := idx poly ((i + 1) mod List.length poly) in
       if (a =? b)%nat then [] else [(Nat.min a b, Nat.max a b)])
    (seq 0 (List.length poly)).

Definition allEdges (polys : list (list nat)) : list (nat * nat) :=
  flat_map cycleEdges polys.

(** How often the cycles of all faces traverse the pair [e]. *)
Definition references (polys : list (list nat)) (e : nat * nat) : nat :=
  count_occ pair_eq_dec (allEdges polys) e.

(** How many faces have the pair [e] in their cycle. *)
Definition facesWith (polys : list (list nat)) (e : nat * nat) : nat :=
  List.length
    (filter (fun poly => if in_dec pair_eq_dec e (cycleEdges poly) then true else false)
            polys).

(** Both indices name a vertex and the two vertices are not degenerate:
    their squared distance is at least 1e-10. *)
Definition separated (vs : list Vertex) (a b : nat) : bool :=
  match nth_error vs a, nth_error vs b with
  | Some v0, Some v1 =>
      negb ((c0 v0 - c0 v1) * (c0 v0 - c0 v1) + (c1 v0 - c1 v1) * (c1 v0 - c1 v1)
            <? 0.0000000001)
  | _, _ => false
  end.

(** One more reference to the pair [e] in the map of counts. *)
Definition tallyStep (m : EdgeMap) (e : nat * nat) : EdgeMap :=
  let key := edgeKey (fst e) (snd e) in
  mapSet key (match mapGet key m with Some c => c | None => 0 end + 1)%nat m.

(** A string without the character [sep]. *)
Fixpoint noSep (sep : ascii) (s : string) : bool :=
  match s with
  | EmptyString => true
  | String c s' => negb (Ascii.eqb c sep) && noSep sep s'
  end.

(** The edges pushed for one entry of the map: one or none. *)
Definition edgesOfEntry (vs : list Vertex) (entry : string * nat) : list Edge :=
  match edgeOfEntry vs entry with
  | Some e => [e]
  | None => []
  end.


(** Two triangular faces that share the edge between vertices 0 and 1. *)
Definition kiteSkeleton : Skeleton :=
  mkSkeleton [(0, 0, 0); (10, 0, 0); (5, 5, 5); (5, -5, 5)]
             [[0; 1; 2]; [1; 0; 3]]%nat.

(** A derived perpendicular segment: the face vertex and the hit of its
    ray. *)
Definition Segment : Type := (Point * Point)%type.

Definition optionList {A : Type} (o : option A) : list A :=
  match o with
  | Some a => [a]
  | None => []
  end.

Section Derived.
Variable sqrt : Q -> Q.

(** The segments derived from one face, in the order of its vertices,
    before any deduplication. *)
Definition faceSegments (verts : list Vertex) (poly : list nat)
  : Result (list Segment) :=
  let* face := mapM (faceVertex verts) poly in
  let boundaryPts :=
    map (fun v => pt (fx v) (fy v))
        (filter (fun v => Qabs (ft v) <=? EPS_TIME) face) in
  if (List.length boundaryPts <? 2)%nat then Ok []
  else
    let '(e0, e1) := farthestPair boundaryPts in
    let d := normalize sqrt (sub e1 e0) in
    if Qeq_bool (x d) 0 && Qeq_bool (y d) 0 then Ok []
    else
      let face2D := map (fun v => pt (fx v) (fy v)) face in
      Ok (flat_map (fun v => optionList (perpendicularOf sqrt face2D e0 d v)) face).

(** The derived perpendicular segments of a skeleton, face after face. *)
Definition derivedSegments (skeleton : Skeleton) : Result (list Segment) :=
  let* perFace := mapM (faceSegments (vertices skeleton)) (polygons skeleton) in
  Ok (List.concat perFace).
End Derived.

(** The deduplication key of a segment and of a crease. *)
Definition segKey (s : Segment) : string :=
  keyForUndirectedEdge (fst s) (snd s) 0.01.

Definition creaseKey (c : Crease) : string :=
  keyForUndirectedEdge (seg_a c) (seg_b c) 0.01.

(** One round of the [seen] test on a derived segment. *)
Definition keepNew (st : list Crease * list string) (s : Segment)
  : list Crease * list string :=
  let '(creases, seen) := st in
  let key := segKey s in
  if existsb (String.eqb key) seen then st
  else (creases ++ [mkCrease (fst s) (snd s) V "perp"], key :: seen).

(** Two points with equal coordinates. *)
Definition samePoint (p q : Point) : Prop := x p == x q /\ y p == y q.

(** Two points that quantize, at tolerance 1e-2, to the same grid point. *)
Definition sameCell (p q : Point) : Prop :=
  samePoint (quantizePoint p 0.01) (quantizePoint q 0.01).

(** Two segments whose endpoints quantize to the same grid points, in
    the same or in the opposite direction. *)
Definition sameCells (s1 s2 : Segment) : Prop :=
  (sameCell (fst s1) (fst s2) /\ sameCell (snd s1) (snd s2)) \/
  (sameCell (fst s1) (snd s2) /\ sameCell (snd s1) (fst s2)).

(** Two points less than 1e-2 apart in both coordinates. *)
Definition closeBy (p q : Point) : Prop :=
  Qabs (x p - x q) < 0.01 /\ Qabs (y p - y q) < 0.01.

(** The text of a quantized point in the key. *)
Definition pointKey (P : Point) : string :=
  (numToString (x P) ++ "," ++ numToString (y P))%string.

(** The skeleton of the rectangle from (0.004, 0) to (10.006, 10): four
    corners, a ridge from (5.004, 5) to (5.006, 5), two trapezoid and
    two triangle faces. *)
Definition ridgeSkeleton : Skeleton :=
  mkSkeleton
    [(0.004, 0, 0); (10.006, 0, 0); (10.006, 10, 0); (0.004, 10, 0);
     (5.004, 5, 5); (5.006, 5, 5)]
    [[0; 1; 5; 4]; [1; 2; 5]; [2; 3; 4; 5]; [3; 0; 4]]%nat.

(** The bottom face of the rectangle from (0, 0) to (10.002, 10), whose
    ridge runs from (5, 5) to (5.002, 5). *)
Definition snugSkeleton : Skeleton :=
  mkSkeleton [(0, 0, 0); (10.002, 0, 0); (5.002, 5, 5); (5, 5, 5)]
             [[0; 1; 2; 3]%nat].

(** Its two derived segments, from the two ends of the ridge. *)
Definition snugSegments : list Segment :=
  Eval vm_compute in
    match derivedSegments Qsqrt snugSkeleton with
    | Ok segs => segs
    | Throw _ => []
    end.

Definition snugFirst : Segment := nth 0 snugSegments (pt 0 0, pt 0 0).
Definition snugSecond : Segment := nth 1 snugSegments (pt 0 0, pt 0 0).

(** What the loop maintains: [seen] holds the keys of the creases kept,
    each once. *)
Definition seenInvariant (st : list Crease * list string) : Prop :=
  NoDup (map creaseKey (fst st)) /\
  forall k, In k (snd st) <-> In k (map creaseKey (fst st)).

(** The test of one edge in the loop of [pointInPolygon]: the ray from
    [p] to the right crosses the edge between [a] and [b]. *)
Definition crossesRay (p a b : Point) : bool :=
  negb (Bool.eqb (y a >? y p) (y b >? y p)) &&
  (x p <? (x b - x a) * (y p - y a) / (y b - y a + 0) + x a).

(** The body of that loop. *)
Definition rayStep (p : Point) (poly : list Point) (st : bool * nat) (i : nat)
  : bool * nat :=
  ((if crossesRay p (at_ poly i) (at_ poly (snd st)) then negb (fst st) else fst st), i).

(** The body of the inner loop of [farthestPair], on the pair of
    indices it visits. *)
Definition pairStep (pts : list Point) (st : nat * nat * Ext) (ij : nat * nat)
  : nat * nat * Ext :=
  let '(bI, bJ, bestD2) := st in
  let dx := x (at_ pts (fst ij)) - x (at_ pts (snd ij)) in
  let dy := y (at_ pts (fst ij)) - y (at_ pts (snd ij)) in
  let d2 := dx * dx + dy * dy in
  if gtExt d2 bestD2 then (fst ij, snd ij, Fin d2) else st.

(** The pairs of indices [i < j < n] in the order the two loops visit
    them. *)
Definition indexPairs (n : nat) : list (nat * nat) :=
  flat_map (fun i => map (pair i) (seq (i + 1) (n - (i + 1)))) (seq 0 n).

(** [v <= m] for a running maximum [m] that starts at [-Infinity]. *)
Definition leExt (v : Q) (m : Ext) : Prop :=
  match m with
  | Fin a => v <= a
  | PosInf => True
  | NegInf => False
  end.

(** The Mountain creases of a skeleton, as the engine lists them. *)
Definition mountainCreases (skeleton : Skeleton) : list Crease :=
  match mapM (mountainOf skeleton) (extractInteriorEdgesFromSkeleton skeleton) with
  | Ok mountains => mountains
  | Throw _ => []
  end.

(** A crease that starts at a skeleton vertex raised above time
    [EPS_TIME]. *)
Definition startsAtRaisedVertex (verts : list Vertex) (c : Crease) : Prop :=
  exists v, In v verts /\ EPS_TIME < c2 v /\ seg_a c = pt (c0 v) (c1 v).

(** A list without the first element that satisfies [p]. *)
Fixpoint dropFirst {A : Type} (p : A -> bool) (l : list A) : list A :=
  match l with
  | [] => []
  | a :: l' => if p a then l' else a :: dropFirst p l'
  end.

(** A polyline shape as its constructor builds it: a point array, and
    the type that goes with the closed flag. *)
Definition wellFormedShape (s : Shape) : Prop :=
  (exists ps, points s = Some ps) /\
  type s = (if closed s then "polygon" else "polyline")%string.

(** The squared distance from [p] to the vertex of index [i], and the
    test that it is within [eps]. *)
Definition vertexD2 (ps : list Point) (p : Point) (i : nat) : Q := dist2 p (at_ ps i).

Definition vertexWithin (ps : list Point) (p : Point) (eps : Q) (i : nat) : bool :=
  vertexD2 ps p i <=? eps * eps.

(** The body of the loop of [nearestVertex]. *)
Definition nearestStep (ps : list Point) (p : Point) (eps : Q) (st : Z * Ext) (i : nat)
  : Z * Ext :=
  if (dist2 p (at_ ps i) <=? eps * eps) && ltExt (dist2 p (at_ ps i)) (snd st)
  then (Z.of_nat i, Fin (dist2 p (at_ ps i)))
  else st.

(** ** Binary64 values

    A float up to the sign of a zero: the two zeros compare equal, and
    arithmetic may return either. *)
Definition unsign (v : SpecFloat.spec_float) : SpecFloat.spec_float :=
  match v with
  | SpecFloat.S754_zero _ => SpecFloat.S754_zero false
  | _ => v
  end.

Definition same (u v : SpecFloat.spec_float) : Prop := unsign u = unsign v.

(** The rational a finite float stands for; [0] for the others. *)
Definition toQ (v : PrimFloat.float) : Q :=
  match FloatOps.Prim2SF v with
  | SpecFloat.S754_finite s m e =>
      (if s then - inject_Z (Zpos m) else inject_Z (Zpos m)) * Qpower 2 e
  | _ => 0
  end.

Definition toQPoint (p : Binary64.Point) : Point :=
  pt (toQ (Binary64.x p)) (toQ (Binary64.y p)).

(** A polygon that turns left at every vertex, in exact arithmetic: it
    is convex, counter-clockwise and does not repeat a vertex. *)
Definition strictlyConvex (ps : list Point) : bool :=
  let n := List.length ps in
  forallb
    (fun i => 0 <? orient (at_ ps i) (at_ ps ((i + 1) mod n)) (at_ ps ((i + 2) mod n)))
    (seq 0 n).

Section Binary64Examples.
Import PrimFloat.
#[local] Set Warnings "-inexact-float".

(** A thin kite around the line [x = 4096]: its abscissas are [4096],
    the float before it, the float after it and the second float
    before it. *)
Definition kite : list Binary64.Point :=
  [Binary64.pt 4095.9999999999995 27007; Binary64.pt 4096 59227;
   Binary64.pt 4096.000000000001 128051; Binary64.pt 4095.999999999999 28099]%float.

(** [1e-9] *)
Definition eps9 : float := 0.000000001%float.
End Binary64Examples.

(** The commands of a session in the order they were executed: the undo
    stack, then the redo stack from its top. *)
Definition timeline {Cmd : Type} (m : History.UndoManager Cmd) : list Cmd :=
  History.undoStack Cmd m ++ rev (History.redoStack Cmd m).

(** * Properties *)

(** ** Comparisons *)

Lemma Qltb_lt (a b : Q) : (a <? b) = true <-> a < b.
Proof.
  unfold Qltb. rewrite negb_true_iff.
  split; intro H.
  - apply Qnot_le_lt. intro Hle. apply Qle_bool_iff in Hle. congruence.
  - destruct (Qle_bool b a) eqn:E; [|reflexivity].
    apply Qle_bool_iff in E. exfalso. apply (Qlt_not_le _ _ H E).
Qed.

Lemma Qltb_ge (a b : Q) : (a <? b) = false <-> b <= a.
Proof.
  unfold Qltb. rewrite negb_false_iff. apply Qle_bool_iff.
Qed.

Lemma Qleb_le (a b : Q) : (a <=? b) = true <-> a <= b.
Proof. apply Qle_bool_iff. Qed.

Lemma Qleb_gt (a b : Q) : (a <=? b) = false <-> b < a.
Proof.
  rewrite <- Qltb_lt. unfold Qltb.
  destruct (a <=? b); simpl; split; congruence.
Qed.

Lemma Qgtb_gt (a b : Q) : (a >? b) = true <-> b < a.
Proof. apply Qltb_lt. Qed.

Lemma Qgtb_le (a b : Q) : (a >? b) = false <-> a <= b.
Proof. apply Qltb_ge. Qed.

Lemma Qgeb_ge (a b : Q) : (a >=? b) = true <-> b <= a.
Proof. apply Qle_bool_iff. Qed.

Lemma Qgeb_lt (a b : Q) : (a >=? b) = false <-> a < b.
Proof. apply Qleb_gt. Qed.

(** Turns every boolean comparison of the context and goal, once its
    value is known, into the order fact it stands for. *)
Ltac order_facts :=
  repeat match goal with
  | H : (_ <? _) = true |- _ => apply Qltb_lt in H
  | H : (_ <? _) = false |- _ => apply Qltb_ge in H
  | H : (_ <=? _) = true |- _ => apply Qleb_le in H
  | H : (_ <=? _) = false |- _ => apply Qleb_gt in H
  | H : (_ >? _) = true |- _ => apply Qgtb_gt in H
  | H : (_ >? _) = false |- _ => apply Qgtb_le in H
  | H : (_ >=? _) = true |- _ => apply Qgeb_ge in H
  | H : (_ >=? _) = false |- _ => apply Qgeb_lt in H
  end.



(** ** The square root of the examples *)

Lemma Pos_sqrt_square (d : positive) : Pos.sqrt (d * d) = d.
Proof.
  apply Pos2Z.inj. rewrite Pos2Z.inj_sqrt, Pos2Z.inj_mul.
  apply Z.sqrt_square. lia.
Qed.

Lemma Z_sqrt_square_abs (n : Z) : Z.sqrt (n * n) = Z.abs n.
Proof.
  rewrite <- (Z.abs_square n). apply Z.sqrt_square. lia.
Qed.

(** [Qsqrt] is the exact square root on the squares of rationals. *)
Lemma Qsqrt_square (r : Q) : Qsqrt (r * r) == Qabs r.
Proof.
  unfold Qsqrt.
  assert (E : Qred (r * r) = Qred r * Qred r).
  { rewrite (Qred_complete (r * r) (Qred r * Qred r))
      by (now rewrite !Qred_correct).
    apply Qcanon.Qred_identity.
    pose proof (gcd_Qred r) as Hg. destruct (Qred r) as [n d]. cbn in *.
    rewrite Pos2Z.inj_mul.
    change (Z.coprime (n * n) (Z.pos d * Z.pos d)).
    change (Z.coprime n (Z.pos d)) in Hg.
    apply Z.coprime_mul_l; apply Z.coprime_mul_r; assumption. }
  rewrite E. transitivity (Qabs (Qred r)); [|apply Qabs_wd, Qred_correct].
  destruct (Qred r) as [n d]. cbn [Qmult Qnum Qden].
  rewrite Pos_sqrt_square, Z_sqrt_square_abs. apply Zabs_Qabs.
Qed.

(** ** Nearest point of a segment *)



(** The degenerate segment [a = b]: the nearest point is [a] itself. *)
Lemma nearestPointOnSegment_degenerate (p a : Point) :
  nt (nearestPointOnSegment p a a) == 0 /\
  x (nq (nearestPointOnSegment p a a)) == x a /\
  y (nq (nearestPointOnSegment p a a)) == y a.
Proof.
  unfold nearestPointOnSegment. cbn [nt nq].
  assert (Hd : dot (sub p a) (sub a a) / (len2 (sub a a) + 0.000000000001) == 0).
  { unfold dot, sub, len2. cbn [x y]. field. intro H. ring_simplify in H. lra. }
  assert (Ht : clamp (dot (sub p a) (sub a a) / (len2 (sub a a) + 0.000000000001)) 0 1 == 0).
  { unfold clamp. rewrite Hd.
    rewrite (Q.min_r 1 0) by lra. apply Q.max_l. lra. }
  split; [exact Ht|].
  unfold add, mul, sub. cbn [x y]. rewrite Ht. split; ring.
Qed.

(** ** Ray against segment *)

Lemma Qdiv_solve (n d : Q) : ~ d == 0 -> (n / d) * d == n.
Proof. intro H. field. exact H. Qed.

(** The exact reading of the ray test: with epsilon 1e-9 there is no hit
    exactly when [|cross v (b - a)| <= eps], or [t < -eps], or
    [u < -eps], or [u > 1 + eps]; a hit carries [t], [u] and the point
    [p + t v], and over the rationals the two quotients solve
    [p + t v = a + u (b - a)] exactly.  The last part is a fact of exact
    arithmetic: the binary64 quotients solve the system up to rounding
    only. *)
Theorem lineRaySegmentIntersection_exact (p v a b : Point) :
  let eps := 0.000000001 in
  let wv := sub b a in
  let denom := cross v wv in
  let t := cross (sub a p) wv / denom in
  let u := cross (sub a p) v / denom in
  let miss := Qabs denom <= eps \/ t < - eps \/ u < - eps \/ 1 + eps < u in
  match lineRaySegmentIntersection p v a b eps with
  | None => miss
  | Some hit =>
      ~ miss /\
      hit = mkHit t u (add p (mul v t)) /\
      - eps <= t /\ - eps <= u <= 1 + eps /\
      x p + t * x v == x a + u * x wv /\
      y p + t * y v == y a + u * y wv
  end.
Proof.
  cbv zeta. unfold lineRaySegmentIntersection.
  set (denom := cross v (sub b a)).
  set (t := cross (sub a p) (sub b a) / denom).
  set (u := cross (sub a p) v / denom).
  destruct (Qabs denom <=? 0.000000001) eqn:Hd.
  - left. now apply Qleb_le.
  - destruct (t >=? _) eqn:Ht; cbn [andb].
    + destruct (u >=? _) eqn:Hu1; cbn [andb].
      * destruct (u <=? _) eqn:Hu2.
        -- cbv beta iota. order_facts.
           assert (Hnz : ~ denom == 0).
           { intro Hz. rewrite Hz in Hd. cbn in Hd. lra. }
           split; [|split; [reflexivity|split; [exact Ht|split; [split; assumption|]]]].
           ++ intros [H|[H|[H|H]]]; lra.
           ++ pose proof (Qdiv_solve (cross (sub a p) (sub b a)) denom Hnz) as Et.
              pose proof (Qdiv_solve (cross (sub a p) v) denom Hnz) as Eu.
              fold t in Et. fold u in Eu.
              clearbody t u. clear Ht Hu1 Hu2 Hd.
              unfold denom, cross, sub in *. cbn [x y] in *. clear denom.
              set (D := x v * (y b - y a) - y v * (x b - x a)) in *.
              split; apply (Qmult_inj_r _ _ D Hnz).
              ** setoid_replace ((x p + t * x v) * D) with (x p * D + (t * D) * x v) by ring.
                 setoid_replace ((x a + u * (x b - x a)) * D)
                   with (x a * D + (u * D) * (x b - x a)) by ring.
                 rewrite Et, Eu. unfold D. ring.
              ** setoid_replace ((y p + t * y v) * D) with (y p * D + (t * D) * y v) by ring.
                 setoid_replace ((y a + u * (y b - y a)) * D)
                   with (y a * D + (u * D) * (y b - y a)) by ring.
                 rewrite Et, Eu. unfold D. ring.
        -- order_facts. right; right; right. exact Hu2.
      * order_facts. right; right; left. exact Hu1.
    + order_facts. right; left. exact Ht.
Qed.

(** ** Signed area and orientation *)

Lemma fold_left_Qsum {A : Type} (f : A -> Q) (l : list A) (acc : Q) :
  fold_left (fun a i => a + f i) l acc == acc + Qsum (map f l).
Proof.
  revert acc. induction l as [|i l IH]; intro acc; simpl.
  - ring.
  - rewrite IH. ring.
Qed.

Lemma Qsum_consecutive (m : list Point) (n : nat) (d : Point) :
  List.length m = S n ->
  Qsum (map (fun i => shoelace (nth i m d) (nth (S i) m d)) (seq 0 n)) == pathsum m.
Proof.
  revert n. induction m as [|p m IH]; intros n Hlen; [discriminate|].
  destruct n as [|n].
  - destruct m; [|discriminate]. simpl. reflexivity.
  - destruct m as [|q m']; [discriminate|].
    injection Hlen as Hlen.
    cbn [seq map Qsum fold_right].
    rewrite <- seq_shift, map_map.
    change (pathsum (p :: q :: m')) with (shoelace p q + pathsum (q :: m')).
    rewrite <- (IH n) by (simpl; congruence).
    reflexivity.
Qed.

Lemma at_cyclic (l : list Point) (i : nat) :
  (i < List.length l)%nat ->
  at_ l i = nth i (l ++ firstn 1 l) (pt 0 0) /\
  at_ l ((i + 1) mod List.length l) = nth (S i) (l ++ firstn 1 l) (pt 0 0).
Proof.
  intro Hi. unfold at_. split.
  - now rewrite app_nth1.
  - destruct (Nat.eq_dec (i + 1) (List.length l)) as [E|E].
    + rewrite E, Nat.Div0.mod_same.
      replace (S i) with (List.length l) by lia.
      rewrite app_nth2, Nat.sub_diag by lia.
      destruct l; [simpl in Hi; lia | reflexivity].
    + rewrite Nat.mod_small by lia.
      replace (i + 1)%nat with (S i) by lia.
      now rewrite app_nth1 by lia.
Qed.

(** The index loop of [polygonArea] sums the shoelace terms around the
    closed path. *)
Lemma polygonArea_pathsum (l : list Point) :
  polygonArea l == pathsum (l ++ firstn 1 l) / 2.
Proof.
  unfold polygonArea.
  destruct l as [|p l'] eqn:El; [reflexivity|]. rewrite <- El.
  apply Qdiv_comp; [|reflexivity].
  rewrite (fold_left_Qsum
             (fun i => x (at_ l i) * y (at_ l ((i + 1) mod List.length l))
                       - x (at_ l ((i + 1) mod List.length l)) * y (at_ l i))).
  rewrite Qplus_0_l.
  rewrite <- (Qsum_consecutive (l ++ firstn 1 l) (List.length l) (pt 0 0)).
  - rewrite (map_ext_in _
               (fun i => shoelace (nth i (l ++ firstn 1 l) (pt 0 0))
                                  (nth (S i) (l ++ firstn 1 l) (pt 0 0)))).
    + reflexivity.
    + intros i Hi. apply in_seq in Hi.
      destruct (at_cyclic l i) as [E1 E2]; [lia|].
      rewrite E1, E2. reflexivity.
  - rewrite length_app. subst l. simpl. lia.
Qed.

Lemma shoelace_antisym (p q : Point) : shoelace p q == - shoelace q p.
Proof. unfold shoelace. ring. Qed.

Lemma shoelace_same (p : Point) : shoelace p p == 0.
Proof. unfold shoelace. ring. Qed.

Lemma pathsum_snoc (l : list Point) (q : Point) :
  pathsum (l ++ [q]) == pathsum l + shoelace (last l q) q.
Proof.
  induction l as [|a l IH].
  - simpl. rewrite shoelace_same. ring.
  - destruct l as [|b t].
    + simpl. ring.
    + change (pathsum ((a :: b :: t) ++ [q]))
        with (shoelace a b + pathsum ((b :: t) ++ [q])).
      rewrite IH.
      change (pathsum (a :: b :: t)) with (shoelace a b + pathsum (b :: t)).
      change (last (a :: b :: t) q) with (last (b :: t) q).
      ring.
Qed.

Lemma last_rev_hd (l : list Point) (d : Point) : last (rev l) d = hd d l.
Proof.
  destruct l as [|a t]; [reflexivity|].
  simpl. apply last_last.
Qed.

Lemma pathsum_rev (l : list Point) : pathsum (rev l) == - pathsum l.
Proof.
  induction l as [|a t IH].
  - simpl. ring.
  - cbn [rev]. rewrite pathsum_snoc, IH, last_rev_hd.
    destruct t as [|b t'].
    + simpl. rewrite shoelace_same. ring.
    + change (pathsum (a :: b :: t')) with (shoelace a b + pathsum (b :: t')).
      cbn [hd]. rewrite (shoelace_antisym b a). ring.
Qed.

(** Reversing the vertex sequence negates the signed area. *)
Lemma polygonArea_rev (l : list Point) : polygonArea (rev l) == - polygonArea l.
Proof.
  rewrite !polygonArea_pathsum.
  destruct l as [|a t]; [reflexivity|].
  assert (Hz : firstn 1 (rev (a :: t)) = [last (a :: t) a]).
  { rewrite <- (rev_involutive (a :: t)) at 2. rewrite last_rev_hd.
    destruct (rev (a :: t)) eqn:E; [|reflexivity].
    apply (f_equal (@List.length _)) in E. rewrite length_rev in E. discriminate. }
  rewrite Hz. cbn [firstn].
  rewrite !pathsum_snoc, pathsum_rev, last_rev_hd. cbn [hd].
  rewrite (shoelace_antisym a (last (a :: t) a)).
  field.
Qed.

(** The areas after normalization have the sign asked for. *)
Lemma normalized_area_sign (points : list Point) :
  0 <= polygonArea (ensureCCW points) /\ polygonArea (ensureCW points) <= 0.
Proof.
  unfold ensureCCW, ensureCW.
  pose proof (polygonArea_rev points) as Hrev.
  destruct (polygonArea points <? 0) eqn:E1;
    destruct (polygonArea points >? 0) eqn:E2; order_facts; split; lra.
Qed.

(** The exact reading of the orientation functions: over the rationals
    reversing a sequence negates its area, so the area of [ensureCCW] of
    any sequence is [>= 0] and that of [ensureCW] is [<= 0].  This is a
    fact of exact arithmetic: in binary64 the reversed sequence is
    summed in another order and the sign can be lost. *)
Theorem ensure_orientation_exact (points : list Point) :
  0 <= polygonArea (ensureCCW points) /\
  polygonArea (ensureCW points) <= 0 /\
  ((0 <= polygonArea points /\ ensureCCW points = points) \/
   (polygonArea points < 0 /\ ensureCCW points = rev points)) /\
  ((polygonArea points <= 0 /\ ensureCW points = points) \/
   (0 < polygonArea points /\ ensureCW points = rev points)).
Proof.
  unfold ensureCCW, ensureCW.
  pose proof (polygonArea_rev points) as Hrev.
  destruct (polygonArea points <? 0) eqn:E1;
    destruct (polygonArea points >? 0) eqn:E2; order_facts;
    (split; [lra|split; [lra|split; [|]]]); auto.
Qed.

(** ** Exceptions *)

Lemma bind_Ok {A B : Type} (r : Result A) (k : A -> Result B) (b : B) :
  bind r k = Ok b -> exists a, r = Ok a /\ k a = Ok b.
Proof.
  destruct r as [a|msg]; simpl; intro H; [eauto | discriminate].
Qed.

(** ** Bounding box and cut line *)

Lemma Qmin_cases (a b : Q) : Qmin a b = a \/ Qmin a b = b.
Proof.
  unfold Qmin, GenericMinMax.gmin. destruct (a ?= b); auto.
Qed.

Lemma Qmax_cases (a b : Q) : Qmax a b = a \/ Qmax a b = b.
Proof.
  unfold Qmax, GenericMinMax.gmax. destruct (a ?= b); auto.
Qed.

(** Once the running extremes are finite they stay so, and the extremes
    of [y] are attained bounds of what was seen. *)
Lemma bbox_fold_finite (pts : list Point) :
  forall a b c d : Q,
  exists a' b' c' d' : Q,
    fold_left bboxStep pts (Fin a, Fin b, Fin c, Fin d)
      = (Fin a', Fin b', Fin c', Fin d') /\
    (b' = b \/ In b' (map y pts)) /\ b' <= b /\
    (forall p, In p pts -> b' <= y p) /\
    (d' = d \/ In d' (map y pts)) /\ d <= d' /\
    (forall p, In p pts -> y p <= d').
Proof.
  induction pts as [|p pts IH]; intros a b c d.
  - exists a, b, c, d. simpl.
    repeat split; auto; try apply Qle_refl; intros ? [].
  - cbn [fold_left bboxStep minExt maxExt].
    destruct (IH (Qmin a (x p)) (Qmin b (y p)) (Qmax c (x p)) (Qmax d (y p)))
      as (a' & b' & c' & d' & E & Hb & Hb1 & Hb2 & Hd & Hd1 & Hd2).
    exists a', b', c', d'. split; [exact E|].
    pose proof (Q.le_min_l b (y p)). pose proof (Q.le_min_r b (y p)).
    pose proof (Q.le_max_l d (y p)). pose proof (Q.le_max_r d (y p)).
    repeat split.
    + destruct Hb as [Hb|Hb]; [|right; simpl; auto].
      destruct (Qmin_cases b (y p)) as [Hm|Hm]; rewrite Hm in Hb;
        [left | right; simpl; left]; congruence.
    + lra.
    + intros q [->|Hq]; [lra | auto].
    + destruct Hd as [Hd|Hd]; [|right; simpl; auto].
      destruct (Qmax_cases d (y p)) as [Hm|Hm]; rewrite Hm in Hd;
        [left | right; simpl; left]; congruence.
    + lra.
    + intros q [->|Hq]; [lra | auto].
Qed.

(** The box of a non-empty list: its [minY] and [maxY] are coordinates of
    the list that bound all the others. *)
Lemma bboxOfPoints_y (pts : list Point) :
  pts <> [] ->
  In (minY (bboxOfPoints pts)) (map y pts) /\
  In (maxY (bboxOfPoints pts)) (map y pts) /\
  forall p, In p pts -> minY (bboxOfPoints pts) <= y p <= maxY (bboxOfPoints pts).
Proof.
  destruct pts as [|p pts]; [congruence|]. intros _.
  unfold bboxOfPoints. cbn [fold_left bboxStep minExt maxExt].
  destruct (bbox_fold_finite pts (x p) (y p) (x p) (y p))
    as (a' & b' & c' & d' & E & Hb & Hb1 & Hb2 & Hd & Hd1 & Hd2).
  rewrite E. cbn [isFinite negb valueOf minY maxY].
  repeat split.
  - destruct Hb as [->|Hb]; simpl; auto.
  - destruct Hd as [->|Hd]; simpl; auto.
  - destruct H as [<-|Hp]; [exact Hb1 | auto].
  - destruct H as [<-|Hp]; [exact Hd1 | auto].
Qed.

(** Without any vertex the box is all zero and the cut line lies on the
    x axis. *)
Lemma cutLineOf_empty (polys : list (list nat)) (viewport : Viewport) :
  cutLineOf (mkSkeleton [] polys) viewport
  = mkLine (pt 0 ((0 + 0) / 2)) (pt (w viewport) ((0 + 0) / 2)).
Proof. reflexivity. Qed.

(** C9.  A successful run on a skeleton that has vertices returns as cut
    line the horizontal segment from [(0, cy)] to [(w, cy)], [w] the
    width of the viewport given and [cy] the midpoint of the least and
    the greatest y coordinate of the skeleton vertices. *)
Theorem run_cutLine (sqrt : Q -> Q)
  (solver : list (list (Q * Q)) -> option Skeleton)
  (project : Project) (selectedId : option string) (viewport : Viewport)
  (bundle : ResultBundle) :
  run sqrt solver project selectedId viewport = Ok bundle ->
  vertices (res_skeleton bundle) <> [] ->
  exists lo hi : Q,
    In lo (map c1 (vertices (res_skeleton bundle))) /\
    In hi (map c1 (vertices (res_skeleton bundle))) /\
    (forall v, In v (vertices (res_skeleton bundle)) -> lo <= c1 v <= hi) /\
    cutLine bundle
    = mkLine (pt 0 ((lo + hi) / 2)) (pt (w viewport) ((lo + hi) / 2)).
Proof.
  unfold run. intros Hrun Hne.
  apply bind_Ok in Hrun. destruct Hrun as (built & _ & Hrun).
  destruct (solver (rings built)) as [skeleton|]; [|discriminate].
  apply bind_Ok in Hrun. destruct Hrun as (mountains & _ & Hrun).
  apply bind_Ok in Hrun. destruct Hrun as (perps & _ & Hrun).
  injection Hrun as <-. cbn [res_skeleton cutLine] in *.
  unfold cutLineOf.
  set (allPts := map (fun v => pt (c0 v) (c1 v)) (vertices skeleton)).
  assert (Hys : map y allPts = map c1 (vertices skeleton)).
  { unfold allPts. rewrite map_map. reflexivity. }
  destruct (bboxOfPoints_y allPts) as (Hlo & Hhi & Hb).
  { unfold allPts. destruct (vertices skeleton); [congruence | discriminate]. }
  exists (minY (bboxOfPoints allPts)), (maxY (bboxOfPoints allPts)).
  rewrite <- Hys. repeat split; auto.
  - apply (Hb (pt (c0 v) (c1 v))). unfold allPts.
    apply (in_map (fun v => pt (c0 v) (c1 v))). assumption.
  - apply (Hb (pt (c0 v) (c1 v))). unfold allPts.
    apply (in_map (fun v => pt (c0 v) (c1 v))). assumption.
Qed.

(** The 100 x 100 square: the cut line is at y = 50 across the viewport. *)
Lemma run_cutLine_square :
  run Qsqrt squareSolver squareProject None squareViewport = Ok squareBundle /\
  cutLine squareBundle = mkLine (pt 0 (100 # 2)) (pt 1000 (100 # 2)) /\
  exists lo hi : Q,
    In lo (map c1 (vertices (res_skeleton squareBundle))) /\
    In hi (map c1 (vertices (res_skeleton squareBundle))) /\
    (forall v, In v (vertices (res_skeleton squareBundle)) -> lo <= c1 v <= hi) /\
    cutLine squareBundle
    = mkLine (pt 0 ((lo + hi) / 2)) (pt (w squareViewport) ((lo + hi) / 2)).
Proof.
  split; [vm_compute; reflexivity|]. split; [reflexivity|].
  apply (run_cutLine Qsqrt squareSolver squareProject None squareViewport squareBundle).
  - vm_compute. reflexivity.
  - discriminate.
Defined.

(** ** Ring conversion *)

Lemma map_pt_id (ps : list Point) : map (fun p => pt (x p) (y p)) ps = ps.
Proof.
  induction ps as [|[px py] ps IH]; simpl; [reflexivity | now rewrite IH].
Qed.

Lemma lastOf_snoc {A : Type} (l : list A) (a : A) : lastOf (l ++ [a]) = Some a.
Proof. unfold lastOf. rewrite rev_app_distr. reflexivity. Qed.

Lemma far_not_near (prev p : Point) :
  (Qabs (x prev - x p) >? 0.000000001) || (Qabs (y prev - y p) >? 0.000000001)
  = negb (nearPoint prev p).
Proof.
  unfold nearPoint, Qgtb, Qltb. now rewrite negb_andb.
Qed.

Lemma cleanStep_collapseFrom (l : list Point) :
  forall (kept : list Point) (prev : Point),
    fold_left cleanStep l (kept ++ [prev]) = (kept ++ [prev]) ++ collapseFrom prev l.
Proof.
  induction l as [|p l IH]; intros kept prev; simpl.
  - now rewrite app_nil_r.
  - unfold cleanStep at 2. rewrite lastOf_snoc, far_not_near.
    destruct (nearPoint prev p); simpl.
    + apply IH.
    + rewrite IH, <- app_assoc. reflexivity.
Qed.

(** The loop of [ringFromShape] computes the collapse. *)
Lemma cleanStep_collapse (l : list Point) : fold_left cleanStep l [] = collapse l.
Proof.
  destruct l as [|p l]; [reflexivity|].
  simpl. apply (cleanStep_collapseFrom l [] p).
Qed.

Lemma collapseFrom_length (l : list Point) (prev : Point) :
  (List.length (collapseFrom prev l) <= List.length l)%nat.
Proof.
  revert prev. induction l as [|p l IH]; intro prev; simpl; [lia|].
  destruct (nearPoint prev p); simpl.
  - specialize (IH prev). lia.
  - specialize (IH p). lia.
Qed.

Lemma collapse_length (l : list Point) :
  (List.length (collapse l) <= List.length l)%nat.
Proof.
  destruct l as [|p l]; simpl; [lia|].
  pose proof (collapseFrom_length l p). lia.
Qed.

(** No point kept by the collapse is near the point kept before it. *)
Lemma collapseFrom_far (l : list Point) (prev : Point) :
  forall i p q,
    nth_error (prev :: collapseFrom prev l) i = Some p ->
    nth_error (prev :: collapseFrom prev l) (S i) = Some q ->
    nearPoint p q = false.
Proof.
  revert prev. induction l as [|a l IH]; intros prev i p q Hp Hq.
  - destruct i; simpl in Hq; [discriminate | destruct i; discriminate].
  - simpl in Hp, Hq. destruct (nearPoint prev a) eqn:E.
    + eapply IH; eassumption.
    + destruct i as [|i].
      * simpl in Hp, Hq. congruence.
      * eapply (IH a i); simpl; eassumption.
Qed.

(** C6 (amended).  For a closed shape with a point array, [ringFromShape]
    works on the collapse of its points (a point within 1e-9 in x and in
    y of the point kept before it is dropped): it throws the
    DegenerateRing message when fewer than 3 points remain, the
    SelfIntersectingRing message when the collapsed ring is not simple,
    and returns the collapsed ring otherwise.  The outcome, message
    included, is the same for every shape with these points: the
    messages do not say which shape failed. *)
Theorem ringFromShape_spec (shape : Shape) (ps : list Point) :
  points shape = Some ps ->
  ringFromShape shape
  = (if (List.length (collapse ps) <? 3)%nat then Throw msgDegenerateRing
     else if isSimplePolygon (collapse ps) 0.000000001 then Ok (collapse ps)
     else Throw msgSelfIntersectingRing) /\
  (forall other, points other = Some ps -> ringFromShape other = ringFromShape shape).
Proof.
  intro Hps.
  assert (H : forall s, points s = Some ps ->
            ringFromShape s
            = (if (List.length (collapse ps) <? 3)%nat then Throw msgDegenerateRing
               else if isSimplePolygon (collapse ps) 0.000000001 then Ok (collapse ps)
               else Throw msgSelfIntersectingRing)).
  { intros s Hs. unfold ringFromShape. rewrite Hs, map_pt_id, cleanStep_collapse.
    destruct (List.length ps <? 3)%nat eqn:E1.
    - apply Nat.ltb_lt in E1. pose proof (collapse_length ps) as Hle.
      assert (E2 : (List.length (collapse ps) <? 3)%nat = true)
        by (apply Nat.ltb_lt; lia).
      now rewrite E2.
    - destruct (List.length (collapse ps) <? 3)%nat; [reflexivity|].
      destruct (isSimplePolygon (collapse ps) 0.000000001); reflexivity. }
  split; [now apply H|].
  intros other Ho. rewrite (H other Ho), (H shape Hps). reflexivity.
Qed.

(** A shape whose four points collapse to two is refused, and a triangle
    with a doubled first point is returned collapsed. *)
Lemma ringFromShape_spec_examples :
  (ringFromShape flatShapeA = Throw msgDegenerateRing /\
   forall other,
     points other = Some [pt 0 0; pt 0 0; pt 10 0; pt 10 0] ->
     ringFromShape other = ringFromShape flatShapeA) /\
  ringFromShape triangleShape = Ok [pt 0 0; pt 10 0; pt 0 10].
Proof.
  split.
  - apply (ringFromShape_spec flatShapeA [pt 0 0; pt 0 0; pt 10 0; pt 10 0]).
    reflexivity.
  - vm_compute. reflexivity.
Defined.

(** C6 as stated fails: no function recovers the name of the offending
    shape from the error thrown, since two shapes of different names
    throw the same error. *)
Lemma ringFromShape_error_names_no_shape :
  ~ (exists name : string -> string,
       forall shape msg, ringFromShape shape = Throw msg -> name msg = id shape).
Proof.
  intros [name H].
  assert (HA : ringFromShape flatShapeA = Throw msgDegenerateRing)
    by (vm_compute; reflexivity).
  assert (HB : ringFromShape flatShapeB = Throw msgDegenerateRing)
    by (vm_compute; reflexivity).
  apply H in HA. apply H in HB. rewrite HA in HB. discriminate.
Qed.

(** ** Outer-ring selection *)

Lemma mapM_Forall2 {A B : Type} (f : A -> Result B) (l : list A) (out : list B) :
  mapM f l = Ok out -> Forall2 (fun a b => f a = Ok b) l out.
Proof.
  revert out. induction l as [|a l IH]; intros out H; simpl in H.
  - injection H as <-. constructor.
  - apply bind_Ok in H. destruct H as (b & Hb & H).
    apply bind_Ok in H. destruct H as (bs & Hbs & H).
    injection H as <-. constructor; auto.
Qed.

Lemma ringInfoOf_Ok (s : Shape) (info : RingInfo) :
  ringInfoOf s = Ok info ->
  info_id info = id s /\ ringFromShape s = Ok (ring info) /\
  area info = polygonArea (ring info) /\ absArea info = Qabs (area info) /\
  centroid info = polygonCentroid (ring info).
Proof.
  unfold ringInfoOf. intro H. apply bind_Ok in H.
  destruct H as (r & Hr & H). injection H as <-. simpl. auto.
Qed.

Lemma find_filter {A : Type} (p q : A -> bool) (l : list A) (a : A) :
  find p l = Some a -> q a = true -> find p (filter q l) = Some a.
Proof.
  induction l as [|b l IH]; simpl; [discriminate|].
  intros Hf Hq. destruct (p b) eqn:Ep.
  - injection Hf as ->. rewrite Hq. simpl. now rewrite Ep.
  - destruct (q b); simpl; [rewrite Ep|]; auto.
Qed.

(** The info found under the name of a shape is the info made from the
    first shape of that name. *)
Lemma find_ringInfo (l : list Shape) (infos : list RingInfo) (k : string) (s : Shape) :
  Forall2 (fun a b => ringInfoOf a = Ok b) l infos ->
  find (fun a => String.eqb (id a) k) l = Some s ->
  exists info,
    find (fun r => String.eqb (info_id r) k) infos = Some info /\
    ringInfoOf s = Ok info.
Proof.
  induction 1 as [|a b l infos Hab _ IH]; simpl; [discriminate|].
  intro Hf. destruct (ringInfoOf_Ok a b Hab) as (Hid & _). rewrite Hid.
  destruct (String.eqb (id a) k).
  - injection Hf as <-. eauto.
  - auto.
Qed.

Lemma fold_max_absArea (l : list RingInfo) :
  forall first,
    let m := fold_left (fun a b => if absArea b >? absArea a then b else a) l first in
    (m = first \/ In m l) /\ absArea first <= absArea m /\
    forall r, In r l -> absArea r <= absArea m.
Proof.
  induction l as [|b l IH]; intro first; cbn zeta; simpl.
  - split; [auto|]. split; [apply Qle_refl | intros ? []].
  - destruct (absArea b >? absArea first) eqn:E; order_facts.
    + destruct (IH b) as (Hin & Hle & Hall). split; [|split].
      * destruct Hin; auto.
      * lra.
      * intros r [<-|Hr]; auto.
    + destruct (IH first) as (Hin & Hle & Hall). split; [|split].
      * destruct Hin; auto.
      * exact Hle.
      * intros r [<-|Hr]; [lra | auto].
Qed.

(** Without a usable selection, [chooseOuter] returns an info of largest
    absolute area. *)
Lemma chooseOuter_largest (infos : list RingInfo) :
  infos <> [] ->
  exists info, chooseOuter None infos = Ok info /\ maxAbsArea info infos.
Proof.
  destruct infos as [|first infos]; [congruence|]. intros _.
  unfold chooseOuter. eexists. split; [reflexivity|].
  destruct (fold_max_absArea (first :: infos) first) as (Hin & _ & Hall).
  split; [|exact Hall].
  destruct Hin as [->|Hin]; [left; reflexivity | exact Hin].
Qed.

Lemma selectedShape_Some (project : Project) (selectedId : option string) (sel : Shape) :
  selectedShape project selectedId = Some sel ->
  truthy selectedId = true /\
  exists k, selectedId = Some k /\ getShapeById project k = Some sel /\ id sel = k.
Proof.
  unfold selectedShape. destruct selectedId as [k|]; [|discriminate].
  destruct (truthy (Some k)); [|discriminate].
  intro H. split; [reflexivity|]. exists k. repeat split; auto.
  unfold getShapeById in H. apply find_some in H. destruct H as [_ H].
  now apply String.eqb_eq.
Qed.

Lemma closedShapes_nonempty (project : Project) :
  closedShapes project <> [] ->
  (List.length (closedShapes project) =? 0)%nat = false.
Proof.
  destruct (closedShapes project); [congruence | reflexivity].
Qed.

(** A preferred shape that is not a closed polygon stops the builder,
    whatever the rings are. *)
Lemma selected_open_shape_throws (project : Project) (selectedId : option string)
  (sel : Shape) :
  closedShapes project <> [] ->
  selectedShape project selectedId = Some sel ->
  isClosedPolygon sel = false ->
  buildRingsFromProject project selectedId = Throw msgSelectedNotClosed.
Proof.
  intros Hne Hsel Hclosed.
  destruct (selectedShape_Some _ _ _ Hsel) as (Htruthy & _).
  unfold buildRingsFromProject.
  rewrite (closedShapes_nonempty _ Hne), Hsel, Htruthy, Hclosed. reflexivity.
Qed.

(** C3 (amended).  In a scene with at least one closed shape whose rings
    all convert: when the preferred identifier names a closed polygon
    (with a point array), the info of that shape, carrying its ring, is
    chosen as outer (a closed polygon without a point array has no ring
    of its own: an info of its name or of largest absolute area is
    chosen); when it names a shape that is not a closed polygon,
    the ring builder throws the "selected shape is not closed" error
    instead of choosing; when there is no preferred identifier, or it
    names no shape, an info of largest absolute area is chosen. *)
Theorem outer_selection (project : Project) (selectedId : option string)
  (infos : list RingInfo) :
  closedShapes project <> [] ->
  mapM ringInfoOf (closedShapes project) = Ok infos ->
  match selectedShape project selectedId with
  | Some sel =>
      if isClosedPolygon sel then
        if isArray (points sel) then
          exists info,
            chooseOuter (Some sel) infos = Ok info /\
            info_id info = id sel /\ ringFromShape sel = Ok (ring info)
        else
          exists info,
            chooseOuter (Some sel) infos = Ok info /\
            (info_id info = id sel \/ maxAbsArea info infos)
      else buildRingsFromProject project selectedId = Throw msgSelectedNotClosed
  | None =>
      exists info, chooseOuter None infos = Ok info /\ maxAbsArea info infos
  end.
Proof.
  intros Hne Hinfos.
  pose proof (mapM_Forall2 _ _ _ Hinfos) as HF.
  assert (Hne' : infos <> []).
  { intros ->. inversion HF as [E|]. congruence. }
  destruct (selectedShape project selectedId) as [sel|] eqn:Hsel;
    [|now apply chooseOuter_largest].
  destruct (selectedShape_Some _ _ _ Hsel) as (Htruthy & k & -> & Hget & Hk).
  destruct (isClosedPolygon sel) eqn:Hclosed.
  - destruct (isArray (points sel)) eqn:Harr.
    + assert (Hf : find (fun a => String.eqb (id a) k) (closedShapes project) = Some sel).
      { unfold closedShapes. apply find_filter; [exact Hget|].
        unfold isClosedPolygon in Hclosed. now rewrite Hclosed, Harr. }
      destruct (find_ringInfo _ _ _ _ HF Hf) as (info & Hfind & Hinfo).
      exists info. unfold chooseOuter. rewrite Hclosed, Hk, Hfind.
      destruct (ringInfoOf_Ok _ _ Hinfo) as (Hid & Hring & _).
      repeat split; congruence.
    + unfold chooseOuter. rewrite Hclosed.
      destruct (find (fun r => String.eqb (info_id r) (id sel)) infos) as [i|] eqn:E.
      * exists i. split; [reflexivity|]. left.
        apply find_some in E. destruct E as [_ E]. now apply String.eqb_eq.
      * destruct (chooseOuter_largest infos Hne') as (info & Hc & Hmax).
        exists info. split; [exact Hc | now right].
  - now apply (selected_open_shape_throws _ _ sel).
Qed.

(** The triangle inside the square is chosen as outer when it is the
    preferred shape, although the square is larger. *)
Lemma outer_selection_preferred :
  exists info,
    chooseOuter (Some innerTriangle) nestedInfos = Ok info /\
    info_id info = id innerTriangle /\
    ringFromShape innerTriangle = Ok (ring info).
Proof.
  apply (outer_selection nestedProject (Some "shape_in"%string) nestedInfos).
  - discriminate.
  - vm_compute. reflexivity.
Defined.

(** C3 as stated fails: with the open polyline as preferred shape no ring
    is chosen, the builder throws; without a preference the square, the
    only and so the largest ring, is the outer ring. *)
Lemma outer_selection_open_shape_throws :
  getShapeById mixedProject "shape_open" = Some openShape /\
  isClosedPolygon openShape = false /\
  closedShapes mixedProject = [squareShape] /\
  buildRingsFromProject mixedProject (Some "shape_open"%string)
  = Throw msgSelectedNotClosed /\
  buildRingsFromProject mixedProject None
  = Ok (mkRings [[(0, 0); (100, 0); (100, 100); (0, 100); (0, 0)]]
                [pt 0 0; pt 100 0; pt 100 100; pt 0 100]).
Proof.
  repeat split; vm_compute; reflexivity.
Qed.

(** ** Classification into holes and outsiders *)

Lemma classify_fold (outer : RingInfo) (l : list RingInfo) :
  forall holes outsiders,
    fold_left (classifyStep outer) l (holes, outsiders)
    = (holes ++ filter (fun i => otherThan outer i && centroidInside outer i) l,
       outsiders ++ filter (fun i => otherThan outer i && negb (centroidInside outer i)) l).
Proof.
  induction l as [|info l IH]; intros holes outsiders; cbn [fold_left filter].
  - now rewrite !app_nil_r.
  - destruct (classifyStep outer (holes, outsiders) info) as [holes' outsiders'] eqn:E.
    rewrite IH. unfold classifyStep in E.
    change (otherThan outer info)
      with (negb (String.eqb (info_id info) (info_id outer))).
    change (centroidInside outer info)
      with (pointInPolygon (centroid info) (ring outer)).
    destruct (String.eqb (info_id info) (info_id outer));
      [|destruct (pointInPolygon (centroid info) (ring outer))];
      injection E as <- <-; cbn [negb andb]; rewrite <- ?app_assoc; reflexivity.
Qed.

Lemma classify_filter (outer : RingInfo) (infos : list RingInfo) :
  classify outer infos
  = (filter (fun i => otherThan outer i && centroidInside outer i) infos,
     filter (fun i => otherThan outer i && negb (centroidInside outer i)) infos).
Proof. unfold classify. now rewrite classify_fold. Qed.

Lemma ringFromShape_Ok (s : Shape) (r : list Point) :
  ringFromShape s = Ok r ->
  (3 <= List.length r)%nat /\ isSimplePolygon r 0.000000001 = true.
Proof.
  unfold ringFromShape. destruct (points s) as [ps|]; [|discriminate].
  destruct (List.length (map (fun p => pt (x p) (y p)) ps) <? 3)%nat; [discriminate|].
  destruct (List.length (fold_left cleanStep _ []) <? 3)%nat eqn:E; [discriminate|].
  destruct (isSimplePolygon _ _) eqn:E2; simpl; [|discriminate].
  intro H. injection H as <-. apply Nat.ltb_ge in E. auto.
Qed.

Lemma ringInfos_rings (l : list Shape) (infos : list RingInfo) :
  Forall2 (fun a b => ringInfoOf a = Ok b) l infos ->
  Forall (fun i => (3 <= List.length (ring i))%nat) infos.
Proof.
  induction 1 as [|a b l infos Hab _ IH]; constructor; [|exact IH].
  destruct (ringInfoOf_Ok a b Hab) as (_ & Hr & _).
  now destruct (ringFromShape_Ok _ _ Hr).
Qed.

Lemma chooseOuter_In (selected : option Shape) (infos : list RingInfo) (outer : RingInfo) :
  chooseOuter selected infos = Ok outer -> In outer infos.
Proof.
  unfold chooseOuter.
  assert (Hlargest : match infos with
                     | [] => Throw msgTypeError
                     | first :: _ =>
                         Ok (fold_left (fun a b => if absArea b >? absArea a then b else a)
                                       infos first)
                     end = Ok outer -> In outer infos).
  { destruct infos as [|first infos]; [discriminate|].
    intro H.
    assert (E : outer
                = fold_left (fun a b => if absArea b >? absArea a then b else a)
                            (first :: infos) first) by congruence.
    rewrite E.
    destruct (fold_max_absArea (first :: infos) first) as ([Hm|Hin] & _);
      [left; symmetry; exact Hm | exact Hin]. }
  destruct selected as [sel|]; [|exact Hlargest].
  destruct (isClosedPolygon sel); [|exact Hlargest].
  destruct (find _ infos) as [i|] eqn:E; [|exact Hlargest].
  intro H. injection H as <-. now apply find_some in E.
Qed.

Lemma ensureCCW_length (r : list Point) : List.length (ensureCCW r) = List.length r.
Proof. unfold ensureCCW. destruct (_ <? _); [apply length_rev | reflexivity]. Qed.

Lemma ensureCW_length (r : list Point) : List.length (ensureCW r) = List.length r.
Proof. unfold ensureCW. destruct (_ >? _); [apply length_rev | reflexivity]. Qed.








(** ** Explicit closure round trip *)



(** The stages a successful build went through. *)
Lemma buildRings_Ok (project : Project) (selectedId : option string) (res : Rings) :
  buildRingsFromProject project selectedId = Ok res ->
  exists infos outer holes,
    mapM ringInfoOf (closedShapes project) = Ok infos /\
    chooseOuter (selectedShape project selectedId) infos = Ok outer /\
    classify outer infos = (holes, []) /\
    mapM closeRing (ensureCCW (ring outer) :: map (fun h => ensureCW (ring h)) holes)
    = Ok (rings res) /\
    outerRing res = ensureCCW (ring outer).
Proof.
  unfold buildRingsFromProject.
  destruct (List.length (closedShapes project) =? 0)%nat; [discriminate|].
  destruct (truthy selectedId && _); [discriminate|].
  intro H. apply bind_Ok in H. destruct H as (infos & Hinfos & H).
  apply bind_Ok in H. destruct H as (outer & Houter & H).
  destruct (classify outer infos) as [holes outsiders] eqn:Ec.
  destruct outsiders as [|o outsiders]; [|discriminate].
  cbn [List.length Nat.ltb Nat.leb] in H.
  apply bind_Ok in H. destruct H as (rs & Hrs & H). injection H as <-.
  exists infos, outer, holes. cbn [rings outerRing]. auto.
Qed.

Lemma mapM_closeRing_Forall2 (rs : list (list Point)) (outs : list (list (Q * Q))) :
  mapM closeRing rs = Ok outs ->
  Forall2 (fun out r =>
             exists first rest,
               r = first :: rest /\ out = map toPair r ++ [toPair first])
          outs rs.
Proof.
  intro H. apply mapM_Forall2 in H.
  induction H as [|r out rs outs Hr _ IH]; constructor; [|exact IH].
  destruct r as [|first rest]; [discriminate|].
  unfold closeRing in Hr. injection Hr as <-. exists first, rest. auto.
Qed.



(** ** Interior edges: keys *)

Lemma split_noSep (sep : ascii) (s : string) :
  noSep sep s = true -> split sep s = [s].
Proof.
  induction s as [|c s IH]; simpl; [reflexivity|].
  intro H. apply andb_prop in H. destruct H as [Hc Hs].
  apply negb_true_iff in Hc. rewrite Hc, (IH Hs). reflexivity.
Qed.

Lemma split_app_sep (sep : ascii) (s r : string) :
  noSep sep s = true ->
  split sep (s ++ String sep r) = s :: split sep r.
Proof.
  induction s as [|c s IH]; simpl; intro H.
  - now rewrite Ascii.eqb_refl.
  - apply andb_prop in H. destruct H as [Hc Hs].
    apply negb_true_iff in Hc. rewrite Hc, (IH Hs). reflexivity.
Qed.

Lemma string_of_uint_noSep (d : Decimal.uint) :
  noSep "|" (NilEmpty.string_of_uint d) = true.
Proof. induction d; simpl; auto. Qed.

Lemma split_edgeKey (a b : nat) :
  split "|" (edgeKey a b) = [natToString a; natToString b].
Proof.
  unfold edgeKey, natToString.
  change ("|" ++ NilEmpty.string_of_uint (Nat.to_uint b))%string
    with (String "|" (NilEmpty.string_of_uint (Nat.to_uint b))).
  rewrite split_app_sep by apply string_of_uint_noSep.
  rewrite split_noSep by apply string_of_uint_noSep.
  reflexivity.
Qed.

Lemma Number_natToString (n : nat) : Number (natToString n) = Some n.
Proof.
  unfold Number, natToString. rewrite NilEmpty.usu. simpl.
  now rewrite DecimalNat.Unsigned.of_to.
Qed.

Lemma edgeKey_inj (a b a' b' : nat) :
  edgeKey a b = edgeKey a' b' -> a = a' /\ b = b'.
Proof.
  intro H. apply (f_equal (split "|")) in H. rewrite !split_edgeKey in H.
  injection H as Ha Hb.
  apply (f_equal Number) in Ha. apply (f_equal Number) in Hb.
  rewrite !Number_natToString in Ha, Hb. split; congruence.
Qed.

(** What the second loop does with the entry of the pair [(a, b)]. *)
Lemma edgeOfEntry_edgeKey (vs : list Vertex) (a b count : nat) :
  edgeOfEntry vs (edgeKey a b, count)
  = if (2 <=? count)%nat && separated vs a b then Some (mkEdge a b) else None.
Proof.
  unfold edgeOfEntry, separated. rewrite split_edgeKey. cbn [nth_error numberOf].
  rewrite !Number_natToString. cbn [vertexAt].
  destruct (count <? 2)%nat eqn:E.
  - apply Nat.ltb_lt in E.
    assert (E' : (2 <=? count)%nat = false) by (apply Nat.leb_gt; lia).
    now rewrite E'.
  - apply Nat.ltb_ge in E.
    assert (E' : (2 <=? count)%nat = true) by (apply Nat.leb_le; lia).
    rewrite E'. cbn [andb].
    destruct (nth_error vs a) as [v0|]; [|reflexivity].
    destruct (nth_error vs b) as [v1|]; [|reflexivity].
    destruct (_ <? _); reflexivity.
Qed.

(** ** Interior edges: the map of counts *)

Lemma mapGet_mapSet_same (key : string) (c : nat) (m : EdgeMap) :
  mapGet key (mapSet key c m) = Some c.
Proof.
  induction m as [|[k c'] m IH]; simpl.
  - now rewrite String.eqb_refl.
  - destruct (String.eqb k key) eqn:E; simpl; rewrite E; auto.
Qed.

Lemma mapGet_mapSet_other (key key' : string) (c : nat) (m : EdgeMap) :
  key <> key' -> mapGet key (mapSet key' c m) = mapGet key m.
Proof.
  intro Hne. induction m as [|[k c'] m IH]; simpl.
  - destruct (String.eqb key' key) eqn:E; [|reflexivity].
    apply String.eqb_eq in E. congruence.
  - destruct (String.eqb k key') eqn:E; simpl.
    + apply String.eqb_eq in E. subst k.
      destruct (String.eqb key' key) eqn:E'; [|reflexivity].
      apply String.eqb_eq in E'. congruence.
    + destruct (String.eqb k key); auto.
Qed.

Lemma mapSet_keys (key : string) (c : nat) (m : EdgeMap) :
  map fst (mapSet key c m)
  = match mapGet key m with
    | Some _ => map fst m
    | None => map fst m ++ [key]
    end.
Proof.
  induction m as [|[k c'] m IH]; simpl; [reflexivity|].
  destruct (String.eqb k key) eqn:E; simpl; [reflexivity|].
  rewrite IH. destruct (mapGet key m); reflexivity.
Qed.

Lemma mapGet_None (key : string) (m : EdgeMap) :
  mapGet key m = None -> ~ In key (map fst m).
Proof.
  induction m as [|[k c] m IH]; simpl; [tauto|].
  destruct (String.eqb k key) eqn:E; [discriminate|].
  apply String.eqb_neq in E. intros H [Hk|Hin]; [congruence | now apply IH].
Qed.

(** The first loop is a tally of the pairs of all cycles. *)
Lemma countEdges_tally (polys : list (list nat)) :
  countEdges polys = fold_left tallyStep (allEdges polys) [].
Proof.
  unfold countEdges, allEdges. generalize (@nil (string * nat)) as m.
  induction polys as [|poly polys IH]; intro m; simpl; [reflexivity|].
  rewrite fold_left_app, IH. f_equal.
  unfold cycleEdges. generalize (seq 0 (List.length poly)) as ix. clear.
  intro ix. revert m. induction ix as [|i ix IH]; intro m; simpl; [reflexivity|].
  rewrite fold_left_app, IH. f_equal.
  unfold countStep. destruct (_ =? _)%nat; reflexivity.
Qed.

Section Tally.
Variable e0 : nat * nat.

Let key0 : string := edgeKey (fst e0) (snd e0).

Lemma tally_get (es : list (nat * nat)) :
  forall m,
    mapGet key0 (fold_left tallyStep es m)
    = match count_occ pair_eq_dec es e0 with
      | O => mapGet key0 m
      | S n => Some (S n + match mapGet key0 m with Some c => c | None => 0 end)%nat
      end.
Proof.
  induction es as [|e es IH]; intro m; [reflexivity|].
  cbn [fold_left count_occ]. rewrite IH.
  destruct (pair_eq_dec e e0) as [->|Hne].
  - unfold tallyStep at 1 2. fold key0. rewrite mapGet_mapSet_same.
    destruct (count_occ pair_eq_dec es e0); f_equal; lia.
  - assert (Hk : key0 <> edgeKey (fst e) (snd e)).
    { intro E. apply edgeKey_inj in E. destruct E as [E1 E2].
      apply Hne. destruct e, e0. simpl in *. congruence. }
    unfold tallyStep at 1 2. rewrite (mapGet_mapSet_other _ _ _ _ Hk).
    reflexivity.
Qed.
End Tally.

Lemma tally_keys (es : list (nat * nat)) :
  forall m,
    NoDup (map fst m) ->
    (forall k, In k (map fst m) -> exists a b, k = edgeKey a b) ->
    NoDup (map fst (fold_left tallyStep es m)) /\
    (forall k, In k (map fst (fold_left tallyStep es m)) -> exists a b, k = edgeKey a b).
Proof.
  induction es as [|e es IH]; intros m Hnd Hk; [auto|].
  cbn [fold_left]. apply IH.
  - unfold tallyStep. rewrite mapSet_keys.
    destruct (mapGet _ m) eqn:E; [exact Hnd|].
    apply NoDup_app; [exact Hnd | repeat constructor; intros [] |].
    intros k Hin [<-|[]]. now apply (mapGet_None _ _ E).
  - intro k. unfold tallyStep. rewrite mapSet_keys.
    destruct (mapGet _ m); [apply Hk|].
    intro Hin. apply in_app_or in Hin. destruct Hin as [Hin|[<-|[]]]; eauto.
Qed.

(** ** Interior edges: the edges emitted *)

Lemma extract_flat_map (vs : list Vertex) (m : EdgeMap) :
  forall edges,
    fold_left
      (fun edges entry =>
         match edgeOfEntry vs entry with
         | Some e => edges ++ [e]
         | None => edges
         end)
      m edges
    = edges ++ flat_map (edgesOfEntry vs) m.
Proof.
  induction m as [|entry m IH]; intro edges; simpl.
  - now rewrite app_nil_r.
  - rewrite IH. unfold edgesOfEntry at 2.
    destruct (edgeOfEntry vs entry); simpl; [now rewrite <- app_assoc | reflexivity].
Qed.

Lemma mapGet_absent (key : string) (m : EdgeMap) :
  ~ In key (map fst m) -> mapGet key m = None.
Proof.
  induction m as [|[k c] m IH]; simpl; [reflexivity|].
  intro H. destruct (String.eqb k key) eqn:E.
  - apply String.eqb_eq in E. tauto.
  - apply IH. tauto.
Qed.

(** With one entry per key, the pair [(a, b)] is emitted as often as its
    own entry emits it: once or never. *)
Lemma emitted_count (vs : list Vertex) (a b : nat) (m : EdgeMap) :
  NoDup (map fst m) ->
  (forall k, In k (map fst m) -> exists a' b', k = edgeKey a' b') ->
  count_occ Edge_eq_dec (flat_map (edgesOfEntry vs) m) (mkEdge a b)
  = match mapGet (edgeKey a b) m with
    | Some c => if (2 <=? c)%nat && separated vs a b then 1%nat else 0%nat
    | None => 0%nat
    end.
Proof.
  induction m as [|[k c] m IH]; intros Hnd Hk; [reflexivity|].
  cbn [flat_map]. rewrite count_occ_app.
  inversion Hnd as [|? ? Hfresh Hnd']; subst.
  destruct (Hk k) as (a' & b' & ->); [left; reflexivity|].
  rewrite IH by (auto; intros; apply Hk; right; assumption).
  unfold edgesOfEntry. rewrite edgeOfEntry_edgeKey. cbn [mapGet].
  destruct (String.eqb (edgeKey a' b') (edgeKey a b)) eqn:E.
  - apply String.eqb_eq in E. destruct (edgeKey_inj _ _ _ _ E) as [-> ->].
    rewrite (mapGet_absent _ _ Hfresh).
    destruct ((2 <=? c)%nat && separated vs a b); [|reflexivity].
    now rewrite count_occ_cons_eq.
  - apply String.eqb_neq in E.
    destruct ((2 <=? c)%nat && separated vs a' b'); [|reflexivity].
    rewrite count_occ_cons_neq; [reflexivity|].
    intro Heq. injection Heq as -> ->. congruence.
Qed.




(** Two triangles sharing the edge between vertices 0 and 1: that edge,
    in two cycles, is the only one emitted. *)
Lemma interior_edges_kite :
  extractInteriorEdgesFromSkeleton kiteSkeleton = [mkEdge 0 1] /\
  facesWith (polygons kiteSkeleton) (0, 1)%nat = 2%nat /\
  facesWith (polygons kiteSkeleton) (1, 2)%nat = 1%nat.
Proof. repeat split; vm_compute; reflexivity. Qed.


(** ** Valley creases: the key *)

Lemma numToString_Qeq (u v : Q) : u == v -> numToString u = numToString v.
Proof.
  intro H. unfold numToString. now rewrite (Qred_complete _ _ H).
Qed.

Lemma pointKey_samePoint (P P' : Point) : samePoint P P' -> pointKey P = pointKey P'.
Proof.
  intros [Hx Hy]. unfold pointKey.
  now rewrite (numToString_Qeq _ _ Hx), (numToString_Qeq _ _ Hy).
Qed.

Lemma ltb_asym (k1 k2 : string) : String.ltb k1 k2 = true -> String.ltb k2 k1 = false.
Proof.
  unfold String.ltb. rewrite (String.compare_antisym k1 k2).
  destruct (String.compare k2 k1); simpl; congruence.
Qed.

Lemma ltb_total (k1 k2 : string) :
  String.ltb k1 k2 = false -> String.ltb k2 k1 = false -> k1 = k2.
Proof.
  unfold String.ltb. rewrite (String.compare_antisym k1 k2).
  destruct (String.compare k2 k1) eqn:E; simpl; try congruence.
  intros _ _. symmetry. now apply String.compare_eq_iff.
Qed.

Lemma keyForUndirectedEdge_pointKey (a b : Point) (q : Q) :
  keyForUndirectedEdge a b q
  = if String.ltb (pointKey (quantizePoint a q)) (pointKey (quantizePoint b q))
    then (pointKey (quantizePoint a q) ++ "|" ++ pointKey (quantizePoint b q))%string
    else (pointKey (quantizePoint b q) ++ "|" ++ pointKey (quantizePoint a q))%string.
Proof. reflexivity. Qed.

(** The key does not depend on the direction of the segment. *)
Lemma keyForUndirectedEdge_sym (a b : Point) (q : Q) :
  keyForUndirectedEdge a b q = keyForUndirectedEdge b a q.
Proof.
  rewrite !keyForUndirectedEdge_pointKey.
  set (k1 := pointKey (quantizePoint a q)).
  set (k2 := pointKey (quantizePoint b q)).
  destruct (String.ltb k1 k2) eqn:E1.
  - now rewrite (ltb_asym _ _ E1).
  - destruct (String.ltb k2 k1) eqn:E2; [reflexivity|].
    now rewrite (ltb_total _ _ E1 E2).
Qed.

(** Segments whose endpoints quantize alike have one key. *)
Lemma segKey_sameCells (s1 s2 : Segment) : sameCells s1 s2 -> segKey s1 = segKey s2.
Proof.
  assert (Hdir : forall a b a' b',
             sameCell a a' -> sameCell b b' ->
             keyForUndirectedEdge a b 0.01 = keyForUndirectedEdge a' b' 0.01).
  { intros a b a' b' Ha Hb. rewrite !keyForUndirectedEdge_pointKey.
    now rewrite (pointKey_samePoint _ _ Ha), (pointKey_samePoint _ _ Hb). }
  unfold segKey. intros [[Ha Hb]|[Ha Hb]].
  - now apply Hdir.
  - rewrite (keyForUndirectedEdge_sym (fst s2)). now apply Hdir.
Qed.

(** ** Valley creases: the seen set *)

Lemma existsb_eqb_In (key : string) (seen : list string) :
  existsb (String.eqb key) seen = true <-> In key seen.
Proof.
  rewrite existsb_exists. split.
  - intros (k & Hin & E). apply String.eqb_eq in E. now subst.
  - intro H. exists key. split; [exact H | apply String.eqb_refl].
Qed.

Lemma keepNew_invariant (st : list Crease * list string) (s : Segment) :
  seenInvariant st ->
  seenInvariant (keepNew st s) /\
  In (segKey s) (snd (keepNew st s)) /\
  (forall k, In k (snd st) -> In k (snd (keepNew st s))).
Proof.
  destruct st as [creases seen]. intros [Hnd Hseen]. unfold keepNew, seenInvariant.
  cbn [fst snd] in Hnd, Hseen.
  destruct (existsb (String.eqb (segKey s)) seen) eqn:E.
  - apply existsb_eqb_In in E. cbn [fst snd]. repeat split; auto; apply Hseen.
  - assert (Hnew : ~ In (segKey s) seen).
    { intro H. apply existsb_eqb_In in H. congruence. }
    cbn [fst snd] in *. rewrite map_app. cbn [map].
    change (creaseKey (mkCrease (fst s) (snd s) V "perp")) with (segKey s).
    repeat split.
    + apply NoDup_app; [exact Hnd | repeat constructor; intros [] |].
      intros k Hk [<-|[]]. apply Hnew. now apply Hseen.
    + intros [<-|Hk]; apply in_or_app; [right; left; reflexivity|].
      left. now apply Hseen.
    + intro Hk. apply in_app_or in Hk. destruct Hk as [Hk|[<-|[]]];
        [right; now apply Hseen | left; reflexivity].
    + left. reflexivity.
    + intros k Hk. right. exact Hk.
Qed.

Lemma keepNew_fold (segs : list Segment) :
  forall st,
    seenInvariant st ->
    seenInvariant (fold_left keepNew segs st) /\
    (forall s, In s segs -> In (segKey s) (snd (fold_left keepNew segs st))) /\
    (forall k, In k (snd st) -> In k (snd (fold_left keepNew segs st))).
Proof.
  induction segs as [|s segs IH]; intros st Hinv; cbn [fold_left].
  - repeat split; try apply Hinv; auto. intros ? [].
  - destruct (keepNew_invariant st s Hinv) as (Hinv' & Hs & Hmono).
    destruct (IH _ Hinv') as (Hinv'' & Hsegs & Hmono').
    repeat split; try apply Hinv''.
    + intros s' [<-|Hin]; auto.
    + auto.
Qed.

(** ** Valley creases: the loops are the deduplication of the derived
    segments *)

Lemma perpStep_keepNew (sqrt : Q -> Q) (face2D : list Point) (e0 d : Point)
  (st : list Crease * list string) (v : FaceVertex) :
  perpStep sqrt face2D e0 d st v
  = fold_left keepNew (optionList (perpendicularOf sqrt face2D e0 d v)) st.
Proof.
  unfold perpStep. destruct st as [creases seen].
  destruct (perpendicularOf sqrt face2D e0 d v) as [[p q]|]; reflexivity.
Qed.

Lemma perpStep_fold (sqrt : Q -> Q) (face2D : list Point) (e0 d : Point)
  (face : list FaceVertex) :
  forall st,
    fold_left (perpStep sqrt face2D e0 d) face st
    = fold_left keepNew
        (flat_map (fun v => optionList (perpendicularOf sqrt face2D e0 d v)) face) st.
Proof.
  induction face as [|v face IH]; intro st; cbn [fold_left flat_map]; [reflexivity|].
  now rewrite fold_left_app, IH, perpStep_keepNew.
Qed.

Lemma faceStep_keepNew (sqrt : Q -> Q) (verts : list Vertex)
  (st : list Crease * list string) (poly : list nat) :
  faceStep sqrt verts st poly
  = let* segs := faceSegments sqrt verts poly in Ok (fold_left keepNew segs st).
Proof.
  unfold faceStep, faceSegments.
  destruct (mapM (faceVertex verts) poly) as [face|msg]; [|reflexivity].
  cbn [bind].
  destruct (List.length _ <? 2)%nat; [reflexivity|].
  destruct (farthestPair _) as [e0 e1].
  destruct (Qeq_bool _ 0 && Qeq_bool _ 0); [reflexivity|].
  cbn [bind]. now rewrite perpStep_fold.
Qed.

Lemma foldM_faceStep (sqrt : Q -> Q) (verts : list Vertex) (polys : list (list nat)) :
  forall st,
    foldM (faceStep sqrt verts) polys st
    = let* perFace := mapM (faceSegments sqrt verts) polys in
      Ok (fold_left keepNew (List.concat perFace) st).
Proof.
  induction polys as [|poly polys IH]; intro st; cbn [foldM mapM]; [reflexivity|].
  rewrite faceStep_keepNew.
  destruct (faceSegments sqrt verts poly) as [segs|msg]; [|reflexivity].
  cbn [bind]. rewrite IH.
  destruct (mapM (faceSegments sqrt verts) polys) as [perFace|msg]; [|reflexivity].
  cbn [bind List.concat]. now rewrite fold_left_app.
Qed.

(** The Valley creases are the derived segments run through the seen
    test. *)
Lemma buildPerpendiculars_dedup (sqrt : Q -> Q) (skeleton : Skeleton) :
  buildPerpendicularsFromFaces sqrt skeleton
  = let* segs := derivedSegments sqrt skeleton in
    Ok (fst (fold_left keepNew segs ([], []))).
Proof.
  unfold buildPerpendicularsFromFaces, derivedSegments.
  rewrite foldM_faceStep.
  destruct (mapM _ (polygons skeleton)); reflexivity.
Qed.

(** C4 (amended).  For every two derived perpendicular segments whose
    endpoints quantize, at tolerance 1e-2, to the same grid points (as
    undirected segments), the two keys are equal and the output has
    exactly one Valley crease of that key; the later segment is dropped
    by the seen set. *)
Theorem valley_dedup (sqrt : Q -> Q) (skeleton : Skeleton)
  (segs : list Segment) (s1 s2 : Segment) :
  derivedSegments sqrt skeleton = Ok segs ->
  In s1 segs -> In s2 segs ->
  sameCells s1 s2 ->
  segKey s1 = segKey s2 /\
  exists out,
    buildPerpendicularsFromFaces sqrt skeleton = Ok out /\
    count_occ string_dec (map creaseKey out) (segKey s1) = 1%nat /\
    Forall (fun c => kind c = V) out.
Proof.
  intros Hsegs H1 H2 Hcells.
  split; [now apply segKey_sameCells|].
  rewrite buildPerpendiculars_dedup, Hsegs. cbn [bind].
  eexists. split; [reflexivity|].
  destruct (keepNew_fold segs ([], [])) as ((Hnd & Hseen) & Hall & _).
  { split; [constructor | intro k; reflexivity]. }
  split.
  - apply NoDup_count_occ'; [exact Hnd|]. apply Hseen. now apply Hall.
  - clear. assert (G : forall st, Forall (fun c => kind c = V) (fst st) ->
                       Forall (fun c => kind c = V) (fst (fold_left keepNew segs st))).
    { induction segs as [|s segs IH]; intros st Hst; [exact Hst|].
      cbn [fold_left]. apply IH. destruct st as [creases seen]. unfold keepNew.
      destruct (existsb _ seen); [exact Hst|].
      cbn [fst] in *. apply Forall_app. split; [exact Hst|].
      repeat constructor. }
    apply G. constructor.
Qed.

(** The ridge from (5, 5) to (5.002, 5): the perpendiculars of its two
    ends fall in one grid cell and give one Valley crease. *)
Lemma valley_dedup_snug :
  segKey snugFirst = segKey snugSecond /\
  exists out,
    buildPerpendicularsFromFaces Qsqrt snugSkeleton = Ok out /\
    count_occ string_dec (map creaseKey out) (segKey snugFirst) = 1%nat /\
    Forall (fun c => kind c = V) out.
Proof.
  apply (valley_dedup Qsqrt snugSkeleton snugSegments snugFirst snugSecond).
  - vm_compute. reflexivity.
  - left. reflexivity.
  - right. left. reflexivity.
  - left. repeat split; vm_compute; reflexivity.
Defined.

(** C4 as stated fails: on the skeleton of the rectangle from (0.004, 0)
    to (10.006, 10) the perpendiculars of the two ridge ends have their
    endpoints 0.002 apart, less than the tolerance 1e-2, yet round to
    different grid points, get different keys, and both appear as Valley
    creases. *)
Lemma valley_creases_close_not_merged :
  exists (s1 s2 : Segment) (rest : list Segment) (out : list Crease),
    derivedSegments Qsqrt ridgeSkeleton = Ok (s1 :: s2 :: rest) /\
    samePoint (fst s1) (pt 5.006 5) /\ samePoint (snd s1) (pt 5.006 0) /\
    samePoint (fst s2) (pt 5.004 5) /\ samePoint (snd s2) (pt 5.004 0) /\
    closeBy (fst s1) (fst s2) /\ closeBy (snd s1) (snd s2) /\
    segKey s1 = "5.01,0|5.01,5"%string /\ segKey s2 = "5,0|5,5"%string /\
    segKey s1 <> segKey s2 /\
    buildPerpendicularsFromFaces Qsqrt ridgeSkeleton = Ok out /\
    nth_error out 0 = Some (mkCrease (fst s1) (snd s1) V "perp") /\
    nth_error out 1 = Some (mkCrease (fst s2) (snd s2) V "perp").
Proof.
  do 4 eexists.
  split; [vm_compute; reflexivity|].
  repeat split; try (vm_compute; reflexivity).
  vm_compute. discriminate.
Qed.

(** * Further properties of the kernel *)

(** ** Bounding box *)

Lemma bbox_fold_finite_x (pts : list Point) :
  forall a b c d : Q,
  exists a' b' c' d' : Q,
    fold_left bboxStep pts (Fin a, Fin b, Fin c, Fin d)
      = (Fin a', Fin b', Fin c', Fin d') /\
    (a' = a \/ In a' (map x pts)) /\ a' <= a /\
    (forall p, In p pts -> a' <= x p) /\
    (c' = c \/ In c' (map x pts)) /\ c <= c' /\
    (forall p, In p pts -> x p <= c').
Proof.
  induction pts as [|p pts IH]; intros a b c d.
  - exists a, b, c, d. simpl.
    repeat split; auto; try apply Qle_refl; intros ? [].
  - cbn [fold_left bboxStep minExt maxExt].
    destruct (IH (Qmin a (x p)) (Qmin b (y p)) (Qmax c (x p)) (Qmax d (y p)))
      as (a' & b' & c' & d' & E & Ha & Ha1 & Ha2 & Hc & Hc1 & Hc2).
    exists a', b', c', d'. split; [exact E|].
    pose proof (Q.le_min_l a (x p)). pose proof (Q.le_min_r a (x p)).
    pose proof (Q.le_max_l c (x p)). pose proof (Q.le_max_r c (x p)).
    repeat split.
    + destruct Ha as [Ha|Ha]; [|right; simpl; auto].
      destruct (Qmin_cases a (x p)) as [Hm|Hm]; rewrite Hm in Ha;
        [left | right; simpl; left]; congruence.
    + lra.
    + intros q [->|Hq]; [lra | auto].
    + destruct Hc as [Hc|Hc]; [|right; simpl; auto].
      destruct (Qmax_cases c (x p)) as [Hm|Hm]; rewrite Hm in Hc;
        [left | right; simpl; left]; congruence.
    + lra.
    + intros q [->|Hq]; [lra | auto].
Qed.

Lemma bboxOfPoints_x (pts : list Point) :
  pts <> [] ->
  In (minX (bboxOfPoints pts)) (map x pts) /\
  In (maxX (bboxOfPoints pts)) (map x pts) /\
  forall p, In p pts -> minX (bboxOfPoints pts) <= x p <= maxX (bboxOfPoints pts).
Proof.
  destruct pts as [|p pts]; [congruence|]. intros _.
  unfold bboxOfPoints. cbn [fold_left bboxStep minExt maxExt].
  destruct (bbox_fold_finite_x pts (x p) (y p) (x p) (y p))
    as (a' & b' & c' & d' & E & Ha & Ha1 & Ha2 & Hc & Hc1 & Hc2).
  rewrite E. cbn [isFinite negb valueOf minX maxX].
  repeat split.
  - destruct Ha as [->|Ha]; simpl; auto.
  - destruct Hc as [->|Hc]; simpl; auto.
  - destruct H as [<-|Hp]; [exact Ha1 | auto].
  - destruct H as [<-|Hp]; [exact Hc1 | auto].
Qed.

(** X1.  The box of an empty list is all zero; the box of any other list
    has for each bound a coordinate of the list, and holds every point of
    the list. *)
Theorem bboxOfPoints_encloses (pts : list Point) :
  match pts with
  | [] => bboxOfPoints pts = mkBBox 0 0 0 0
  | _ :: _ =>
      In (minX (bboxOfPoints pts)) (map x pts) /\
      In (maxX (bboxOfPoints pts)) (map x pts) /\
      In (minY (bboxOfPoints pts)) (map y pts) /\
      In (maxY (bboxOfPoints pts)) (map y pts) /\
      Forall (fun p =>
                minX (bboxOfPoints pts) <= x p <= maxX (bboxOfPoints pts) /\
                minY (bboxOfPoints pts) <= y p <= maxY (bboxOfPoints pts))
             pts
  end.
Proof.
  destruct pts as [|p pts]; [reflexivity|].
  destruct (bboxOfPoints_x (p :: pts)) as (Hx1 & Hx2 & Hx); [discriminate|].
  destruct (bboxOfPoints_y (p :: pts)) as (Hy1 & Hy2 & Hy); [discriminate|].
  repeat (split; [assumption|]).
  apply Forall_forall. intros q Hq. split; [apply Hx | apply Hy]; exact Hq.
Qed.

(** ** Point in polygon *)

Lemma fold_left_pointwise {A B : Type} (f g : A -> B -> A) (l : list B) :
  (forall a b, f a b = g a b) ->
  forall a, fold_left f l a = fold_left g l a.
Proof.
  intro H. induction l as [|b l IH]; intro a; simpl; [reflexivity|].
  now rewrite H, IH.
Qed.

Lemma pointInPolygon_rayStep (p : Point) (poly : list Point) :
  pointInPolygon p poly
  = fst (fold_left (rayStep p poly) (seq 0 (List.length poly))
                   (false, (List.length poly - 1)%nat)).
Proof.
  unfold pointInPolygon. f_equal.
  apply fold_left_pointwise. intros [inside j] i. reflexivity.
Qed.

Lemma at_In (l : list Point) (i : nat) : (i < List.length l)%nat -> In (at_ l i) l.
Proof. intro H. unfold at_. now apply nth_In. Qed.

(** Where no edge is crossed, the loop leaves [inside] as it was. *)
Lemma rayStep_no_crossing (p : Point) (poly : list Point) :
  (forall a b, In a poly -> In b poly -> crossesRay p a b = false) ->
  forall l st,
    (forall i, In i l -> (i < List.length poly)%nat) ->
    (snd st < List.length poly)%nat ->
    fst (fold_left (rayStep p poly) l st) = fst st.
Proof.
  intros Hno. induction l as [|i l IH]; intros st Hl Hj; [reflexivity|].
  cbn [fold_left]. rewrite IH.
  - unfold rayStep. cbn [fst].
    rewrite Hno; [reflexivity | apply at_In, Hl; now left | now apply at_In].
  - intros k Hk. apply Hl. now right.
  - unfold rayStep. cbn [snd]. apply Hl. now left.
Qed.

Lemma bbox_In (poly : list Point) (a : Point) :
  In a poly ->
  minX (bboxOfPoints poly) <= x a <= maxX (bboxOfPoints poly) /\
  minY (bboxOfPoints poly) <= y a <= maxY (bboxOfPoints poly).
Proof.
  intro Ha. assert (Hne : poly <> []) by (intros ->; destruct Ha).
  split; [now apply bboxOfPoints_x | now apply bboxOfPoints_y].
Qed.

(** X2.  A point strictly below or strictly above the bounding box of a
    polygon is not inside the polygon, whatever its abscissa: no edge
    has its ends on both sides of the height of the point, so the ray
    casting loop never toggles. *)
Theorem pointInPolygon_outside_band (p : Point) (poly : list Point) :
  y p < minY (bboxOfPoints poly) \/ maxY (bboxOfPoints poly) < y p ->
  pointInPolygon p poly = false /\
  forall a b, In a poly -> In b poly -> (y a >? y p) = (y b >? y p).
Proof.
  intro Hout.
  assert (Hside : forall a b, In a poly -> In b poly -> (y a >? y p) = (y b >? y p)).
  { intros a b Ha Hb.
    destruct (bbox_In poly a Ha) as [_ Hya].
    destruct (bbox_In poly b Hb) as [_ Hyb].
    destruct Hout as [Hbelow|Habove];
      destruct (y a >? y p) eqn:E1; destruct (y b >? y p) eqn:E2;
      try reflexivity; order_facts; lra. }
  split; [|exact Hside].
  rewrite pointInPolygon_rayStep.
  destruct poly as [|v poly'] eqn:Ep; [reflexivity|]. rewrite <- Ep in *.
  assert (Hn : (0 < List.length poly)%nat) by (subst poly; simpl; lia).
  rewrite rayStep_no_crossing; [reflexivity| | |cbn [snd]; lia].
  - intros a b Ha Hb. unfold crossesRay.
    rewrite (Hside a b Ha Hb). now rewrite Bool.eqb_reflx.
  - intros i Hi. apply in_seq in Hi. lia.
Qed.

(** A point above the 100 x 100 square, within its width. *)
Lemma pointInPolygon_outside_band_square :
  pointInPolygon (pt 50 103) [pt 0 0; pt 100 0; pt 100 100; pt 0 100] = false /\
  forall a b,
    In a [pt 0 0; pt 100 0; pt 100 100; pt 0 100] ->
    In b [pt 0 0; pt 100 0; pt 100 100; pt 0 100] ->
    (y a >? y (pt 50 103)) = (y b >? y (pt 50 103)).
Proof.
  apply (pointInPolygon_outside_band (pt 50 103)
           [pt 0 0; pt 100 0; pt 100 100; pt 0 100]).
  right. vm_compute. reflexivity.
Defined.

(** ** Farthest pair *)

Lemma fold_left_flat_map {A B C : Type} (f : A -> C -> A) (g : B -> list C) (l : list B) :
  forall a,
    fold_left f (flat_map g l) a = fold_left (fun a b => fold_left f (g b) a) l a.
Proof.
  induction l as [|b l IH]; intro a; simpl; [reflexivity|].
  now rewrite fold_left_app, IH.
Qed.

Lemma fold_left_map {A B C : Type} (f : A -> C -> A) (g : B -> C) (l : list B) :
  forall a, fold_left f (map g l) a = fold_left (fun a b => f a (g b)) l a.
Proof.
  induction l as [|b l IH]; intro a; simpl; [reflexivity | apply IH].
Qed.

Lemma farthestPair_pairStep (pts : list Point) :
  farthestPair pts
  = (let '(bestI, bestJ, _) :=
       fold_left (pairStep pts) (indexPairs (List.length pts)) (0%nat, 1%nat, NegInf) in
     (at_ pts bestI, at_ pts bestJ)).
Proof.
  assert (E : fold_left (pairStep pts) (indexPairs (List.length pts)) (0%nat, 1%nat, NegInf)
              = fold_left
                  (fun st i =>
                     fold_left (fun st j => pairStep pts st (i, j))
                               (seq (i + 1) (List.length pts - (i + 1))) st)
                  (seq 0 (List.length pts)) (0%nat, 1%nat, NegInf)).
  { unfold indexPairs. rewrite fold_left_flat_map.
    apply fold_left_pointwise. intros st i. apply fold_left_map. }
  rewrite E. unfold farthestPair. cbv zeta.
  match goal with
  | |- context [fold_left ?f (seq 0 (List.length pts)) (0%nat, 1%nat, NegInf)] =>
      replace (fold_left f (seq 0 (List.length pts)) (0%nat, 1%nat, NegInf))
        with (fold_left
                (fun st i =>
                   fold_left (fun st j => pairStep pts st (i, j))
                             (seq (i + 1) (List.length pts - (i + 1))) st)
                (seq 0 (List.length pts)) (0%nat, 1%nat, NegInf))
  end; [reflexivity|].
  apply fold_left_pointwise. intros st i.
  apply fold_left_pointwise. intros [[bI bJ] best] j. reflexivity.
Qed.

Lemma in_indexPairs (n i j : nat) : In (i, j) (indexPairs n) <-> (i < j < n)%nat.
Proof.
  unfold indexPairs. rewrite in_flat_map. split.
  - intros (k & Hk & Hin). apply in_map_iff in Hin.
    destruct Hin as (m & E & Hm). injection E as <- <-.
    apply in_seq in Hk. apply in_seq in Hm. lia.
  - intros H. exists i. split; [apply in_seq; lia|].
    apply in_map. apply in_seq. lia.
Qed.

(** What the loops keep: the best distance is that of the best pair, a
    pair already visited, and no visited pair is farther apart. *)
Lemma pairStep_fold (pts : list Point) (l : list (nat * nat)) :
  forall bI bJ best,
    let '(bI', bJ', best') := fold_left (pairStep pts) l (bI, bJ, best) in
    ((bI', bJ', best') = (bI, bJ, best) \/
     (In (bI', bJ') l /\ best' = Fin (dist2 (at_ pts bI') (at_ pts bJ')))) /\
    (forall ij, In ij l -> leExt (dist2 (at_ pts (fst ij)) (at_ pts (snd ij))) best') /\
    (forall v, leExt v best -> leExt v best').
Proof.
  induction l as [|[i j] l IH]; intros bI bJ best.
  - cbn [fold_left]. split; [now left|]. split; [intros ? []|auto].
  - cbn [fold_left]. unfold pairStep at 2. cbn [fst snd].
    change ((x (at_ pts i) - x (at_ pts j)) * (x (at_ pts i) - x (at_ pts j))
            + (y (at_ pts i) - y (at_ pts j)) * (y (at_ pts i) - y (at_ pts j)))
      with (dist2 (at_ pts i) (at_ pts j)).
    set (d2 := dist2 (at_ pts i) (at_ pts j)).
    destruct (gtExt d2 best) eqn:E.
    + specialize (IH i j (Fin d2)).
      destruct (fold_left (pairStep pts) l (i, j, Fin d2)) as [[bI' bJ'] best'].
      destruct IH as (Hbest & Hall & Hmono).
      split; [|split].
      * right. destruct Hbest as [Heq|[Hin Hb]].
        -- injection Heq as -> -> ->. split; [now left | reflexivity].
        -- split; [now right | exact Hb].
      * intros ij [<-|Hin]; [|now apply Hall].
        cbn [fst snd]. apply Hmono. cbn. apply Qle_refl.
      * intros v Hv. apply Hmono. destruct best as [a| |]; cbn in *;
          [order_facts; lra | discriminate | destruct Hv].
    + specialize (IH bI bJ best).
      destruct (fold_left (pairStep pts) l (bI, bJ, best)) as [[bI' bJ'] best'].
      destruct IH as (Hbest & Hall & Hmono).
      split; [|split].
      * destruct Hbest as [Heq|[Hin Hb]]; [now left | right; split; [now right | exact Hb]].
      * intros ij [<-|Hin]; [|now apply Hall].
        cbn [fst snd]. apply Hmono. fold d2. destruct best as [a| |]; cbn in *;
          [order_facts; exact E | exact I | discriminate].
      * exact Hmono.
Qed.

(** X3.  Of two points or more, [farthestPair] returns the points at two
    indices [i < j] whose squared distance no other pair of the list
    exceeds. *)
Theorem farthestPair_max (pts : list Point) :
  (2 <= List.length pts)%nat ->
  exists i j,
    (i < j < List.length pts)%nat /\
    farthestPair pts = (at_ pts i, at_ pts j) /\
    forall i' j',
      (i' < j' < List.length pts)%nat ->
      dist2 (at_ pts i') (at_ pts j') <= dist2 (at_ pts i) (at_ pts j).
Proof.
  intro Hlen. rewrite farthestPair_pairStep.
  pose proof (pairStep_fold pts (indexPairs (List.length pts)) 0%nat 1%nat NegInf) as H.
  destruct (fold_left (pairStep pts) (indexPairs (List.length pts)) (0%nat, 1%nat, NegInf))
    as [[bI bJ] best].
  destruct H as (Hbest & Hall & _).
  assert (H01 : In (0%nat, 1%nat) (indexPairs (List.length pts)))
    by (apply in_indexPairs; lia).
  destruct Hbest as [Heq|[Hin Hb]].
  - injection Heq as -> -> ->. destruct (Hall _ H01).
  - exists bI, bJ. split; [now apply in_indexPairs|]. split; [reflexivity|].
    intros i' j' Hij. apply in_indexPairs in Hij.
    specialize (Hall _ Hij). rewrite Hb in Hall. exact Hall.
Qed.

(** Among three points on a line the two ends are farthest apart. *)
Lemma farthestPair_max_line :
  exists i j,
    (i < j < 3)%nat /\
    farthestPair [pt 0 0; pt 7 0; pt 3 0] = (at_ [pt 0 0; pt 7 0; pt 3 0] i,
                                             at_ [pt 0 0; pt 7 0; pt 3 0] j) /\
    forall i' j',
      (i' < j' < 3)%nat ->
      dist2 (at_ [pt 0 0; pt 7 0; pt 3 0] i') (at_ [pt 0 0; pt 7 0; pt 3 0] j')
      <= dist2 (at_ [pt 0 0; pt 7 0; pt 3 0] i) (at_ [pt 0 0; pt 7 0; pt 3 0] j).
Proof.
  apply (farthestPair_max [pt 0 0; pt 7 0; pt 3 0]). simpl. lia.
Defined.

(** ** Simplicity and segment intersection *)

(** X4.  The simplicity check refuses every list of fewer than three
    points and accepts every list of three points, whatever they are:
    all edges of a triangle are adjacent, so none is tested. *)
Theorem isSimplePolygon_small (eps : Q) :
  isSimplePolygon [] eps = false /\
  (forall a, isSimplePolygon [a] eps = false) /\
  (forall a b, isSimplePolygon [a; b] eps = false) /\
  (forall a b c, isSimplePolygon [a; b; c] eps = true).
Proof. repeat split. Qed.

Lemma if_chain_orb (b0 b1 b2 b3 b4 : bool) :
  (if b0 then true else if b1 then true else if b2 then true
   else if b3 then true else if b4 then true else false)
  = b0 || b1 || b2 || b3 || b4.
Proof. destruct b0, b1, b2, b3, b4; reflexivity. Qed.

Lemma orient_repeat (a b : Point) : orient a b a == 0 /\ orient a b b == 0.
Proof. unfold orient, cross, sub. cbn [x y]. split; ring. Qed.

Lemma onSegment_end (a b : Point) (eps : Q) :
  0 <= eps -> onSegment a b a eps = true /\ onSegment a b b eps = true.
Proof.
  intro He. unfold onSegment.
  destruct (orient_repeat a b) as [Ea Eb].
  pose proof (Q.le_min_l (x a) (x b)). pose proof (Q.le_min_r (x a) (x b)).
  pose proof (Q.le_max_l (x a) (x b)). pose proof (Q.le_max_r (x a) (x b)).
  pose proof (Q.le_min_l (y a) (y b)). pose proof (Q.le_min_r (y a) (y b)).
  pose proof (Q.le_max_l (y a) (y b)). pose proof (Q.le_max_r (y a) (y b)).
  assert (Ha0 : Qabs (orient a b a) <= eps) by (rewrite Ea; exact He).
  assert (Hb0 : Qabs (orient a b b) <= eps) by (rewrite Eb; exact He).
  split; repeat (apply andb_true_intro; split); apply Qleb_le; lra.
Qed.

(** X5.  [segmentsIntersect] does not depend on the order of the two
    segments, and, for a tolerance that is not negative, two segments
    that share an endpoint always intersect: the reason why
    [isSimplePolygon] has to skip adjacent edges. *)
Theorem segmentsIntersect_touching (a b c d : Point) (eps : Q) :
  0 <= eps ->
  segmentsIntersect a b c d eps = segmentsIntersect c d a b eps /\
  segmentsIntersect a b a d eps = true /\
  segmentsIntersect a b b d eps = true /\
  segmentsIntersect a b c a eps = true /\
  segmentsIntersect a b c b eps = true.
Proof.
  intro He. unfold segmentsIntersect. rewrite !if_chain_orb.
  destruct (onSegment_end a b eps He) as [Ha Hb].
  destruct (orient_repeat a b) as [Ea Eb].
  assert (Ha0 : (Qabs (orient a b a) <=? eps) = true)
    by (apply Qleb_le; rewrite Ea; exact He).
  assert (Hb0 : (Qabs (orient a b b) <=? eps) = true)
    by (apply Qleb_le; rewrite Eb; exact He).
  split; [|rewrite Ha, Hb, Ha0, Hb0; cbn [andb];
           repeat split; rewrite ?orb_true_r; reflexivity].
  set (P := ((orient a b c >? eps) && (orient a b d <? - eps)
             || (orient a b c <? - eps) && (orient a b d >? eps))).
  set (R := ((orient c d a >? eps) && (orient c d b <? - eps)
             || (orient c d a <? - eps) && (orient c d b >? eps))).
  destruct P, R,
    ((Qabs (orient a b c) <=? eps) && onSegment a b c eps),
    ((Qabs (orient a b d) <=? eps) && onSegment a b d eps),
    ((Qabs (orient c d a) <=? eps) && onSegment c d a eps),
    ((Qabs (orient c d b) <=? eps) && onSegment c d b eps); reflexivity.
Qed.

(** With the tolerance of the engine, on two edges of a square. *)
Lemma segmentsIntersect_touching_square :
  segmentsIntersect (pt 0 0) (pt 10 0) (pt 10 10) (pt 0 10) 0.000000001
  = segmentsIntersect (pt 10 10) (pt 0 10) (pt 0 0) (pt 10 0) 0.000000001 /\
  segmentsIntersect (pt 0 0) (pt 10 0) (pt 0 0) (pt 0 10) 0.000000001 = true /\
  segmentsIntersect (pt 0 0) (pt 10 0) (pt 10 0) (pt 0 10) 0.000000001 = true /\
  segmentsIntersect (pt 0 0) (pt 10 0) (pt 10 10) (pt 0 0) 0.000000001 = true /\
  segmentsIntersect (pt 0 0) (pt 10 0) (pt 10 10) (pt 10 0) 0.000000001 = true.
Proof.
  apply (segmentsIntersect_touching (pt 0 0) (pt 10 0) (pt 10 10) (pt 0 10)).
  vm_compute. discriminate.
Defined.

(** ** Edge keys *)

(** X8.  The key of an undirected edge is the same for both directions
    of the edge, and depends on the endpoints only through the grid
    points they quantize to. *)
Theorem keyForUndirectedEdge_undirected (a b a' b' : Point) (q : Q) :
  keyForUndirectedEdge a b q = keyForUndirectedEdge b a q /\
  (samePoint (quantizePoint a q) (quantizePoint a' q) ->
   samePoint (quantizePoint b q) (quantizePoint b' q) ->
   keyForUndirectedEdge a b q = keyForUndirectedEdge a' b' q /\
   keyForUndirectedEdge a b q = keyForUndirectedEdge b' a' q).
Proof.
  split; [apply keyForUndirectedEdge_sym|].
  intros Ha Hb.
  assert (E : keyForUndirectedEdge a b q = keyForUndirectedEdge a' b' q).
  { rewrite !keyForUndirectedEdge_pointKey.
    now rewrite (pointKey_samePoint _ _ Ha), (pointKey_samePoint _ _ Hb). }
  split; [exact E|]. rewrite E. apply keyForUndirectedEdge_sym.
Qed.

(** ** Rectangles of the rectangle tool *)

Lemma far_apart (o : Q) :
  1 <= o \/ o <= -1 -> (Qabs o <=? 0.000000001) = false.
Proof.
  intro H. apply Qleb_gt.
  destruct H as [H|H].
  - rewrite Qabs_pos by lra. lra.
  - rewrite Qabs_neg by lra. lra.
Qed.

(** Two segments all of whose orientations are at least 1 do not
    intersect. *)
Lemma segmentsIntersect_same_side (a b c d : Point) :
  1 <= orient a b c -> 1 <= orient a b d ->
  1 <= orient c d a -> 1 <= orient c d b ->
  segmentsIntersect a b c d 0.000000001 = false.
Proof.
  intros H1 H2 H3 H4. unfold segmentsIntersect. rewrite if_chain_orb.
  rewrite !far_apart by (left; assumption). cbn [andb orb].
  assert (E1 : (orient a b c <? - (0.000000001)) = false) by (apply Qltb_ge; lra).
  assert (E2 : (orient a b d <? - (0.000000001)) = false) by (apply Qltb_ge; lra).
  rewrite E1, E2. cbn [andb orb]. rewrite andb_false_r. reflexivity.
Qed.

Lemma rectangle_simple (x1 y1 x2 y2 : Q) :
  5 <= x2 - x1 -> 5 <= y2 - y1 ->
  isSimplePolygon [pt x1 y1; pt x2 y1; pt x2 y2; pt x1 y2] 0.000000001 = true.
Proof.
  intros Hw Hh. unfold isSimplePolygon.
  cbn [List.length Nat.ltb Nat.leb seq forallb at_ nth Nat.add Nat.sub
       Nat.modulo Nat.divmod fst snd Nat.eqb andb].
  rewrite !segmentsIntersect_same_side; try reflexivity;
    unfold orient, cross, sub; cbn [x y]; nra.
Qed.

Lemma rectangle_collapse (x1 y1 x2 y2 : Q) :
  5 <= x2 - x1 -> 5 <= y2 - y1 ->
  collapse [pt x1 y1; pt x2 y1; pt x2 y2; pt x1 y2]
  = [pt x1 y1; pt x2 y1; pt x2 y2; pt x1 y2].
Proof.
  intros Hw Hh.
  assert (Hfar : forall u v : Q, 5 <= u - v \/ 5 <= v - u ->
                   (Qabs (u - v) <=? 0.000000001) = false).
  { intros u v H. apply Qleb_gt. destruct H as [H|H].
    - rewrite Qabs_pos by lra. lra.
    - rewrite Qabs_neg by lra. lra. }
  unfold collapse, collapseFrom, nearPoint. cbn [x y].
  rewrite (Hfar x1 x2) by (right; lra). cbn [andb].
  rewrite (Hfar y1 y2) by (right; lra). rewrite andb_false_r.
  rewrite (Hfar x2 x1) by (left; lra). cbn [andb].
  reflexivity.
Qed.

(** X13.  A rectangle that the rectangle tool does not refuse as too
    small (both sides at least 5) becomes a closed polygon that the ring
    builder accepts and converts to the four corners unchanged: no
    corner is collapsed and the ring passes the simplicity check, so
    neither the DegenerateRing nor the SelfIntersectingRing error can
    come from a rectangle the tool has added. *)
Theorem rectangle_ring (uid : string) (a b : Point) :
  Tools.rectTooSmall (Tools.rectToPoints a b) = false ->
  let shape := PolylineShape uid (Tools.rectToPoints a b) true in
  isClosedPolygon shape = true /\
  collapse (Tools.rectToPoints a b) = Tools.rectToPoints a b /\
  isSimplePolygon (Tools.rectToPoints a b) 0.000000001 = true /\
  ringFromShape shape = Ok (Tools.rectToPoints a b).
Proof.
  unfold Tools.rectTooSmall, Tools.rectToPoints. cbn [at_ nth x y].
  set (x1 := Qmin (x a) (x b)). set (x2 := Qmax (x a) (x b)).
  set (y1 := Qmin (y a) (y b)). set (y2 := Qmax (y a) (y b)).
  intro Hsmall. apply orb_false_elim in Hsmall. destruct Hsmall as [Hw Hh].
  order_facts.
  assert (Hx : x1 <= x2).
  { unfold x1, x2. pose proof (Q.le_min_l (x a) (x b)).
    pose proof (Q.le_max_l (x a) (x b)). lra. }
  assert (Hy : y1 <= y2).
  { unfold y1, y2. pose proof (Q.le_min_l (y a) (y b)).
    pose proof (Q.le_max_l (y a) (y b)). lra. }
  rewrite Qabs_pos in Hw by lra. rewrite Qabs_pos in Hh by lra.
  clearbody x1 x2 y1 y2.
  cbv zeta. split; [reflexivity|].
  split; [now apply rectangle_collapse|].
  split; [now apply rectangle_simple|].
  unfold ringFromShape, PolylineShape. cbn [points].
  rewrite !map_pt_id, cleanStep_collapse, rectangle_collapse by assumption.
  cbn [List.length Nat.ltb Nat.leb].
  now rewrite rectangle_simple.
Qed.

(** The rectangle dragged from (40, 90) to (10, 30). *)
Lemma rectangle_ring_dragged :
  let shape := PolylineShape "shape_r" (Tools.rectToPoints (pt 40 90) (pt 10 30)) true in
  isClosedPolygon shape = true /\
  collapse (Tools.rectToPoints (pt 40 90) (pt 10 30))
  = Tools.rectToPoints (pt 40 90) (pt 10 30) /\
  isSimplePolygon (Tools.rectToPoints (pt 40 90) (pt 10 30)) 0.000000001 = true /\
  ringFromShape shape = Ok (Tools.rectToPoints (pt 40 90) (pt 10 30)).
Proof.
  apply (rectangle_ring "shape_r" (pt 40 90) (pt 10 30)). reflexivity.
Defined.

(** * Further properties of the engine *)

(** ** Maps that may throw *)

Lemma mapM_length {A B : Type} (f : A -> Result B) (l : list A) (out : list B) :
  mapM f l = Ok out -> List.length out = List.length l.
Proof.
  intro H. apply mapM_Forall2 in H. symmetry. eapply Forall2_length. exact H.
Qed.

Lemma mapM_Throw {A B : Type} (f : A -> Result B) (l : list A) (msg : string) :
  mapM f l = Throw msg -> exists a, In a l /\ f a = Throw msg.
Proof.
  induction l as [|a l IH]; simpl; [discriminate|].
  destruct (f a) as [b|m] eqn:E; cbn [bind].
  - destruct (mapM f l) as [bs|m]; cbn [bind]; [discriminate|].
    intro H. destruct (IH H) as (a' & Hin & Ha'). eauto.
  - intro H. injection H as ->. eauto.
Qed.

Lemma mapM_total {A B : Type} (f : A -> Result B) (l : list A) :
  (forall a, In a l -> exists b, f a = Ok b) -> exists out, mapM f l = Ok out.
Proof.
  induction l as [|a l IH]; intro H; [eexists; reflexivity|].
  destruct (H a) as (b & Hb); [now left|].
  destruct IH as (bs & Hbs); [intros; apply H; now right|].
  exists (b :: bs). simpl. now rewrite Hb, Hbs.
Qed.

(** ** Rings *)

Lemma ringFromShape_unfold (s : Shape) (ps : list Point) :
  points s = Some ps ->
  ringFromShape s
  = (if (List.length (collapse ps) <? 3)%nat then Throw msgDegenerateRing
     else if isSimplePolygon (collapse ps) 0.000000001 then Ok (collapse ps)
     else Throw msgSelfIntersectingRing).
Proof.
  intro Hs. unfold ringFromShape. rewrite Hs, map_pt_id, cleanStep_collapse.
  destruct (List.length ps <? 3)%nat eqn:E1.
  - apply Nat.ltb_lt in E1. pose proof (collapse_length ps) as Hle.
    assert (E2 : (List.length (collapse ps) <? 3)%nat = true)
      by (apply Nat.ltb_lt; lia).
    now rewrite E2.
  - destruct (List.length (collapse ps) <? 3)%nat; [reflexivity|].
    destruct (isSimplePolygon (collapse ps) 0.000000001); reflexivity.
Qed.

Lemma collapseFrom_idempotent (l : list Point) :
  forall prev, collapseFrom prev (collapseFrom prev l) = collapseFrom prev l.
Proof.
  induction l as [|a l IH]; intro prev; [reflexivity|].
  cbn [collapseFrom]. destruct (nearPoint prev a) eqn:E.
  - apply IH.
  - cbn [collapseFrom]. rewrite E. f_equal. apply IH.
Qed.

Lemma collapse_idempotent (l : list Point) : collapse (collapse l) = collapse l.
Proof.
  destruct l as [|a l]; [reflexivity|].
  cbn [collapse]. f_equal. apply collapseFrom_idempotent.
Qed.

(** X14.  A ring that [ringFromShape] returns has at least three
    vertices, passes the simplicity check, has no vertex within 1e-9 (in
    both coordinates) of the vertex before it, and is a fixed point: a
    shape with the ring as its points converts to the same ring. *)
Theorem ringFromShape_ring (shape : Shape) (r : list Point) :
  ringFromShape shape = Ok r ->
  (3 <= List.length r)%nat /\
  isSimplePolygon r 0.000000001 = true /\
  (forall i p q,
     nth_error r i = Some p -> nth_error r (S i) = Some q -> nearPoint p q = false) /\
  (forall other, points other = Some r -> ringFromShape other = Ok r).
Proof.
  intro H. destruct (ringFromShape_Ok _ _ H) as [Hlen Hsimple].
  assert (Hr : exists ps, r = collapse ps).
  { destruct (points shape) as [ps|] eqn:Ep;
      [|unfold ringFromShape in H; rewrite Ep in H; discriminate].
    rewrite (ringFromShape_unfold _ _ Ep) in H.
    destruct (_ <? _)%nat; [discriminate|].
    destruct (isSimplePolygon _ _); [|discriminate].
    injection H as <-. eauto. }
  destruct Hr as (ps & ->).
  repeat split; try assumption.
  - intros i p q Hp Hq. destruct ps as [|a ps]; [destruct i; discriminate|].
    cbn [collapse] in Hp, Hq. eapply collapseFrom_far; eassumption.
  - intros other Ho. rewrite (ringFromShape_unfold _ _ Ho), collapse_idempotent.
    apply Nat.ltb_ge in Hlen. now rewrite Hlen, Hsimple.
Qed.

(** The triangle with a doubled first point. *)
Lemma ringFromShape_ring_triangle :
  (3 <= List.length [pt 0 0; pt 10 0; pt 0 10])%nat /\
  isSimplePolygon [pt 0 0; pt 10 0; pt 0 10] 0.000000001 = true /\
  (forall i p q,
     nth_error [pt 0 0; pt 10 0; pt 0 10] i = Some p ->
     nth_error [pt 0 0; pt 10 0; pt 0 10] (S i) = Some q -> nearPoint p q = false) /\
  (forall other,
     points other = Some [pt 0 0; pt 10 0; pt 0 10] ->
     ringFromShape other = Ok [pt 0 0; pt 10 0; pt 0 10]).
Proof.
  apply (ringFromShape_ring triangleShape). vm_compute. reflexivity.
Defined.

Lemma filter_others_length (infos : list RingInfo) (outer : RingInfo) :
  NoDup (map info_id infos) -> In outer infos ->
  S (List.length (filter (otherThan outer) infos)) = List.length infos.
Proof.
  induction infos as [|i infos IH]; intros Hnd Hin; [destruct Hin|].
  inversion Hnd as [|? ? Hfresh Hnd']; subst. cbn [filter map List.length] in *.
  destruct Hin as [->|Hin].
  - unfold otherThan at 1. rewrite String.eqb_refl. cbn [negb].
    f_equal. clear IH Hnd.
    induction infos as [|j infos IHj]; [reflexivity|].
    cbn [filter map In] in *.
    assert (Hj : otherThan outer j = true).
    { unfold otherThan. apply negb_true_iff, String.eqb_neq.
      intro E. apply Hfresh. left. exact E. }
    rewrite Hj. cbn [List.length]. f_equal. apply IHj.
    + intro H. apply Hfresh. now right.
    + now inversion Hnd'.
  - assert (Hi : otherThan outer i = true).
    { unfold otherThan. apply negb_true_iff, String.eqb_neq.
      intro E. apply Hfresh. rewrite E. now apply in_map. }
    rewrite Hi. cbn [List.length]. f_equal. now apply IH.
Qed.

Lemma ringInfos_ids (l : list Shape) (infos : list RingInfo) :
  Forall2 (fun a b => ringInfoOf a = Ok b) l infos ->
  map info_id infos = map id l.
Proof.
  induction 1 as [|a b l infos Hab _ IH]; [reflexivity|].
  cbn [map]. destruct (ringInfoOf_Ok a b Hab) as (Hid & _). now rewrite Hid, IH.
Qed.

Lemma filter_both (A : Type) (f g : A -> bool) (l : list A) :
  filter (fun a => f a && negb (g a)) l = [] ->
  filter (fun a => f a && g a) l = filter f l.
Proof.
  induction l as [|a l IH]; [reflexivity|]. cbn [filter].
  destruct (f a), (g a); cbn [andb negb]; try discriminate; intro H;
    rewrite ?IH by assumption; reflexivity.
Qed.

(** X15.  When the closed shapes have distinct identifiers, a successful
    build returns as many rings as the scene has closed shapes (the
    outer ring and one hole for each other shape), each of at least four
    entries. *)
Theorem buildRings_count (project : Project) (selectedId : option string) (res : Rings) :
  buildRingsFromProject project selectedId = Ok res ->
  NoDup (map id (closedShapes project)) ->
  List.length (rings res) = List.length (closedShapes project) /\
  Forall (fun out => (4 <= List.length out)%nat) (rings res).
Proof.
  intros H Hnd. apply buildRings_Ok in H.
  destruct H as (infos & outer & holes & Hinfos & Houter & Hc & Hrs & _).
  pose proof (mapM_Forall2 _ _ _ Hinfos) as HF.
  pose proof (ringInfos_rings _ _ HF) as Hlens.
  pose proof (chooseOuter_In _ _ _ Houter) as Hin.
  rewrite classify_filter in Hc. injection Hc as Hholes Hout.
  rewrite (filter_both _ _ _ _ Hout) in Hholes.
  split.
  - rewrite (mapM_length _ _ _ Hrs). cbn [List.length]. rewrite length_map.
    rewrite <- Hholes, <- (mapM_length _ _ _ Hinfos).
    apply filter_others_length; [|exact Hin].
    now rewrite (ringInfos_ids _ _ HF).
  - apply mapM_closeRing_Forall2 in Hrs.
    assert (Hnorm : Forall (fun r => (3 <= List.length r)%nat)
                      (ensureCCW (ring outer) :: map (fun h => ensureCW (ring h)) holes)).
    { rewrite Forall_forall in Hlens. constructor.
      - rewrite ensureCCW_length. now apply Hlens.
      - apply Forall_map. apply Forall_forall. intros h Hh.
        rewrite ensureCW_length. apply Hlens.
        rewrite <- Hholes in Hh. now apply filter_In in Hh. }
    clear - Hrs Hnorm. induction Hrs as [|out r outs rs Hr _ IH]; constructor.
    + destruct Hr as (first & rest & -> & ->).
      inversion Hnorm as [|? ? Hlen _]; subst.
      rewrite length_app, length_map. cbn [List.length] in *. lia.
    + apply IH. now inversion Hnorm.
Qed.

(** The square with the triangle inside it gives two rings. *)
Lemma buildRings_count_nested :
  List.length [[(0, 0); (100, 0); (100, 100); (0, 100); (0, 0)];
               [(30, 40); (40, 20); (20, 20); (30, 40)]]
  = List.length (closedShapes nestedProject) /\
  Forall (fun out : list (Q * Q) => (4 <= List.length out)%nat)
         [[(0, 0); (100, 0); (100, 100); (0, 100); (0, 0)];
          [(30, 40); (40, 20); (20, 20); (30, 40)]].
Proof.
  apply (buildRings_count nestedProject None
           (mkRings [[(0, 0); (100, 0); (100, 100); (0, 100); (0, 0)];
                     [(30, 40); (40, 20); (20, 20); (30, 40)]]
                    [pt 0 0; pt 100 0; pt 100 100; pt 0 100])).
  - vm_compute. reflexivity.
  - repeat constructor; simpl; intuition discriminate.
Defined.

(** ** Mountain creases *)

(** How often an edge is emitted. *)
Lemma extract_count (skeleton : Skeleton) (a b : nat) :
  count_occ Edge_eq_dec (extractInteriorEdgesFromSkeleton skeleton) (mkEdge a b)
  = if (2 <=? references (polygons skeleton) (a, b))%nat
       && separated (vertices skeleton) a b
    then 1%nat else 0%nat.
Proof.
  unfold extractInteriorEdgesFromSkeleton.
  rewrite extract_flat_map, app_nil_l, countEdges_tally.
  destruct (tally_keys (allEdges (polygons skeleton)) [])
    as [Hnd Hk]; [constructor | intros ? [] |].
  rewrite (emitted_count _ a b _ Hnd Hk).
  pose proof (tally_get (a, b) (allEdges (polygons skeleton)) []) as Hget.
  cbn [fst snd mapGet] in Hget. rewrite Hget. unfold references.
  destruct (count_occ pair_eq_dec (allEdges (polygons skeleton)) (a, b)) as [|n];
    [reflexivity|].
  now rewrite Nat.add_0_r.
Qed.

Lemma extract_separated (skeleton : Skeleton) (e : Edge) :
  In e (extractInteriorEdgesFromSkeleton skeleton) ->
  separated (vertices skeleton) (i0 e) (i1 e) = true.
Proof.
  destruct e as [a b]. intro Hin. cbn [i0 i1].
  apply (count_occ_In Edge_eq_dec) in Hin. rewrite extract_count in Hin.
  destruct (2 <=? _)%nat; cbn [andb] in Hin; [|lia].
  destruct (separated _ a b); [reflexivity | lia].
Qed.

(** X16.  The edges that [extractInteriorEdgesFromSkeleton] emits are
    pairwise different, and the engine turns each of them into a
    Mountain crease without ever reading a missing vertex: both ends are
    vertices of the skeleton, at a squared distance of at least 1e-10. *)
Theorem mountains_never_throw (skeleton : Skeleton) :
  NoDup (extractInteriorEdgesFromSkeleton skeleton) /\
  exists mountains,
    mapM (mountainOf skeleton) (extractInteriorEdgesFromSkeleton skeleton)
    = Ok mountains /\
    List.length mountains = List.length (extractInteriorEdgesFromSkeleton skeleton) /\
    Forall (fun c =>
              kind c = M /\ source c = "skeleton"%string /\
              0.0000000001 <= dist2 (seg_a c) (seg_b c))
           mountains.
Proof.
  split.
  - apply (NoDup_count_occ Edge_eq_dec). intros [a b]. rewrite extract_count.
    destruct (_ && _); lia.
  - assert (Hall : forall e, In e (extractInteriorEdgesFromSkeleton skeleton) ->
                     exists c, mountainOf skeleton e = Ok c /\
                               kind c = M /\ source c = "skeleton"%string /\
                               0.0000000001 <= dist2 (seg_a c) (seg_b c)).
    { intros e He. apply extract_separated in He.
      unfold separated in He. unfold mountainOf.
      destruct (nth_error (vertices skeleton) (i0 e)) as [v0|]; [|discriminate].
      destruct (nth_error (vertices skeleton) (i1 e)) as [v1|]; [|discriminate].
      eexists. split; [reflexivity|]. cbn [kind source seg_a seg_b].
      repeat split. apply negb_true_iff in He. order_facts.
      unfold dist2. cbn [x y]. exact He. }
    destruct (mapM_total (mountainOf skeleton) (extractInteriorEdgesFromSkeleton skeleton))
      as (ms & Hms).
    { intros e He. destruct (Hall e He) as (c & Hc & _). eauto. }
    exists ms. split; [exact Hms|]. split; [now apply mapM_length in Hms|].
    apply mapM_Forall2 in Hms. revert Hall.
    induction Hms as [|e c es cs Hec _ IH]; intro Hall; constructor.
    + destruct (Hall e) as (c' & Hc' & Hprops); [now left|]. congruence.
    + apply IH. intros e' He'. apply Hall. now right.
Qed.

(** X17.  The key of an edge in the map of counts decodes to the two
    indices it was made from, so different pairs have different keys. *)
Theorem edgeKey_roundtrip (a b a' b' : nat) :
  split "|" (edgeKey a b) = [natToString a; natToString b] /\
  numberOf (nth_error (split "|" (edgeKey a b)) 0) = Some a /\
  numberOf (nth_error (split "|" (edgeKey a b)) 1) = Some b /\
  (edgeKey a b = edgeKey a' b' <-> a = a' /\ b = b').
Proof.
  rewrite split_edgeKey. cbn [nth_error numberOf].
  rewrite !Number_natToString.
  repeat split; try reflexivity.
  - now apply edgeKey_inj in H.
  - now apply edgeKey_inj in H.
  - intros [-> ->]. reflexivity.
Qed.

(** ** Valley creases *)

Lemma faceVertex_Ok (verts : list Vertex) (i : nat) (v : FaceVertex) :
  faceVertex verts i = Ok v ->
  exists vtx, nth_error verts i = Some vtx /\
              fx v = c0 vtx /\ fy v = c1 vtx /\ ft v = c2 vtx.
Proof.
  unfold faceVertex. destruct (nth_error verts i) as [vtx|]; [|discriminate].
  intro H. injection H as <-. eauto.
Qed.

Lemma faceVertex_range (verts : list Vertex) (i : nat) :
  match faceVertex verts i with
  | Ok _ => (i < List.length verts)%nat
  | Throw msg => msg = msgTypeError /\ (List.length verts <= i)%nat
  end.
Proof.
  unfold faceVertex. destruct (nth_error verts i) eqn:E.
  - apply nth_error_Some. congruence.
  - split; [reflexivity | now apply nth_error_None].
Qed.

Lemma mapM_faceVertex (verts : list Vertex) (poly : list nat) :
  match mapM (faceVertex verts) poly with
  | Ok _ => Forall (fun i => (i < List.length verts)%nat) poly
  | Throw msg => msg = msgTypeError /\ Exists (fun i => (List.length verts <= i)%nat) poly
  end.
Proof.
  induction poly as [|i poly IH]; cbn [mapM]; [constructor|].
  pose proof (faceVertex_range verts i) as Hi.
  destruct (faceVertex verts i) as [v|msg]; cbn [bind].
  - destruct (mapM (faceVertex verts) poly) as [vs|msg]; cbn [bind].
    + now constructor.
    + destruct IH as [-> IH]. split; [reflexivity | now apply Exists_cons_tl].
  - destruct Hi as [-> Hi]. split; [reflexivity | now apply Exists_cons_hd].
Qed.

Lemma faceSegments_range (sqrt : Q -> Q) (verts : list Vertex) (poly : list nat) :
  match faceSegments sqrt verts poly with
  | Ok _ => Forall (fun i => (i < List.length verts)%nat) poly
  | Throw msg => msg = msgTypeError /\ Exists (fun i => (List.length verts <= i)%nat) poly
  end.
Proof.
  unfold faceSegments. pose proof (mapM_faceVertex verts poly) as H.
  destruct (mapM (faceVertex verts) poly) as [face|msg]; cbn [bind]; [|exact H].
  destruct (_ <? 2)%nat; [exact H|].
  destruct (farthestPair _) as [e0 e1].
  destruct (Qeq_bool _ 0 && Qeq_bool _ 0); exact H.
Qed.

(** X18.  [buildPerpendicularsFromFaces] throws exactly when some face
    names a vertex index outside the vertex array, and then it throws a
    TypeError; with all indices in range it returns its creases. *)
Theorem perpendiculars_throw_iff (sqrt : Q -> Q) (skeleton : Skeleton) :
  match buildPerpendicularsFromFaces sqrt skeleton with
  | Ok _ =>
      Forall (Forall (fun i => (i < List.length (vertices skeleton))%nat))
             (polygons skeleton)
  | Throw msg =>
      msg = msgTypeError /\
      Exists (Exists (fun i => (List.length (vertices skeleton) <= i)%nat))
             (polygons skeleton)
  end.
Proof.
  rewrite buildPerpendiculars_dedup. unfold derivedSegments.
  generalize (polygons skeleton) as polys.
  assert (H : forall polys,
             match mapM (faceSegments sqrt (vertices skeleton)) polys with
             | Ok _ =>
                 Forall (Forall (fun i => (i < List.length (vertices skeleton))%nat)) polys
             | Throw msg =>
                 msg = msgTypeError /\
                 Exists (Exists (fun i => (List.length (vertices skeleton) <= i)%nat)) polys
             end).
  { induction polys as [|poly polys IH]; cbn [mapM]; [constructor|].
    pose proof (faceSegments_range sqrt (vertices skeleton) poly) as Hp.
    destruct (faceSegments sqrt (vertices skeleton) poly) as [segs|msg]; cbn [bind].
    - destruct (mapM (faceSegments sqrt (vertices skeleton)) polys) as [ss|msg];
        cbn [bind].
      + now constructor.
      + destruct IH as [-> IH]. split; [reflexivity | now apply Exists_cons_tl].
    - destruct Hp as [-> Hp]. split; [reflexivity | now apply Exists_cons_hd]. }
  intro polys. specialize (H polys).
  destruct (mapM (faceSegments sqrt (vertices skeleton)) polys); exact H.
Qed.

Lemma perpendicularOf_Some (sqrt : Q -> Q) (face2D : list Point) (e0 d : Point)
  (v : FaceVertex) (s : Segment) :
  perpendicularOf sqrt face2D e0 d v = Some s ->
  fst s = pt (fx v) (fy v) /\ EPS_TIME < ft v.
Proof.
  unfold perpendicularOf. destruct (ft v <=? EPS_TIME) eqn:E; [discriminate|].
  destruct (Qeq_bool _ 0 && Qeq_bool _ 0); [discriminate|].
  destruct (fold_left _ _ None); [|discriminate].
  intro H. injection H as <-. order_facts. auto.
Qed.

Lemma mapM_faceVertex_In (verts : list Vertex) (poly : list nat) (face : list FaceVertex) :
  mapM (faceVertex verts) poly = Ok face ->
  forall v, In v face ->
    exists vtx, In vtx verts /\ fx v = c0 vtx /\ fy v = c1 vtx /\ ft v = c2 vtx.
Proof.
  intro H. apply mapM_Forall2 in H.
  induction H as [|i v poly face Hiv _ IH]; intros w Hw; [destruct Hw|].
  destruct Hw as [<-|Hw]; [|now apply IH].
  apply faceVertex_Ok in Hiv. destruct Hiv as (vtx & Hn & Hx).
  exists vtx. split; [now apply nth_error_In in Hn | exact Hx].
Qed.

Lemma faceSegments_origin (sqrt : Q -> Q) (verts : list Vertex) (poly : list nat)
  (segs : list Segment) :
  faceSegments sqrt verts poly = Ok segs ->
  forall s, In s segs ->
    exists vtx, In vtx verts /\ EPS_TIME < c2 vtx /\ fst s = pt (c0 vtx) (c1 vtx).
Proof.
  unfold faceSegments.
  destruct (mapM (faceVertex verts) poly) as [face|msg] eqn:Ef; [|discriminate].
  cbn [bind].
  destruct (_ <? 2)%nat; [intro H; injection H as <-; intros ? []|].
  destruct (farthestPair _) as [e0 e1].
  destruct (Qeq_bool _ 0 && Qeq_bool _ 0); [intro H; injection H as <-; intros ? []|].
  intro H. injection H as <-. intros s Hs.
  apply in_flat_map in Hs. destruct Hs as (v & Hv & Hs).
  destruct (perpendicularOf sqrt _ e0 _ v) as [s'|] eqn:Ep; [|destruct Hs].
  destruct Hs as [<-|[]].
  destruct (perpendicularOf_Some _ _ _ _ _ _ Ep) as [Hfst Ht].
  destruct (mapM_faceVertex_In _ _ _ Ef v Hv) as (vtx & Hin & Hx & Hy & Htv).
  exists vtx. split; [exact Hin|]. split; [now rewrite <- Htv|].
  now rewrite Hfst, Hx, Hy.
Qed.

Lemma derivedSegments_origin (sqrt : Q -> Q) (skeleton : Skeleton) (segs : list Segment) :
  derivedSegments sqrt skeleton = Ok segs ->
  forall s, In s segs ->
    exists vtx, In vtx (vertices skeleton) /\ EPS_TIME < c2 vtx /\
                fst s = pt (c0 vtx) (c1 vtx).
Proof.
  unfold derivedSegments. intro H. apply bind_Ok in H.
  destruct H as (perFace & Hper & H). injection H as <-.
  apply mapM_Forall2 in Hper. intros s Hs.
  apply in_concat in Hs. destruct Hs as (fs & Hfs & Hs).
  clear - Hper Hfs Hs.
  induction Hper as [|poly fs' polys per Hp _ IH]; [destruct Hfs|].
  destruct Hfs as [->|Hfs]; [eapply faceSegments_origin; eassumption | now apply IH].
Qed.

Lemma keepNew_origin (segs : list Segment) :
  forall st c,
    In c (fst (fold_left keepNew segs st)) ->
    In c (fst st) \/ exists s, In s segs /\ c = mkCrease (fst s) (snd s) V "perp".
Proof.
  induction segs as [|s segs IH]; intros st c Hc; [now left|].
  cbn [fold_left] in Hc. apply IH in Hc.
  destruct Hc as [Hc|(s' & Hs' & Hc)]; [|right; exists s'; split; [now right | exact Hc]].
  destruct st as [creases seen]. unfold keepNew in Hc.
  destruct (existsb _ seen); [now left|].
  cbn [fst] in Hc. apply in_app_or in Hc.
  destruct Hc as [Hc|[<-|[]]]; [now left|].
  right. exists s. split; [now left | reflexivity].
Qed.

(** X19.  The Valley creases returned have pairwise different keys, and
    each is a perpendicular that starts at a skeleton vertex whose time
    is above [EPS_TIME]. *)
Theorem valley_creases_origin (sqrt : Q -> Q) (skeleton : Skeleton) (out : list Crease) :
  buildPerpendicularsFromFaces sqrt skeleton = Ok out ->
  NoDup (map creaseKey out) /\
  Forall (fun c =>
            kind c = V /\ source c = "perp"%string /\
            startsAtRaisedVertex (vertices skeleton) c)
         out.
Proof.
  rewrite buildPerpendiculars_dedup. intro H. apply bind_Ok in H.
  destruct H as (segs & Hsegs & H). injection H as <-.
  split.
  - destruct (keepNew_fold segs ([], [])) as ((Hnd & _) & _); [|exact Hnd].
    split; [constructor | intro k; reflexivity].
  - apply Forall_forall. intros c Hc. apply keepNew_origin in Hc.
    destruct Hc as [[]|(s & Hs & ->)]. cbn [kind source].
    split; [reflexivity|]. split; [reflexivity|].
    destruct (derivedSegments_origin _ _ _ Hsegs s Hs) as (vtx & Hin & Ht & Hfst).
    exists vtx. cbn [seg_a]. auto.
Qed.

(** On the skeleton of the rectangle with the short ridge. *)
Lemma valley_creases_origin_ridge :
  exists out,
    buildPerpendicularsFromFaces Qsqrt ridgeSkeleton = Ok out /\
    NoDup (map creaseKey out) /\
    Forall (fun c =>
              kind c = V /\ source c = "perp"%string /\
              startsAtRaisedVertex (vertices ridgeSkeleton) c)
           out.
Proof.
  destruct (buildPerpendicularsFromFaces Qsqrt ridgeSkeleton) as [out|msg] eqn:E;
    [|vm_compute in E; discriminate].
  exists out. split; [reflexivity|].
  exact (valley_creases_origin Qsqrt ridgeSkeleton out E).
Defined.

(** ** The run as a whole *)

Lemma mountainCreases_spec (skeleton : Skeleton) :
  mapM (mountainOf skeleton) (extractInteriorEdgesFromSkeleton skeleton)
  = Ok (mountainCreases skeleton) /\
  Forall (fun c => kind c = M) (mountainCreases skeleton).
Proof.
  unfold mountainCreases.
  assert (H : forall es, Forall (fun e => separated (vertices skeleton) (i0 e) (i1 e) = true) es ->
            exists ms, mapM (mountainOf skeleton) es = Ok ms /\
                       Forall (fun c => kind c = M) ms).
  { induction 1 as [|e es He _ IH]; [exists []; split; [reflexivity | constructor]|].
    destruct IH as (ms & Hms & HM). unfold separated in He. cbn [mapM].
    unfold mountainOf at 1.
    destruct (nth_error (vertices skeleton) (i0 e)); [|discriminate].
    destruct (nth_error (vertices skeleton) (i1 e)); [|discriminate].
    cbn [bind]. rewrite Hms. cbn [bind]. eexists. split; [reflexivity|].
    constructor; [reflexivity | exact HM]. }
  destruct (H (extractInteriorEdgesFromSkeleton skeleton)) as (ms & Hms & HM).
  { apply Forall_forall. intros e. apply extract_separated. }
  rewrite Hms. auto.
Qed.

(** X20.  A run fails with the error of the loader, and then nothing
    else is evaluated; else with the error of the ring builder, and then
    the library is not called; else with an exception of the library's
    [buildFromPolygon], with the skeleton failure when it returns
    nothing, or with the TypeError of a face index out of range.  On
    success the bundle holds the rings built, the skeleton returned, the
    Mountain creases followed by the Valley creases, and the cut line.
    With a loader that resolves to a builder that does not throw, the
    run is [run]. *)
Theorem runLoaded_outcome (sqrt : Q -> Q)
  (load : Result (list (list (Q * Q)) -> Result (option Skeleton)))
  (project : Project) (selectedId : option string) (viewport : Viewport) :
  runLoaded sqrt load project selectedId viewport
  = match load with
    | Throw msg => Throw msg
    | Ok buildFromPolygon =>
        match buildRingsFromProject project selectedId with
        | Throw msg => Throw msg
        | Ok built =>
            match buildFromPolygon (rings built) with
            | Throw msg => Throw msg
            | Ok None => Throw msgSkeletonFailed
            | Ok (Some skeleton) =>
                match buildPerpendicularsFromFaces sqrt skeleton with
                | Throw msg => Throw msg
                | Ok perps =>
                    Ok (mkResultBundle (rings built) skeleton
                                       (mountainCreases skeleton ++ perps)
                                       (cutLineOf skeleton viewport))
                end
            end
        end
    end /\
  (forall solver : list (list (Q * Q)) -> option Skeleton,
     load = Ok (fun rs => Ok (solver rs)) ->
     runLoaded sqrt load project selectedId viewport
     = run sqrt solver project selectedId viewport) /\
  match runLoaded sqrt load project selectedId viewport with
  | Throw _ => True
  | Ok bundle =>
      exists n,
        Forall (fun c => kind c = M) (firstn n (creases bundle)) /\
        Forall (fun c => kind c = V) (skipn n (creases bundle))
  end.
Proof.
  assert (E : runLoaded sqrt load project selectedId viewport
              = match load with
                | Throw msg => Throw msg
                | Ok buildFromPolygon =>
                    match buildRingsFromProject project selectedId with
                    | Throw msg => Throw msg
                    | Ok built =>
                        match buildFromPolygon (rings built) with
                        | Throw msg => Throw msg
                        | Ok None => Throw msgSkeletonFailed
                        | Ok (Some skeleton) =>
                            match buildPerpendicularsFromFaces sqrt skeleton with
                            | Throw msg => Throw msg
                            | Ok perps =>
                                Ok (mkResultBundle (rings built) skeleton
                                                   (mountainCreases skeleton ++ perps)
                                                   (cutLineOf skeleton viewport))
                            end
                        end
                    end
                end).
  { unfold runLoaded. destruct load as [buildFromPolygon|msg]; [|reflexivity].
    cbn [bind].
    destruct (buildRingsFromProject project selectedId) as [built|msg]; [|reflexivity].
    cbn [bind].
    destruct (buildFromPolygon (rings built)) as [[skeleton|]|msg]; try reflexivity.
    cbn [bind].
    destruct (mountainCreases_spec skeleton) as [Hms _]. rewrite Hms. cbn [bind].
    destruct (buildPerpendicularsFromFaces sqrt skeleton); reflexivity. }
  split; [exact E|]. split.
  - intros solver ->. unfold runLoaded, run. cbn [bind].
    destruct (buildRingsFromProject project selectedId) as [built|msg]; [|reflexivity].
    cbn [bind]. destruct (solver (rings built)); reflexivity.
  - rewrite E. destruct load as [buildFromPolygon|msg]; [|exact I].
    destruct (buildRingsFromProject project selectedId) as [built|msg]; [|exact I].
    destruct (buildFromPolygon (rings built)) as [[skeleton|]|msg]; try exact I.
    destruct (buildPerpendicularsFromFaces sqrt skeleton) as [perps|msg] eqn:Ep; [|exact I].
    cbn [creases]. exists (List.length (mountainCreases skeleton)).
    rewrite firstn_app, Nat.sub_diag, firstn_all, firstn_O, app_nil_r.
    rewrite skipn_app, Nat.sub_diag, skipn_all, skipn_O, app_nil_l.
    split; [apply mountainCreases_spec|].
    rewrite buildPerpendiculars_dedup in Ep. apply bind_Ok in Ep.
    destruct Ep as (segs & _ & Ep). injection Ep as <-.
    apply Forall_forall. intros c Hc. apply keepNew_origin in Hc.
    destruct Hc as [[]|(s & _ & ->)]. reflexivity.
Qed.

(** * Properties of the document model *)

(** ** Nearest vertex *)

Lemma nearestStep_fold (ps : list Point) (p : Point) (eps : Q) (l : list nat) :
  let st := fold_left (nearestStep ps p eps) l ((-1)%Z, PosInf) in
  (st = ((-1)%Z, PosInf) /\ forall j, In j l -> vertexWithin ps p eps j = false) \/
  (exists i,
     st = (Z.of_nat i, Fin (vertexD2 ps p i)) /\ In i l /\
     vertexWithin ps p eps i = true /\
     forall j, In j l -> vertexWithin ps p eps j = true ->
               vertexD2 ps p i <= vertexD2 ps p j).
Proof.
  induction l as [|k l IH] using rev_ind; cbv zeta.
  - left. split; [reflexivity | intros ? []].
  - rewrite fold_left_app. cbn [fold_left]. cbv zeta in IH.
    set (st0 := fold_left (nearestStep ps p eps) l ((-1)%Z, PosInf)) in *.
    unfold nearestStep.
    change (dist2 p (at_ ps k)) with (vertexD2 ps p k).
    change (vertexD2 ps p k <=? eps * eps) with (vertexWithin ps p eps k).
    clearbody st0.
    destruct IH as [[-> Hnone]|(i & -> & Hin & Hw & Hmin)]; cbn [snd ltExt].
    + rewrite andb_true_r. destruct (vertexWithin ps p eps k) eqn:Ek.
      * right. exists k. split; [reflexivity|]. split; [apply in_or_app; right; now left|].
        split; [exact Ek|]. intros j Hj Hwj. apply in_app_or in Hj.
        destruct Hj as [Hj|[<-|[]]]; [|apply Qle_refl].
        rewrite (Hnone j Hj) in Hwj. discriminate.
      * left. split; [reflexivity|]. intros j Hj. apply in_app_or in Hj.
        destruct Hj as [Hj|[<-|[]]]; auto.
    + destruct (vertexWithin ps p eps k && (vertexD2 ps p k <? vertexD2 ps p i)) eqn:Ek.
      * apply andb_prop in Ek. destruct Ek as [Ek Hlt]. order_facts.
        right. exists k. split; [reflexivity|]. split; [apply in_or_app; right; now left|].
        split; [exact Ek|]. intros j Hj Hwj. apply in_app_or in Hj.
        destruct Hj as [Hj|[<-|[]]]; [|apply Qle_refl].
        specialize (Hmin j Hj Hwj). lra.
      * right. exists i. split; [reflexivity|]. split; [apply in_or_app; now left|].
        split; [exact Hw|]. intros j Hj Hwj. apply in_app_or in Hj.
        destruct Hj as [Hj|[<-|[]]]; [now apply Hmin|].
        rewrite Hwj in Ek. cbn [andb] in Ek. order_facts. exact Ek.
Qed.

(** X21.  [nearestVertex] returns -1 exactly when no vertex is within
    [eps] of the point; otherwise it returns the index of a vertex that
    is within [eps] and at least as close as every other such vertex. *)
Theorem nearestVertex_closest (ps : list Point) (p : Point) (eps : Q) :
  (nearestVertex ps p eps = (-1)%Z /\
   forall j, (j < List.length ps)%nat -> eps * eps < dist2 p (at_ ps j)) \/
  (exists i,
     nearestVertex ps p eps = Z.of_nat i /\ (i < List.length ps)%nat /\
     dist2 p (at_ ps i) <= eps * eps /\
     forall j, (j < List.length ps)%nat -> dist2 p (at_ ps j) <= eps * eps ->
               dist2 p (at_ ps i) <= dist2 p (at_ ps j)).
Proof.
  assert (E : nearestVertex ps p eps
              = fst (fold_left (nearestStep ps p eps) (seq 0 (List.length ps))
                               ((-1)%Z, PosInf))).
  { reflexivity. }
  rewrite E.
  destruct (nearestStep_fold ps p eps (seq 0 (List.length ps)))
    as [[-> Hnone]|(i & -> & Hin & Hw & Hmin)].
  - left. split; [reflexivity|]. intros j Hj.
    assert (Hj' : In j (seq 0 (List.length ps))) by (apply in_seq; lia).
    specialize (Hnone j Hj'). unfold vertexWithin, vertexD2 in Hnone.
    order_facts. exact Hnone.
  - right. exists i. split; [reflexivity|]. apply in_seq in Hin.
    split; [lia|]. unfold vertexWithin, vertexD2 in *. order_facts.
    split; [exact Hw|]. intros j Hj Hwj. apply Hmin; [apply in_seq; lia|].
    now apply Qleb_le.
Qed.

(** ** Removing a shape *)

Lemma removeShapeById_dropFirst (project : Project) (i : string) :
  shapes (removeShapeById project i)
  = dropFirst (fun s => String.eqb (id s) i) (shapes project).
Proof.
  unfold removeShapeById. destruct project as [l]. cbn [shapes].
  assert (H : forall l,
             match findIndex (fun s => String.eqb (id s) i) l with
             | Some idx => splice1 idx l
             | None => l
             end = dropFirst (fun s => String.eqb (id s) i) l).
  { clear. induction l as [|s l IH]; [reflexivity|].
    cbn [findIndex dropFirst]. destruct (String.eqb (id s) i); [reflexivity|].
    destruct (findIndex _ l) as [idx|]; cbn [option_map].
    - unfold splice1 in *. cbn [firstn skipn app]. now rewrite <- IH.
    - now rewrite <- IH. }
  specialize (H l). destruct (findIndex _ l); cbn [shapes]; exact H.
Qed.

Lemma find_dropFirst_other {A : Type} (p q : A -> bool) (l : list A) :
  (forall a, p a = true -> q a = false) ->
  find q (dropFirst p l) = find q l.
Proof.
  intro H. induction l as [|a l IH]; [reflexivity|].
  cbn [dropFirst find]. destruct (p a) eqn:Ep.
  - now rewrite (H a Ep).
  - cbn [find]. now rewrite IH.
Qed.

(** X22.  [removeShapeById] removes the first shape of the identifier
    and nothing else: the project is unchanged when no shape has it,
    every other identifier is looked up as before, and when the
    identifiers are distinct the removed one is no longer found. *)
Theorem removeShapeById_lookup (project : Project) (i : string) :
  shapes (removeShapeById project i)
  = dropFirst (fun s => String.eqb (id s) i) (shapes project) /\
  (getShapeById project i = None -> removeShapeById project i = project) /\
  (forall k, k <> i ->
     getShapeById (removeShapeById project i) k = getShapeById project k) /\
  (NoDup (map id (shapes project)) -> getShapeById (removeShapeById project i) i = None).
Proof.
  split; [apply removeShapeById_dropFirst|]. split; [|split].
  - unfold getShapeById, removeShapeById. intro Hnone.
    assert (E : findIndex (fun s => String.eqb (id s) i) (shapes project) = None).
    { induction (shapes project) as [|s l IH]; [reflexivity|].
      cbn [find findIndex] in *. destruct (String.eqb (id s) i); [discriminate|].
      now rewrite IH. }
    now rewrite E.
  - intros k Hk. unfold getShapeById. rewrite removeShapeById_dropFirst.
    apply find_dropFirst_other. intros s Hs. apply String.eqb_eq in Hs.
    apply String.eqb_neq. congruence.
  - intro Hnd. unfold getShapeById. rewrite removeShapeById_dropFirst.
    induction (shapes project) as [|s l IH]; [reflexivity|].
    inversion Hnd as [|? ? Hfresh Hnd']; subst. cbn [dropFirst find].
    destruct (String.eqb (id s) i) eqn:E.
    + apply String.eqb_eq in E. subst i.
      destruct (find (fun s0 => String.eqb (id s0) (id s)) l) as [t|] eqn:Ef;
        [|reflexivity].
      apply find_some in Ef. destruct Ef as [Hin Et]. apply String.eqb_eq in Et.
      exfalso. apply Hfresh. rewrite <- Et. now apply in_map.
    + cbn [find]. rewrite E. now apply IH.
Qed.

(** In the scene of the square and the open polyline. *)
Lemma removeShapeById_lookup_mixed :
  shapes (removeShapeById mixedProject "shape_sq") = [openShape] /\
  (getShapeById mixedProject "shape_sq" = None ->
   removeShapeById mixedProject "shape_sq" = mixedProject) /\
  (forall k, k <> "shape_sq"%string ->
     getShapeById (removeShapeById mixedProject "shape_sq") k
     = getShapeById mixedProject k) /\
  (NoDup (map id (shapes mixedProject)) ->
   getShapeById (removeShapeById mixedProject "shape_sq") "shape_sq" = None).
Proof.
  apply (removeShapeById_lookup mixedProject "shape_sq").
Defined.

(** ** Shapes as plain objects *)

Lemma project_eq (p1 p2 : Project) : shapes p1 = shapes p2 -> p1 = p2.
Proof. destruct p1, p2. cbn. now intros ->. Qed.

Lemma PolylineShape_wellFormed (uid : string) (pts : list Point) (isClosed : bool) :
  wellFormedShape (PolylineShape uid pts isClosed).
Proof. split; [eexists|]; reflexivity. Qed.

(** Reading back what [toJSON] wrote. *)
Lemma fromJSON_toJSON (uid : string) (s : Shape) :
  wellFormedShape s -> id s <> EmptyString ->
  ShapeFactory_fromJSON uid (toJSON s) = s /\ PolylineShape_fromJSON uid (toJSON s) = s.
Proof.
  destruct s as [i t c pts]. intros [[ps Hps] Ht] Hid. cbn [points type closed id] in *.
  subst pts t.
  assert (E : PolylineShape_fromJSON uid
                (toJSON (mkShape i (if c then "polygon" else "polyline") c (Some ps)))
              = mkShape i (if c then "polygon" else "polyline") c (Some ps)).
  { unfold PolylineShape_fromJSON, toJSON, PolylineShape, truthyString.
    cbn [points id type closed j_points j_closed j_type j_id].
    apply String.eqb_neq in Hid. rewrite Hid. cbn [negb].
    rewrite !map_pt_id. destruct c; reflexivity. }
  split; [|exact E].
  unfold ShapeFactory_fromJSON.
  assert (Ht : truthyString
                 (j_type (toJSON (mkShape i (if c then "polygon" else "polyline") c
                                    (Some ps)))) = true)
    by (destruct c; reflexivity).
  rewrite Ht. exact E.
Qed.

(** X23.  A polyline shape with a non-empty identifier survives the
    round trip through its plain object: [fromJSON] of [toJSON] gives
    the shape back, identifier, type, closed flag and points, and writes
    the same object again.  An object without a type is read as an
    empty open polyline under a new identifier: its own identifier and
    points are dropped. *)
Theorem shape_json_roundtrip (uid : string) (s : Shape) :
  wellFormedShape s -> id s <> EmptyString ->
  ShapeFactory_fromJSON uid (toJSON s) = s /\
  toJSON (ShapeFactory_fromJSON uid (toJSON s)) = toJSON s /\
  (forall obj, j_type obj = None ->
     ShapeFactory_fromJSON uid obj = mkShape uid "polyline" false (Some [])).
Proof.
  intros Hwf Hid. destruct (fromJSON_toJSON uid s Hwf Hid) as [E _].
  split; [exact E|]. split; [now rewrite E|].
  intros obj Hobj. unfold ShapeFactory_fromJSON, truthyString. now rewrite Hobj.
Qed.

(** The 100 x 100 square. *)
Lemma shape_json_roundtrip_square :
  ShapeFactory_fromJSON "shape_new" (toJSON squareShape) = squareShape /\
  toJSON (ShapeFactory_fromJSON "shape_new" (toJSON squareShape)) = toJSON squareShape /\
  (forall obj, j_type obj = None ->
     ShapeFactory_fromJSON "shape_new" obj = mkShape "shape_new" "polyline" false (Some [])).
Proof.
  apply (shape_json_roundtrip "shape_new" squareShape).
  - split; [eexists|]; reflexivity.
  - discriminate.
Defined.

(** * Properties of the history *)

Lemma pop_snoc {Cmd : Type} (stack : list Cmd) (cmd : Cmd) :
  History.pop Cmd (stack ++ [cmd]) = Some (cmd, stack).
Proof.
  unfold History.pop. rewrite rev_app_distr. cbn [rev app].
  now rewrite rev_involutive.
Qed.

Lemma pop_nil {Cmd : Type} (stack : list Cmd) :
  History.pop Cmd stack = None -> stack = [].
Proof.
  unfold History.pop. destruct (rev stack) eqn:E; [|discriminate].
  intros _. apply (f_equal (@rev _)) in E. now rewrite rev_involutive in E.
Qed.

Lemma dropFirst_snoc {A : Type} (p : A -> bool) (l : list A) (a : A) :
  (forall b, In b l -> p b = false) -> p a = true -> dropFirst p (l ++ [a]) = l.
Proof.
  intros Hl Ha. induction l as [|b l IH]; cbn [app dropFirst]; [now rewrite Ha|].
  rewrite (Hl b) by now left. f_equal. apply IH. intros; apply Hl; now right.
Qed.

Lemma dropFirst_middle {A : Type} (p : A -> bool) (l1 l2 : list A) (a : A) :
  (forall b, In b l1 -> p b = false) -> p a = true ->
  dropFirst p (l1 ++ a :: l2) = l1 ++ l2.
Proof.
  intros Hl Ha. induction l1 as [|b l1 IH]; cbn [app dropFirst]; [now rewrite Ha|].
  rewrite (Hl b) by now left. f_equal. apply IH. intros; apply Hl; now right.
Qed.

Lemma fromJSON_id (uid i : string) (obj : ShapeJSON) :
  j_id obj = Some i -> i <> EmptyString -> truthyString (j_type obj) = true ->
  id (ShapeFactory_fromJSON uid obj) = i.
Proof.
  intros Hid Hi Ht. unfold ShapeFactory_fromJSON, PolylineShape_fromJSON.
  rewrite Ht, Hid. cbn [negb]. unfold truthyString.
  apply String.eqb_neq in Hi. rewrite Hi. reflexivity.
Qed.

(** X24.  Undoing the addition of a shape restores the project exactly,
    provided the object added carries a type and a non-empty identifier
    that no shape of the project has yet; the command moves from the
    undo stack to the redo stack. *)
Theorem add_shape_undo (uid uid' i : string) (obj : ShapeJSON)
  (m : History.UndoManager History.Command) (project : Project) :
  j_id obj = Some i -> i <> EmptyString -> truthyString (j_type obj) = true ->
  (forall s, In s (shapes project) -> id s <> i) ->
  History.undo History.Command (History.cmdUndo uid')
    (History.exec History.Command (History.cmdDo uid)
       (History.AddShapeCommand obj) (m, project))
  = (History.mkUndoManager History.Command
       (History.undoStack History.Command m) [History.AddShapeCommand obj],
     project).
Proof.
  intros Hid Hi Ht Hfresh.
  unfold History.exec, History.undo.
  cbn [History.undoStack History.redoStack]. rewrite pop_snoc. cbn [app].
  f_equal. cbn [History.cmdDo History.cmdUndo]. unfold History.removeByJSONId.
  rewrite Hid. apply project_eq. rewrite removeShapeById_dropFirst. cbn [shapes].
  apply dropFirst_snoc.
  - intros s Hs. apply String.eqb_neq. now apply Hfresh.
  - apply String.eqb_eq. now apply fromJSON_id.
Qed.

(** Adding the triangle to the scene of the square. *)
Lemma add_shape_undo_triangle :
  History.undo History.Command (History.cmdUndo "u2")
    (History.exec History.Command (History.cmdDo "u1")
       (History.AddShapeCommand (toJSON innerTriangle))
       (History.newUndoManager History.Command, squareProject))
  = (History.mkUndoManager History.Command
       [] [History.AddShapeCommand (toJSON innerTriangle)],
     squareProject).
Proof.
  apply (add_shape_undo "u1" "u2" "shape_in" (toJSON innerTriangle)
           (History.newUndoManager History.Command) squareProject).
  - reflexivity.
  - discriminate.
  - reflexivity.
  - intros s [<-|[]]. discriminate.
Defined.

(** X25.  Undoing the removal of a shape brings the shape back, but at
    the end of the shape list, not at the place it was removed from. *)
Theorem remove_shape_undo (uid uid' : string) (s : Shape) (l1 l2 : list Shape)
  (m : History.UndoManager History.Command) (project : Project) :
  shapes project = l1 ++ s :: l2 ->
  (forall t, In t l1 -> id t <> id s) ->
  wellFormedShape s -> id s <> EmptyString ->
  History.undo History.Command (History.cmdUndo uid')
    (History.exec History.Command (History.cmdDo uid)
       (History.RemoveShapeCommand (toJSON s)) (m, project))
  = (History.mkUndoManager History.Command
       (History.undoStack History.Command m) [History.RemoveShapeCommand (toJSON s)],
     mkProject (l1 ++ l2 ++ [s])).
Proof.
  intros Hshapes Hfirst Hwf Hid.
  unfold History.exec, History.undo.
  cbn [History.undoStack History.redoStack]. rewrite pop_snoc. cbn [app].
  f_equal. cbn [History.cmdDo History.cmdUndo].
  destruct (fromJSON_toJSON uid' s Hwf Hid) as [E _]. rewrite E.
  assert (Hj : j_id (toJSON s) = Some (id s)).
  { unfold toJSON. destruct (points s); reflexivity. }
  unfold History.removeByJSONId. rewrite Hj.
  apply project_eq. cbn [shapes]. rewrite removeShapeById_dropFirst, Hshapes.
  rewrite dropFirst_middle.
  - now rewrite app_assoc.
  - intros t Ht. apply String.eqb_neq. now apply Hfirst.
  - apply String.eqb_refl.
Qed.

(** Removing the square from under the triangle: after the undo the
    square is on top. *)
Lemma remove_shape_undo_nested :
  History.undo History.Command (History.cmdUndo "u2")
    (History.exec History.Command (History.cmdDo "u1")
       (History.RemoveShapeCommand (toJSON squareShape))
       (History.newUndoManager History.Command, nestedProject))
  = (History.mkUndoManager History.Command
       [] [History.RemoveShapeCommand (toJSON squareShape)],
     mkProject [innerTriangle; squareShape]).
Proof.
  apply (remove_shape_undo "u1" "u2" squareShape [] [innerTriangle]
           (History.newUndoManager History.Command) nestedProject).
  - reflexivity.
  - intros t [].
  - split; [eexists|]; reflexivity.
  - discriminate.
Defined.

Lemma findIndex_middle {A : Type} (p : A -> bool) (l1 l2 : list A) (a : A) :
  (forall b, In b l1 -> p b = false) -> p a = true ->
  findIndex p (l1 ++ a :: l2) = Some (List.length l1).
Proof.
  intros Hl Ha. induction l1 as [|b l1 IH]; cbn [app findIndex List.length];
    [now rewrite Ha|].
  rewrite (Hl b) by now left. rewrite IH by (intros; apply Hl; now right).
  reflexivity.
Qed.

Lemma setAt_middle {A : Type} (l1 l2 : list A) (a v : A) :
  History.setAt (List.length l1) v (l1 ++ a :: l2) = l1 ++ v :: l2.
Proof.
  induction l1 as [|b l1 IH]; cbn [app List.length History.setAt];
    [reflexivity | now rewrite IH].
Qed.

(** What [fromJSON] reads back apart from the identifier. *)
Lemma fromJSON_toJSON_fields (uid : string) (s : Shape) :
  wellFormedShape s ->
  type (ShapeFactory_fromJSON uid (toJSON s)) = type s /\
  closed (ShapeFactory_fromJSON uid (toJSON s)) = closed s /\
  points (ShapeFactory_fromJSON uid (toJSON s)) = points s.
Proof.
  destruct s as [i t c pts]. intros [[ps Hps] Ht]. cbn [points type closed id] in *.
  subst pts t.
  unfold ShapeFactory_fromJSON, PolylineShape_fromJSON, toJSON, PolylineShape, truthyString.
  cbn [points id type closed j_points j_closed j_type j_id].
  rewrite !map_pt_id.
  destruct c; cbn; destruct (String.eqb i EmptyString); cbn; repeat split; reflexivity.
Qed.

(** X26.  An update replaces the shape in place: the shapes before and
    after it are untouched and the shape keeps its identifier, whatever
    identifier the new object carries.  Undoing the update with the
    object of the shape as it was restores the project exactly. *)
Theorem update_shape_undo (uid uid' : string) (s : Shape) (afterJSON : ShapeJSON)
  (l1 l2 : list Shape) (project : Project) :
  shapes project = l1 ++ s :: l2 ->
  (forall t, In t l1 -> id t <> id s) ->
  wellFormedShape s ->
  let cmd := History.UpdateShapeCommand (id s) (toJSON s) afterJSON in
  (exists s',
     shapes (History.cmdDo uid cmd project) = l1 ++ s' :: l2 /\
     id s' = id s /\
     type s' = type (ShapeFactory_fromJSON uid afterJSON) /\
     points s' = points (ShapeFactory_fromJSON uid afterJSON)) /\
  History.cmdUndo uid' cmd (History.cmdDo uid cmd project) = project.
Proof.
  intros Hshapes Hfirst Hwf cmd.
  assert (Hfalse : forall t, In t l1 -> String.eqb (id t) (id s) = false)
    by (intros t Ht; apply String.eqb_neq; now apply Hfirst).
  set (new := ShapeFactory_fromJSON uid afterJSON).
  set (s' := mkShape (id s) (type new) (closed new) (points new)).
  assert (Hdo : History.cmdDo uid cmd project = mkProject (l1 ++ s' :: l2)).
  { unfold cmd. cbn [History.cmdDo]. unfold History.applyUpdate.
    rewrite Hshapes, findIndex_middle by (auto using String.eqb_refl).
    now rewrite setAt_middle. }
  split.
  - exists s'. rewrite Hdo. repeat split.
  - rewrite Hdo. unfold cmd. cbn [History.cmdUndo]. unfold History.applyUpdate.
    cbn [shapes]. rewrite findIndex_middle by (auto using String.eqb_refl).
    rewrite setAt_middle. apply project_eq. cbn [shapes]. rewrite Hshapes.
    destruct (fromJSON_toJSON_fields uid' s Hwf) as (-> & -> & ->).
    destruct s; reflexivity.
Qed.

(** Replacing the square of the nested scene by the far square. *)
Lemma update_shape_undo_nested :
  let cmd := History.UpdateShapeCommand (id squareShape) (toJSON squareShape)
               (toJSON farSquare) in
  (exists s',
     shapes (History.cmdDo "u1" cmd nestedProject) = [] ++ s' :: [innerTriangle] /\
     id s' = id squareShape /\
     type s' = type (ShapeFactory_fromJSON "u1" (toJSON farSquare)) /\
     points s' = points (ShapeFactory_fromJSON "u1" (toJSON farSquare))) /\
  History.cmdUndo "u2" cmd (History.cmdDo "u1" cmd nestedProject) = nestedProject.
Proof.
  apply (update_shape_undo "u1" "u2" squareShape (toJSON farSquare) [] [innerTriangle]
           nestedProject).
  - reflexivity.
  - intros t [].
  - split; [eexists|]; reflexivity.
Defined.

Section UndoManagerLaws.
Variable Cmd : Type.
Variable run_do : Cmd -> Project -> Project.
Variable run_undo : Cmd -> Project -> Project.

Local Abbreviation exec := (History.exec Cmd run_do).
Local Abbreviation undo := (History.undo Cmd run_undo).
Local Abbreviation redo := (History.redo Cmd run_do).
Local Abbreviation undoStack := (History.undoStack Cmd).
Local Abbreviation redoStack := (History.redoStack Cmd).

(** X27.  With a command on the undo stack, [undo] then [redo] leaves
    both stacks as they were and the project as the command's [undo]
    followed by its [do] leaves it; [undo] alone moves the command to
    the redo stack. *)
Theorem undo_then_redo (m : History.UndoManager Cmd) (project : Project)
  (cmd : Cmd) (rest : list Cmd) :
  undoStack m = rest ++ [cmd] ->
  undo (m, project)
  = (History.mkUndoManager Cmd rest (redoStack m ++ [cmd]), run_undo cmd project) /\
  redo (undo (m, project)) = (m, run_do cmd (run_undo cmd project)).
Proof.
  intro Hstack.
  assert (E : undo (m, project)
              = (History.mkUndoManager Cmd rest (redoStack m ++ [cmd]),
                 run_undo cmd project)).
  { unfold History.undo. now rewrite Hstack, pop_snoc. }
  split; [exact E|]. rewrite E. unfold History.redo.
  cbn [History.redoStack History.undoStack]. rewrite pop_snoc, <- Hstack.
  destruct m. reflexivity.
Qed.

(** X28.  The undo stack followed by the redo stack read backwards is
    the timeline of the session.  [undo] and [redo] never change it:
    they move its cursor by one command, [undo] running the [undo] of
    the last command of the undo stack and [redo] the [do] of the last
    command of the redo stack, and they do nothing at all when their
    stack is empty.  [exec] cuts the timeline at the cursor and puts the
    command at its end. *)
Theorem history_timeline (cmd : Cmd) (m : History.UndoManager Cmd) (project : Project) :
  (timeline (fst (exec cmd (m, project))) = undoStack m ++ [cmd] /\
   redoStack (fst (exec cmd (m, project))) = [] /\
   snd (exec cmd (m, project)) = run_do cmd project) /\
  (timeline (fst (undo (m, project))) = timeline m /\
   match undoStack m with
   | [] => undo (m, project) = (m, project)
   | _ :: _ =>
       undoStack (fst (undo (m, project))) = removelast (undoStack m) /\
       snd (undo (m, project)) = run_undo (last (undoStack m) cmd) project
   end) /\
  (timeline (fst (redo (m, project))) = timeline m /\
   match redoStack m with
   | [] => redo (m, project) = (m, project)
   | _ :: _ =>
       redoStack (fst (redo (m, project))) = removelast (redoStack m) /\
       snd (redo (m, project)) = run_do (last (redoStack m) cmd) project
   end).
Proof.
  assert (Hcase : forall stack : list Cmd,
             stack = [] \/ exists rest top, stack = rest ++ [top]).
  { intro stack. destruct stack as [|c l] using rev_ind; [now left|].
    right. now exists l, c. }
  assert (Hsnoc : forall (rest : list Cmd) (top : Cmd) (P Q : Prop),
             Q -> match rest ++ [top] with [] => P | _ :: _ => Q end).
  { intros rest top P Q HQ. destruct rest; exact HQ. }
  destruct m as [us rs]. unfold timeline. cbn [History.undoStack History.redoStack].
  split; [|split].
  - unfold History.exec. cbn [fst snd History.undoStack History.redoStack rev app].
    now rewrite app_nil_r.
  - unfold History.undo. cbn [History.undoStack History.redoStack].
    destruct (Hcase us) as [->|(rest & top & ->)].
    + cbn. split; reflexivity.
    + rewrite pop_snoc. cbn [fst snd History.undoStack History.redoStack].
      split.
      * rewrite rev_app_distr. cbn [rev app]. now rewrite <- app_assoc.
      * apply Hsnoc. now rewrite removelast_last, last_last.
  - unfold History.redo. cbn [History.undoStack History.redoStack].
    destruct (Hcase rs) as [->|(rest & top & ->)].
    + cbn. split; reflexivity.
    + rewrite pop_snoc. cbn [fst snd History.undoStack History.redoStack].
      split.
      * rewrite rev_app_distr. cbn [rev app]. now rewrite <- app_assoc.
      * apply Hsnoc. now rewrite removelast_last, last_last.
Qed.
End UndoManagerLaws.

(** An undo and a redo of the addition of the triangle. *)
Lemma undo_then_redo_triangle :
  History.undo History.Command (History.cmdUndo "u")
    (History.mkUndoManager History.Command
       [History.AddShapeCommand (toJSON innerTriangle)] [],
     nestedProject)
  = (History.mkUndoManager History.Command
       [] ([] ++ [History.AddShapeCommand (toJSON innerTriangle)]),
     History.cmdUndo "u" (History.AddShapeCommand (toJSON innerTriangle)) nestedProject) /\
  History.redo History.Command (History.cmdDo "u")
    (History.undo History.Command (History.cmdUndo "u")
       (History.mkUndoManager History.Command
          [History.AddShapeCommand (toJSON innerTriangle)] [],
        nestedProject))
  = (History.mkUndoManager History.Command
       [History.AddShapeCommand (toJSON innerTriangle)] [],
     History.cmdDo "u" (History.AddShapeCommand (toJSON innerTriangle))
       (History.cmdUndo "u" (History.AddShapeCommand (toJSON innerTriangle))
          nestedProject)).
Proof.
  apply (undo_then_redo History.Command (History.cmdDo "u") (History.cmdUndo "u")
           (History.mkUndoManager History.Command
              [History.AddShapeCommand (toJSON innerTriangle)] [])
           nestedProject (History.AddShapeCommand (toJSON innerTriangle)) []).
  reflexivity.
Defined.

(** * Properties of the exporter *)

Lemma noSep_append (c : ascii) (s1 s2 : string) :
  noSep c (s1 ++ s2) = noSep c s1 && noSep c s2.
Proof.
  induction s1 as [|d s1 IH]; cbn [String.append noSep]; [reflexivity|].
  rewrite IH. now rewrite andb_assoc.
Qed.

Lemma replaceAll_removes (c : ascii) (r s : string) :
  noSep c r = true -> noSep c (Exporter.replaceAll c r s) = true.
Proof.
  intro Hr. induction s as [|d s IH]; cbn [Exporter.replaceAll noSep]; [reflexivity|].
  destruct (Ascii.eqb d c) eqn:E.
  - rewrite noSep_append, Hr, IH. reflexivity.
  - cbn [noSep]. now rewrite E, IH.
Qed.

Lemma replaceAll_keeps (d c : ascii) (r s : string) :
  noSep d r = true -> noSep d s = true -> noSep d (Exporter.replaceAll c r s) = true.
Proof.
  intros Hr. induction s as [|e s IH]; cbn [Exporter.replaceAll noSep]; [reflexivity|].
  intro Hs. apply andb_prop in Hs. destruct Hs as [He Hs].
  destruct (Ascii.eqb e c).
  - rewrite noSep_append, Hr, IH by assumption. reflexivity.
  - cbn [noSep]. now rewrite He, IH.
Qed.

Lemma replaceAll_absent (c : ascii) (r s : string) :
  noSep c s = true -> Exporter.replaceAll c r s = s.
Proof.
  induction s as [|d s IH]; cbn [Exporter.replaceAll noSep]; [reflexivity|].
  intro Hs. apply andb_prop in Hs. destruct Hs as [Hd Hs].
  apply negb_true_iff in Hd. now rewrite Hd, IH.
Qed.

(** X29.  The text that [esc] returns holds none of the characters [<],
    [>], double quote and single quote, whatever the input; a text
    without these and without [&] is returned unchanged. *)
Theorem esc_safe (s : string) :
  noSep Exporter.lessThan (Exporter.esc s) = true /\
  noSep Exporter.greaterThan (Exporter.esc s) = true /\
  noSep Exporter.doubleQuote (Exporter.esc s) = true /\
  noSep Exporter.singleQuote (Exporter.esc s) = true /\
  (noSep Exporter.ampersand s && noSep Exporter.lessThan s
   && noSep Exporter.greaterThan s && noSep Exporter.doubleQuote s
   && noSep Exporter.singleQuote s = true ->
   Exporter.esc s = s).
Proof.
  unfold Exporter.esc.
  set (s1 := Exporter.replaceAll Exporter.ampersand "&amp;" s).
  set (s2 := Exporter.replaceAll Exporter.lessThan "&lt;" s1).
  set (s3 := Exporter.replaceAll Exporter.greaterThan "&gt;" s2).
  set (s4 := Exporter.replaceAll Exporter.doubleQuote "&quot;" s3).
  assert (H2 : noSep Exporter.lessThan s2 = true)
    by (apply replaceAll_removes; reflexivity).
  assert (H3 : noSep Exporter.lessThan s3 = true /\ noSep Exporter.greaterThan s3 = true).
  { split; [apply replaceAll_keeps; [reflexivity | exact H2]
           | apply replaceAll_removes; reflexivity]. }
  assert (H4 : noSep Exporter.lessThan s4 = true /\ noSep Exporter.greaterThan s4 = true
               /\ noSep Exporter.doubleQuote s4 = true).
  { destruct H3. repeat split;
      [apply replaceAll_keeps; [reflexivity | assumption] ..
      | apply replaceAll_removes; reflexivity]. }
  destruct H4 as (Ha & Hb & Hc).
  split; [apply replaceAll_keeps; [reflexivity | exact Ha]|].
  split; [apply replaceAll_keeps; [reflexivity | exact Hb]|].
  split; [apply replaceAll_keeps; [reflexivity | exact Hc]|].
  split; [apply replaceAll_removes; reflexivity|].
  intro Hclean. repeat (apply andb_prop in Hclean; destruct Hclean as [Hclean ?]).
  unfold s4, s3, s2, s1.
  rewrite (replaceAll_absent Exporter.ampersand) by assumption.
  rewrite (replaceAll_absent Exporter.lessThan) by assumption.
  rewrite (replaceAll_absent Exporter.greaterThan) by assumption.
  rewrite (replaceAll_absent Exporter.doubleQuote) by assumption.
  now apply replaceAll_absent.
Qed.

(** * Properties of the arithmetic in binary64 *)

(** ** The specification of the operations

    Facts of the IEEE 754 operations, read off their specification:
    negating the operands negates the result, up to the sign of a zero. *)

Section SpecFloatFacts.
Import SpecFloat.
Variables prec emax : Z.

Lemma same_refl (u : spec_float) : same u u.
Proof. reflexivity. Qed.

Lemma same_sym (u v : spec_float) : same u v -> same v u.
Proof. unfold same. congruence. Qed.

Lemma same_trans (u v w : spec_float) : same u v -> same v w -> same u w.
Proof. unfold same. congruence. Qed.

Lemma binary_round_aux_opp (s : bool) (m e : Z) (l : location) :
  binary_round_aux prec emax (negb s) m e l
  = SFopp (binary_round_aux prec emax s m e l).
Proof.
  unfold binary_round_aux.
  destruct (shr_fexp prec emax m e l) as [mrs' e'].
  destruct (shr_fexp prec emax _ e' loc_Exact) as [mrs'' e''].
  destruct (shr_m mrs''); [reflexivity | | reflexivity].
  destruct (Z.leb e'' (Z.sub emax prec)); reflexivity.
Qed.

Lemma binary_normalize_opp (m e : Z) :
  same (binary_normalize prec emax (- m) e false)
       (SFopp (binary_normalize prec emax m e false)).
Proof.
  unfold same. destruct m as [|p|p]; cbn [Z.opp binary_normalize]; [reflexivity| |].
  - unfold binary_round. destruct (shl_align _ _ _) as [mz ez].
    now rewrite (binary_round_aux_opp false).
  - unfold binary_round. destruct (shl_align _ _ _) as [mz ez].
    rewrite (binary_round_aux_opp false).
    destruct (binary_round_aux prec emax false (Z.pos mz) ez loc_Exact)
      as [[]|[]| |[] ? ?]; reflexivity.
Qed.

Lemma cond_Zopp_negb (s : bool) (m : Z) : cond_Zopp (negb s) m = (- cond_Zopp s m)%Z.
Proof. destruct s; cbn; lia. Qed.

Lemma SFadd_comm (u v : spec_float) : SFadd prec emax u v = SFadd prec emax v u.
Proof.
  destruct u as [[]|[]| |su mu eu], v as [[]|[]| |sv mv ev]; try reflexivity.
  cbn [SFadd]. now rewrite Z.min_comm, Z.add_comm.
Qed.

Lemma SFadd_opp (u v : spec_float) :
  same (SFadd prec emax (SFopp u) (SFopp v)) (SFopp (SFadd prec emax u v)).
Proof.
  destruct u as [[]|[]| |su mu eu], v as [[]|[]| |sv mv ev]; try reflexivity.
  cbn [SFadd SFopp]. rewrite !cond_Zopp_negb, <- Z.opp_add_distr.
  apply binary_normalize_opp.
Qed.

Lemma SFsub_swap (u v : spec_float) :
  same (SFsub prec emax v u) (SFopp (SFsub prec emax u v)).
Proof.
  destruct u as [[]|[]| |su mu eu], v as [[]|[]| |sv mv ev]; try reflexivity;
    try (unfold same; cbn; now rewrite negb_involutive).
  cbn [SFsub SFopp]. rewrite (Z.min_comm ev eu).
  match goal with
  | |- same (binary_normalize _ _ (?c - ?d) _ _) _ =>
      replace (c - d)%Z with (- (d - c))%Z by lia
  end.
  apply binary_normalize_opp.
Qed.

Lemma SFadd_same (u u' v v' : spec_float) :
  same u u' -> same v v' -> same (SFadd prec emax u v) (SFadd prec emax u' v').
Proof.
  unfold same.
  destruct u as [[]|[]| |su mu eu], u' as [[]|[]| |su' mu' eu']; cbn [unsign];
    try discriminate; intro Hu; try (injection Hu as -> -> ->);
    destruct v as [[]|[]| |sv mv ev], v' as [[]|[]| |sv' mv' ev']; cbn [unsign];
    try discriminate; intro Hv; try (injection Hv as -> -> ->); reflexivity.
Qed.

Lemma SFopp_same (u u' : spec_float) : same u u' -> same (SFopp u) (SFopp u').
Proof.
  unfold same.
  destruct u as [[]|[]| |su mu eu], u' as [[]|[]| |su' mu' eu']; cbn [unsign];
    try discriminate; intro Hu; try (injection Hu as -> -> ->); reflexivity.
Qed.

Lemma SFdiv_same (u u' c : spec_float) :
  same u u' -> same (SFdiv prec emax u c) (SFdiv prec emax u' c).
Proof.
  unfold same.
  destruct u as [[]|[]| |su mu eu], u' as [[]|[]| |su' mu' eu']; cbn [unsign];
    try discriminate; intro Hu; try (injection Hu as -> -> ->);
    destruct c as [[]|[]| |[] mc ec]; reflexivity.
Qed.

Lemma SFdiv_opp (u c : spec_float) :
  SFdiv prec emax (SFopp u) c = SFopp (SFdiv prec emax u c).
Proof.
  destruct u as [[]|[]| |su mu eu], c as [[]|[]| |sc mc ec]; try reflexivity;
    try (destruct sc; reflexivity); try (destruct su; reflexivity).
  cbn [SFdiv SFopp]. destruct (SFdiv_core_binary _ _ _ _ _ _) as [[mz ez] lz].
  replace (xorb (negb su) sc) with (negb (xorb su sc)) by (destruct su, sc; reflexivity).
  apply binary_round_aux_opp.
Qed.

Lemma SFadd_zero_l (s : bool) (u : spec_float) : same (SFadd prec emax (S754_zero s) u) u.
Proof. destruct s, u as [[]|[]| |su mu eu]; reflexivity. Qed.
End SpecFloatFacts.

Section SpecFloatOrder.
Import SpecFloat.

Lemma SFcompare_same (u u' v v' : spec_float) :
  same u u' -> same v v' -> SFcompare u v = SFcompare u' v'.
Proof.
  unfold same.
  destruct u as [[]|[]| |su mu eu], u' as [[]|[]| |su' mu' eu']; cbn [unsign];
    try discriminate; intro Hu; try (injection Hu as -> -> ->);
    destruct v as [[]|[]| |sv mv ev], v' as [[]|[]| |sv' mv' ev']; cbn [unsign];
    try discriminate; intro Hv; try (injection Hv as -> -> ->); reflexivity.
Qed.

(** Comparing the other way round gives the opposite answer. *)
Lemma SFcompare_swap (u v : spec_float) :
  SFcompare v u = option_map CompOpp (SFcompare u v).
Proof.
  assert (Hm : forall mu mv : positive,
             Pos.compare_cont Eq mv mu = CompOpp (Pos.compare_cont Eq mu mv))
    by (intros mu mv; symmetry; apply (Pos.compare_cont_antisym mu mv Eq)).
  destruct u as [[]|[]| |[] mu eu], v as [[]|[]| |[] mv ev]; try reflexivity;
    cbn [SFcompare option_map]; f_equal;
    rewrite (Z.compare_antisym eu ev), (Hm mu mv);
    destruct (eu ?= ev)%Z; cbn [CompOpp]; try reflexivity;
    destruct (Pos.compare_cont Eq mu mv); reflexivity.
Qed.

Lemma SFcompare_None (u v : spec_float) :
  SFcompare u v = None -> u = S754_nan \/ v = S754_nan.
Proof.
  destruct u as [[]|[]| |[] mu eu], v as [[]|[]| |[] mv ev]; cbn;
    try discriminate; auto.
Qed.
End SpecFloatOrder.

(** ** The primitive operations *)

Section Binary64Facts.
Import PrimFloat SpecFloat FloatOps FloatAxioms.
Import Binary64.
#[local] Open Scope float_scope.
#[local] Set Warnings "-inexact-float".

Lemma sub_swap (u v : float) : same (Prim2SF (v - u)) (SFopp (Prim2SF (u - v))).
Proof. rewrite !sub_spec. apply SFsub_swap. Qed.

(** The shoelace sum of a triangle and of the reversed triangle, over
    the six products of the loop: the terms of the reversed triangle
    are the terms of the triangle with their operands swapped, the
    first two in the other order. *)
Lemma sum3_rev (a0 b0 a1 b1 a2 b2 : float) :
  same (Prim2SF ((0 + (b1 - a1) + (b0 - a0) + (b2 - a2)) / 2))
       (SFopp (Prim2SF ((0 + (a0 - b0) + (a1 - b1) + (a2 - b2)) / 2))).
Proof.
  set (t0 := Prim2SF (a0 - b0)). set (t1 := Prim2SF (a1 - b1)).
  set (t2 := Prim2SF (a2 - b2)).
  set (core := SF64add (SF64add t0 t1) t2).
  assert (HS : same (Prim2SF (0 + (a0 - b0) + (a1 - b1) + (a2 - b2))) core).
  { rewrite !add_spec. fold t0 t1 t2.
    apply SFadd_same; [|apply same_refl].
    apply SFadd_same; [|apply same_refl].
    apply (SFadd_zero_l prec emax false). }
  assert (HR : same (Prim2SF (0 + (b1 - a1) + (b0 - a0) + (b2 - a2))) (SFopp core)).
  { rewrite !add_spec.
    eapply same_trans; [|apply SFadd_opp].
    apply SFadd_same; [|apply sub_swap].
    unfold SF64add. rewrite (SFadd_comm prec emax t0 t1).
    eapply same_trans; [|apply SFadd_opp].
    apply SFadd_same; [|apply sub_swap].
    eapply same_trans; [apply (SFadd_zero_l prec emax false)|apply sub_swap]. }
  rewrite !div_spec.
  eapply same_trans; [apply SFdiv_same, HR|].
  unfold SF64div. rewrite SFdiv_opp. apply SFopp_same, same_sym, SFdiv_same, HS.
Qed.

Lemma ltb_opp_zero (u v : float) :
  same (Prim2SF u) (SFopp (Prim2SF v)) ->
  (u <? 0) = (0 <? v) /\ (0 <? u) = (v <? 0).
Proof.
  intro H. rewrite !ltb_spec.
  change (Prim2SF 0) with (S754_zero false).
  unfold SFltb.
  rewrite (SFcompare_same _ _ _ _ H (same_refl (S754_zero false))).
  rewrite (SFcompare_same _ _ _ _ (same_refl (S754_zero false)) H).
  destruct (Prim2SF v) as [[]|[]| |[] m e]; split; reflexivity.
Qed.

Lemma is_nan_Prim2SF (u : float) : is_nan u = false -> Prim2SF u <> S754_nan.
Proof.
  unfold is_nan. rewrite eqb_spec. intros H E. rewrite E in H. discriminate.
Qed.

(** Between two numbers, [c <= d] fails exactly when [d < c]. *)
Lemma leb_false (c d : float) :
  is_nan c = false -> is_nan d = false ->
  ((c <=? d) = false <-> (d <? c) = true).
Proof.
  intros Hc Hd. apply is_nan_Prim2SF in Hc. apply is_nan_Prim2SF in Hd.
  rewrite leb_spec, ltb_spec. unfold SFleb, SFltb.
  rewrite (SFcompare_swap (Prim2SF c) (Prim2SF d)).
  destruct (SFcompare (Prim2SF c) (Prim2SF d)) as [[]|] eqn:E; cbn;
    try (split; congruence).
  apply SFcompare_None in E. tauto.
Qed.

Lemma float_ltb_asym (c d : float) : (c <? d) = true -> (d <? c) = false.
Proof.
  rewrite !ltb_spec. unfold SFltb.
  rewrite (SFcompare_swap (Prim2SF c) (Prim2SF d)).
  destruct (SFcompare (Prim2SF c) (Prim2SF d)) as [[]|]; cbn; congruence.
Qed.

(** The computed area of a reversed triangle has the opposite sign. *)
Lemma polygonArea_rev3 (a b c : Point) :
  (polygonArea [c; b; a] <? 0) = (0 <? polygonArea [a; b; c]) /\
  (0 <? polygonArea [c; b; a]) = (polygonArea [a; b; c] <? 0).
Proof.
  apply ltb_opp_zero.
  exact (sum3_rev (x a * y b) (x b * y a) (x b * y c) (x c * y b)
                  (x c * y a) (x a * y c)).
Qed.

(** What the orientation functions return for a triangle. *)
Lemma ensure_triangle (a b c : Point) :
  (polygonArea (ensureCCW [a; b; c]) <? 0) = false /\
  (polygonArea (ensureCW [a; b; c]) >? 0) = false.
Proof.
  destruct (polygonArea_rev3 a b c) as [Hneg Hpos].
  unfold ensureCCW, ensureCW. cbn [rev app].
  split.
  - destruct (polygonArea [a; b; c] <? 0) eqn:E; [|exact E].
    rewrite Hneg. now apply float_ltb_asym.
  - destruct (polygonArea [a; b; c] >? 0) eqn:E; [|exact E].
    rewrite Hpos. now apply float_ltb_asym.
Qed.

(** C5 (amended).  [ensureCCW] returns the sequence itself when the area
    the code computes for it is not negative, and the reversed sequence
    otherwise; [ensureCW] returns the sequence itself when the computed
    area is not positive, and the reversed sequence otherwise.  The
    computed area of the result has the required sign whenever the
    sequence is returned as it is, and for every triangle: it is never
    negative after [ensureCCW] and never positive after [ensureCW], so
    it is [>= 0], respectively [<= 0], unless it is NaN.  For a reversed
    sequence of four vertices or more nothing is promised: its sum is
    accumulated in another order. *)
Theorem ensure_orientation_binary64 (points : list Point) :
  ((polygonArea points <? 0) = false ->
   ensureCCW points = points /\ (polygonArea (ensureCCW points) <? 0) = false) /\
  ((polygonArea points <? 0) = true -> ensureCCW points = rev points) /\
  ((polygonArea points >? 0) = false ->
   ensureCW points = points /\ (polygonArea (ensureCW points) >? 0) = false) /\
  ((polygonArea points >? 0) = true -> ensureCW points = rev points) /\
  (List.length points = 3%nat ->
   (polygonArea (ensureCCW points) <? 0) = false /\
   (polygonArea (ensureCW points) >? 0) = false /\
   (is_nan (polygonArea (ensureCCW points)) = false ->
    (0 <=? polygonArea (ensureCCW points)) = true) /\
   (is_nan (polygonArea (ensureCW points)) = false ->
    (polygonArea (ensureCW points) <=? 0) = true)).
Proof.
  split; [|split; [|split; [|split]]].
  - intro E. unfold ensureCCW. rewrite E. split; [reflexivity | exact E].
  - intro E. unfold ensureCCW. now rewrite E.
  - intro E. unfold ensureCW. rewrite E. split; [reflexivity | exact E].
  - intro E. unfold ensureCW. now rewrite E.
  - intro Hlen.
    destruct points as [|a [|b [|c [|d rest]]]]; try discriminate.
    destruct (ensure_triangle a b c) as [Hccw Hcw].
    split; [exact Hccw|]. split; [exact Hcw|]. split.
    + intro Hnan.
      destruct (0 <=? polygonArea (ensureCCW [a; b; c])) eqn:E; [reflexivity|].
      apply leb_false in E; [congruence | reflexivity | exact Hnan].
    + intro Hnan.
      destruct (polygonArea (ensureCW [a; b; c]) <=? 0) eqn:E; [reflexivity|].
      apply leb_false in E; [congruence | exact Hnan | reflexivity].
Qed.

(** The kite is convex, counter-clockwise and without a repeated vertex
    in exact arithmetic, and it passes the simplicity check of the
    code.  The code computes a negative area for it and reverses it;
    the area it computes for the reversed kite is negative too. *)
Lemma ensureCCW_kite_negative :
  List.length kite = 4%nat /\
  strictlyConvex (map toQPoint kite) = true /\
  isSimplePolygon kite eps9 = true /\
  ensureCCW kite = rev kite /\
  polygonArea (ensureCCW kite) = (-0.000000007450580596923828125)%float /\
  (polygonArea (ensureCCW kite) <? 0) = true /\
  (0 <=? polygonArea (ensureCCW kite)) = false.
Proof. repeat split; vm_compute; reflexivity. Qed.

(** X10.  In binary64 both orientation functions keep the number of
    vertices and return the sequence or its reverse.  On a triangle
    they are idempotent: normalizing twice is normalizing once.  On a
    quadrilateral they need not be: the kite is reversed by [ensureCCW]
    and reversed back by a second [ensureCCW]. *)
Theorem ensureCCW_idempotent_triangle (a b c : Point) :
  ensureCCW (ensureCCW [a; b; c]) = ensureCCW [a; b; c] /\
  ensureCW (ensureCW [a; b; c]) = ensureCW [a; b; c] /\
  (forall points,
     List.length (ensureCCW points) = List.length points /\
     List.length (ensureCW points) = List.length points) /\
  ensureCCW kite = rev kite /\ ensureCCW (ensureCCW kite) = kite.
Proof.
  destruct (ensure_triangle a b c) as [Hccw Hcw].
  split; [|split; [|split; [|split]]].
  - unfold ensureCCW at 1. now rewrite Hccw.
  - unfold ensureCW at 1. now rewrite Hcw.
  - intro points. unfold ensureCCW, ensureCW.
    destruct (polygonArea points <? 0), (polygonArea points >? 0);
      rewrite ?length_rev; split; reflexivity.
  - vm_compute. reflexivity.
  - vm_compute. reflexivity.
Qed.

(** C7 (amended).  With [t] and [u] the two quotients the code computes,
    [lineRaySegmentIntersection] returns no hit exactly when one of its
    tests fails: [|cross v (b - a)| <= eps] holds, or one of
    [t >= -eps], [u >= -eps], [u <= 1 + eps] does not.  For numbers that
    is: parallel, or [t < -eps], or [u < -eps], or [u > 1 + eps].  A hit
    carries [t], [u] and the point [p + t v] as computed, and then all
    three tests hold.  The quotients are those of Cramer's rule for
    [p + t v = a + u (b - a)]; that they solve the system is not
    promised of the rounded values. *)
Theorem lineRaySegmentIntersection_binary64 (rayP rayDir a b : Point) (eps : float) :
  let w := sub b a in
  let denom := cross rayDir w in
  let t := cross (sub a rayP) w / denom in
  let u := cross (sub a rayP) rayDir / denom in
  (lineRaySegmentIntersection rayP rayDir a b eps = None <->
   (abs denom <=? eps) = true \/ (t >=? - eps) = false \/
   (u >=? - eps) = false \/ (u <=? 1 + eps) = false) /\
  (forall h,
     lineRaySegmentIntersection rayP rayDir a b eps = Some h ->
     h = mkHit t u (add rayP (mul rayDir t)) /\
     (abs denom <=? eps) = false /\
     (t >=? - eps) = true /\ (u >=? - eps) = true /\ (u <=? 1 + eps) = true) /\
  (is_nan t = false -> is_nan u = false ->
   is_nan (- eps) = false -> is_nan (1 + eps) = false ->
   (lineRaySegmentIntersection rayP rayDir a b eps = None <->
    (abs denom <=? eps) = true \/ (t <? - eps) = true \/
    (u <? - eps) = true \/ (u >? 1 + eps) = true)).
Proof.
  intros w denom t u.
  assert (Hnone : lineRaySegmentIntersection rayP rayDir a b eps = None <->
                  (abs denom <=? eps) = true \/ (t >=? - eps) = false \/
                  (u >=? - eps) = false \/ (u <=? 1 + eps) = false).
  { unfold lineRaySegmentIntersection. fold w. fold denom. fold t. fold u.
    destruct (abs denom <=? eps); [split; auto|].
    destruct (t >=? - eps), (u >=? - eps), (u <=? 1 + eps); cbn [andb];
      split; intro H; try discriminate; auto;
      destruct H as [H|[H|[H|H]]]; discriminate. }
  split; [exact Hnone|]. split.
  - intros h Hh. unfold lineRaySegmentIntersection in Hh.
    fold w in Hh. fold denom in Hh. fold t in Hh. fold u in Hh.
    destruct (abs denom <=? eps); [discriminate|].
    destruct (t >=? - eps), (u >=? - eps), (u <=? 1 + eps); cbn [andb] in Hh;
      try discriminate.
    injection Hh as <-. repeat split; reflexivity.
  - intros Ht Hu Hlo Hhi. rewrite Hnone.
    rewrite (leb_false (- eps) t Hlo Ht), (leb_false (- eps) u Hlo Hu),
      (leb_false u (1 + eps) Hu Hhi).
    reflexivity.
Qed.

(** From the origin along (3, 1) against the segment from (1, -1) to
    (2, 3), all of them exact binary64 values: the ray hits, at
    [t = 0.45454545454545453] and [u = 0.36363636363636365], and the
    two sides of the first equation of the system, computed with these,
    are two different numbers. *)
Lemma lineRaySegmentIntersection_inexact :
  let p := pt 0 0 in
  let v := pt 3 1 in
  let a := pt 1 (-1) in
  let b := pt 2 3 in
  exists h,
    lineRaySegmentIntersection p v a b eps9 = Some h /\
    ht h = 0.45454545454545453 /\ hu h = 0.36363636363636365 /\
    x p + ht h * x v = 1.3636363636363635 /\
    x a + hu h * (x b - x a) = 1.3636363636363638 /\
    (x p + ht h * x v =? x a + hu h * (x b - x a)) = false.
Proof.
  eexists. split; [vm_compute; reflexivity|].
  repeat split; vm_compute; reflexivity.
Qed.

End Binary64Facts.
